(** * Watcher daemon: the deterministic rule engine

    A shallow embedding of the rule engine of the watcher daemon
    (RuleEngine.ts, RuleValidator.ts, intent.ts, RuleCompiler.ts,
    RuleStore.js) and the properties its specification states about it,
    followed by the parts around the engine (Notifier.ts, security.js,
    FileWatcher.js, queue.ts) and further properties read off the code.

    Conventions of the embedding.
    - JavaScript strings are [string]s of ASCII characters; [toLowerCase],
      [trim] and the character classes of regular expressions act on the
      ASCII range.
    - JavaScript numbers that hold counts, seconds and epoch milliseconds
      are integers of [Z] (exact in JavaScript below 2^53); [undefined] is
      [None].
    - The string-literal unions [EventType] and [RuleType] are strings at
      run time and the code checks them defensively, so they are strings
      here too.
    - Calls to the logger have no effect on the state and are left out.
    - What the platform decides (the clock, the file system, [path] and
      [process.platform], the UUID of a new rule) is an argument or a
      field of a record of the model, never a fixed choice.
    - An [async] function is a computation on the world.  The engine and
      the store are modelled twice: as uninterrupted runs, and with the
      suspensions of their [await]s, during which other callers change
      the world ([Others]); the first is the second with nobody else
      running. *)

From Stdlib Require Import ZArith Ascii String List Lia Bool DecimalString OrdersEx.
From stdpp Require Import base option gmap strings list sorting.

Local Open Scope string_scope.
Local Open Scope list_scope.
Local Open Scope Z_scope.

(** ** Text primitives of the JavaScript runtime *)

Module Text.

Definition code (c : ascii) : nat := nat_of_ascii c.

Definition inRange (lo hi : nat) (c : ascii) : bool :=
  ((lo <=? code c) && (code c <=? hi))%nat.

Definition isUpper (c : ascii) : bool := inRange 65 90 c.
Definition isLower (c : ascii) : bool := inRange 97 122 c.
Definition isDigit (c : ascii) : bool := inRange 48 57 c.

(** [\w] of a regular expression. *)
Definition isWordChar (c : ascii) : bool :=
  isUpper c || isLower c || isDigit c || (code c =? 95)%nat.

(** White space as [String.prototype.trim] and [\s] see it: tab, line
    feed, vertical tab, form feed, carriage return and space. *)
Definition isSpace (c : ascii) : bool :=
  inRange 9 13 c || (code c =? 32)%nat.

Definition toLowerChar (c : ascii) : ascii :=
  if isUpper c then ascii_of_nat (code c + 32) else c.

Definition toUpperChar (c : ascii) : ascii :=
  if isLower c then ascii_of_nat (code c - 32) else c.

Fixpoint toLowerCase (s : string) : string :=
  match s with
  | EmptyString => EmptyString
  | String c r => String (toLowerChar c) (toLowerCase r)
  end.

(** [s.startsWith(p)]. *)
Definition startsWith (s p : string) : bool := String.prefix p s.

(** [s.includes(needle)]: [needle] occurs in [s] at some offset. *)
Fixpoint includes (s needle : string) : bool :=
  String.prefix needle s ||
  match s with
  | EmptyString => false
  | String _ r => includes r needle
  end.

Fixpoint dropWhile (p : ascii → bool) (s : string) : string :=
  match s with
  | EmptyString => EmptyString
  | String c r => if p c then dropWhile p r else s
  end.

Definition revString (s : string) : string :=
  string_of_list_ascii (rev (list_ascii_of_string s)).

(** [s.trim()]. *)
Definition trim (s : string) : string :=
  revString (dropWhile isSpace (revString (dropWhile isSpace s))).

(** [s.endsWith(p)]. *)
Definition endsWith (s p : string) : bool :=
  String.prefix (revString p) (revString s).

(** [s.slice(i, j)] for [0 <= i <= j]. *)
Definition slice (s : string) (i j : Z) : string :=
  substring (Z.to_nat i) (Z.to_nat (j - i)) s.

(** [parts.join(sep)]. *)
Fixpoint join (sep : string) (parts : list string) : string :=
  match parts with
  | [] => EmptyString
  | [p] => p
  | p :: rest => p +:+ sep +:+ join sep rest
  end.

(** Decimal rendering of an integer, as a template literal prints it. *)
Definition ofZ (z : Z) : string := NilZero.string_of_int (Z.to_int z).

(** A number that may be [undefined], inside a template literal. *)
Definition ofOptZ (o : option Z) : string :=
  match o with
  | Some z => ofZ z
  | None => "undefined"
  end.

(** [array.includes(x)] on an array of strings. *)
Definition arrayIncludes (l : list string) (x : string) : bool :=
  existsb (String.eqb x) l.

End Text.

(** ** [path.extname] (POSIX flavour of Node's [path] module)

    The loop runs from the last character to the first; [i] is the index
    of [c] in the path. *)

Module Path.

Record ExtState := {
  startDot : Z;
  startPart : Z;
  endPos : Z;
  matchedSlash : bool;
  preDotState : Z
}.

Definition initial : ExtState :=
  {| startDot := -1; startPart := 0; endPos := -1;
     matchedSlash := true; preDotState := 0 |}.

Fixpoint scan (revChars : list ascii) (i : Z) (st : ExtState) : ExtState :=
  match revChars with
  | [] => st
  | c :: rest =>
      if Ascii.eqb c "/"%char then
        if negb (matchedSlash st) then
          {| startDot := startDot st; startPart := i + 1; endPos := endPos st;
             matchedSlash := matchedSlash st; preDotState := preDotState st |}
        else scan rest (i - 1) st
      else
        let st1 :=
          if endPos st =? -1 then
            {| startDot := startDot st; startPart := startPart st;
               endPos := i + 1; matchedSlash := false;
               preDotState := preDotState st |}
          else st in
        let st2 :=
          if Ascii.eqb c "."%char then
            if startDot st1 =? -1 then
              {| startDot := i; startPart := startPart st1;
                 endPos := endPos st1; matchedSlash := matchedSlash st1;
                 preDotState := preDotState st1 |}
            else if negb (preDotState st1 =? 1) then
              {| startDot := startDot st1; startPart := startPart st1;
                 endPos := endPos st1; matchedSlash := matchedSlash st1;
                 preDotState := 1 |}
            else st1
          else if negb (startDot st1 =? -1) then
            {| startDot := startDot st1; startPart := startPart st1;
               endPos := endPos st1; matchedSlash := matchedSlash st1;
               preDotState := -1 |}
          else st1 in
        scan rest (i - 1) st2
  end.

Definition extname (path : string) : string :=
  let chars := list_ascii_of_string path in
  let st := scan (rev chars) (Z.of_nat (length chars) - 1) initial in
  if (startDot st =? -1) || (endPos st =? -1) || (preDotState st =? 0) ||
     ((preDotState st =? 1) && (startDot st =? endPos st - 1) &&
      (startDot st =? startPart st + 1))
  then EmptyString
  else Text.slice path (startDot st) (endPos st).

End Path.

(** ** Data model (rules/types.ts, llm/types.ts, watcher/types.ts) *)

Definition EventType := string.
Definition RuleType := string.

Record FileEvent := {
  ev_type : EventType;
  ev_path : string;
  ev_timestamp : Z
}.

Record MatchFilter := {
  pathIncludes : option (list string);
  pathExcludes : option (list string);
  extensions : option (list string);
  eventTypes : option (list EventType)
}.

Record CompiledRule := {
  c_type : RuleType;
  c_match : MatchFilter;
  c_windowSeconds : option Z;
  c_count : option Z
}.

Record Rule := {
  r_id : string;
  r_name : string;
  r_description : string;
  r_enabled : bool;
  r_createdAt : Z;
  r_lastMatched : option Z;
  r_matchCount : Z;
  r_type : RuleType;
  r_match : MatchFilter;
  r_source : string;
  r_originalCondition : option string;
  r_windowSeconds : option Z;
  r_count : option Z
}.

Record RuleMatch := {
  m_ruleId : string;
  m_ruleName : string;
  m_ruleType : RuleType;
  m_timestamp : Z;
  m_summary : string;
  m_reason : option string;
  m_path : option string;
  m_eventType : option EventType;
  m_count : option Z;
  m_windowSeconds : option Z
}.

(** [a && a.length > 0] for an optional array. *)
Definition hasEntries {A} (o : option (list A)) : bool :=
  match o with
  | Some (_ :: _) => true
  | _ => false
  end.

(** The array behind an optional field, once [hasEntries] has passed. *)
Definition entries {A} (o : option (list A)) : list A := default [] o.

(** ** The world the engine and the store run in

    [World] gathers the mutable fields of [RuleStore] and [RuleEngine].
    [Setup] gathers what is fixed at construction time or belongs to the
    runtime: the clock behind [Date.now()], the outcome of the file
    operations of a save ([ioOk]: the save is fulfilled; [failedSave]:
    what a rejected save has done to the file), [path.resolve], and the
    injected [SecurityValidator]. *)

Record EngineStats := {
  eventsObserved : Z;
  rulesEvaluated : Z;
  matches : Z
}.

Record World := {
  data_rules : list Rule;                  (* RuleStore.data.rules *)
  disk : option (list Rule);               (* document last put at dbPath *)
  stats : EngineStats;                     (* RuleEngine.stats *)
  recentMatches : list RuleMatch;          (* RuleEngine.recentMatches *)
  thresholdWindows : gmap string (list Z); (* RuleEngine.thresholdWindows *)
  ticks : nat;                             (* calls of Date.now() so far *)
  saves : nat                              (* saves run so far *)
}.

(** How a save that is rejected leaves the file at [dbPath]: as it was,
    or already replaced, which happens on win32 when [copyFile] has put
    the document there and the [unlink] of the temporary file fails. *)
Inductive FailedSave :=
| Untouched
| Replaced.

Record Setup := {
  clock : nat → Z;
  ioOk : nat → bool;
  failedSave : nat → FailedSave;
  resolve : string → string → string;
  validateFilePath : string → bool;
  watchDir : string;
  recentMatchLimit : Z
}.

Definition setRules (l : list Rule) (w : World) : World :=
  {| data_rules := l; disk := disk w; stats := stats w;
     recentMatches := recentMatches w; thresholdWindows := thresholdWindows w;
     ticks := ticks w; saves := saves w |}.

Definition setDisk (d : option (list Rule)) (w : World) : World :=
  {| data_rules := data_rules w; disk := d; stats := stats w;
     recentMatches := recentMatches w; thresholdWindows := thresholdWindows w;
     ticks := ticks w; saves := saves w |}.

Definition setStats (s : EngineStats) (w : World) : World :=
  {| data_rules := data_rules w; disk := disk w; stats := s;
     recentMatches := recentMatches w; thresholdWindows := thresholdWindows w;
     ticks := ticks w; saves := saves w |}.

Definition setRecentMatches (l : list RuleMatch) (w : World) : World :=
  {| data_rules := data_rules w; disk := disk w; stats := stats w;
     recentMatches := l; thresholdWindows := thresholdWindows w;
     ticks := ticks w; saves := saves w |}.

Definition setThresholdWindows (t : gmap string (list Z)) (w : World) : World :=
  {| data_rules := data_rules w; disk := disk w; stats := stats w;
     recentMatches := recentMatches w; thresholdWindows := t;
     ticks := ticks w; saves := saves w |}.

Definition setTicks (n : nat) (w : World) : World :=
  {| data_rules := data_rules w; disk := disk w; stats := stats w;
     recentMatches := recentMatches w; thresholdWindows := thresholdWindows w;
     ticks := n; saves := saves w |}.

Definition setSaves (n : nat) (w : World) : World :=
  {| data_rules := data_rules w; disk := disk w; stats := stats w;
     recentMatches := recentMatches w; thresholdWindows := thresholdWindows w;
     ticks := ticks w; saves := n |}.

(** A computation either returns or throws (a rejected promise); the world
    keeps every mutation made before the throw. *)
Inductive Result (A : Type) : Type :=
| Ok (a : A)
| Threw.
Arguments Ok {A} a.
Arguments Threw {A}.

Definition M (A : Type) : Type := World → Result A * World.

Definition ret {A} (a : A) : M A := fun w => (Ok a, w).

Definition bind {A B} (m : M A) (k : A → M B) : M B :=
  fun w =>
    match m w with
    | (Ok a, w') => k a w'
    | (Threw, w') => (Threw, w')
    end.

Notation "x <- m ;; k" := (bind m (fun x => k))
  (at level 100, m at next level, right associativity).
Notation "m ;; k" := (bind m (fun _ => k))
  (at level 100, right associativity).

Definition get : M World := fun w => (Ok w, w).
Definition modify (f : World → World) : M unit := fun w => (Ok tt, f w).

(** [undefined] makes every comparison false. *)
Definition leOpt (a : Z) (b : option Z) : bool :=
  match b with
  | Some b => a <=? b
  | None => false
  end.

Definition geOpt (a : Z) (b : option Z) : bool :=
  match b with
  | Some b => b <=? a
  | None => false
  end.

(** In-place update of the first element that satisfies [p], as
    [const x = list.find(p); if (x) { ...mutate x... }] does. *)
Fixpoint updateFirst {A} (p : A → bool) (f : A → A) (l : list A) : list A :=
  match l with
  | [] => []
  | x :: rest => if p x then f x :: rest else x :: updateFirst p f rest
  end.

Section Engine.

Variable env : Setup.

(** [Date.now()]. *)
Definition dateNow : M Z :=
  fun w => (Ok (clock env (ticks w)), setTicks (S (ticks w)) w).

(** *** RuleStore (the operations the engine calls) *)

(** [save], when nothing else runs between its steps: the data are
    serialized, [Date.now()] is read for the name of the temporary file,
    the document is written there and renamed over the target.  When a
    file operation fails the temporary file is removed and the error is
    thrown; the target is then as [failedSave] says. *)
Definition save : M unit :=
  fun w =>
    let n := saves w in
    let w1 := setTicks (S (ticks w)) (setSaves (S n) w) in
    if ioOk env n then (Ok tt, setDisk (Some (data_rules w1)) w1)
    else
      match failedSave env n with
      | Untouched => (Threw, w1)
      | Replaced => (Threw, setDisk (Some (data_rules w1)) w1)
      end.

Definition getEnabledRules : M (list Rule) :=
  w <- get ;; ret (List.filter r_enabled (data_rules w)).

Definition bumpMatch (now : Z) (r : Rule) : Rule :=
  {| r_id := r_id r; r_name := r_name r; r_description := r_description r;
     r_enabled := r_enabled r; r_createdAt := r_createdAt r;
     r_lastMatched := Some now; r_matchCount := r_matchCount r + 1;
     r_type := r_type r; r_match := r_match r; r_source := r_source r;
     r_originalCondition := r_originalCondition r;
     r_windowSeconds := r_windowSeconds r; r_count := r_count r |}.

(** [RuleStore.recordMatch]; the engine has a [recordMatch] of its own. *)
Definition storeRecordMatch (ruleId : string) : M unit :=
  w <- get ;;
  if existsb (fun r => String.eqb (r_id r) ruleId) (data_rules w) then
    now <- dateNow ;;
    modify (fun w => setRules
      (updateFirst (fun r => String.eqb (r_id r) ruleId) (bumpMatch now)
                   (data_rules w)) w) ;;
    save
  else ret tt.

(** *** RuleEngine *)

Definition matchesFilter (event : FileEvent) (m : MatchFilter) : bool :=
  let normalizedPath := Text.toLowerCase (ev_path event) in
  if hasEntries (pathExcludes m) &&
     existsb (fun exc => Text.includes normalizedPath (Text.toLowerCase exc))
             (entries (pathExcludes m))
  then false
  else if hasEntries (pathIncludes m) &&
     negb (existsb (fun inc => Text.includes normalizedPath (Text.toLowerCase inc))
                   (entries (pathIncludes m)))
  then false
  else if hasEntries (extensions m) &&
     negb (Text.arrayIncludes (map Text.toLowerCase (entries (extensions m)))
             (Text.toLowerCase (Path.extname (ev_path event))))
  then false
  else if hasEntries (eventTypes m) &&
     negb (Text.arrayIncludes (entries (eventTypes m)) (ev_type event))
  then false
  else true.

Definition describeFilter (m : MatchFilter) : string :=
  let parts :=
    (if hasEntries (extensions m)
     then ["files with " +:+ Text.join ", " (entries (extensions m))] else []) ++
    (if hasEntries (pathIncludes m)
     then ["paths including " +:+ Text.join ", " (entries (pathIncludes m))] else []) ++
    (if hasEntries (eventTypes m)
     then ["events " +:+ Text.join ", " (entries (eventTypes m))] else []) in
  match parts with
  | [] => "events"
  | _ => Text.join " and " parts
  end.

Definition setWindow (id : string) (l : list Z) : M unit :=
  modify (fun w => setThresholdWindows (<[id := l]> (thresholdWindows w)) w).

Definition evaluateRule (event : FileEvent) (rule : Rule) : M (option RuleMatch) :=
  if negb (matchesFilter event (r_match rule)) then ret None
  else if String.eqb (r_type rule) "pattern" then
    now <- dateNow ;;
    let reason := "File " +:+ ev_path event +:+ " was " +:+ ev_type event in
    ret (Some {| m_ruleId := r_id rule; m_ruleName := r_name rule;
                 m_ruleType := r_type rule; m_timestamp := now;
                 m_summary := reason; m_reason := Some reason;
                 m_path := Some (ev_path event);
                 m_eventType := Some (ev_type event);
                 m_count := None; m_windowSeconds := None |})
  else if String.eqb (r_type rule) "threshold" then
    now <- dateNow ;;
    let windowMs := (fun s => s * 1000) <$> r_windowSeconds rule in
    w <- get ;;
    let timestamps := default [] (thresholdWindows w !! r_id rule) ++ [now] in
    let filtered := List.filter (fun t => leOpt (now - t) windowMs) timestamps in
    setWindow (r_id rule) filtered ;;
    if geOpt (Z.of_nat (length filtered)) (r_count rule) then
      setWindow (r_id rule) [] ;;
      let reason :=
        Text.ofZ (Z.of_nat (length filtered)) +:+ " " +:+
        describeFilter (r_match rule) +:+ " in the last " +:+
        Text.ofOptZ (r_windowSeconds rule) +:+ "s (threshold: " +:+
        Text.ofOptZ (r_count rule) +:+ ")" in
      ret (Some {| m_ruleId := r_id rule; m_ruleName := r_name rule;
                   m_ruleType := r_type rule; m_timestamp := now;
                   m_summary := reason; m_reason := Some reason;
                   m_path := None; m_eventType := None;
                   m_count := Some (Z.of_nat (length filtered));
                   m_windowSeconds := r_windowSeconds rule |})
    else ret None
  else ret None.

Definition recordMatch (m : RuleMatch) : M unit :=
  modify (fun w =>
    let pushed := recentMatches w ++ [m] in
    setRecentMatches
      (if recentMatchLimit env <? Z.of_nat (length pushed)
       then tail pushed else pushed) w).

Definition addObserved (w : World) : World :=
  setStats {| eventsObserved := eventsObserved (stats w) + 1;
              rulesEvaluated := rulesEvaluated (stats w);
              matches := matches (stats w) |} w.

Definition addEvaluated (n : Z) (w : World) : World :=
  setStats {| eventsObserved := eventsObserved (stats w);
              rulesEvaluated := rulesEvaluated (stats w) + n;
              matches := matches (stats w) |} w.

Definition addMatch (w : World) : World :=
  setStats {| eventsObserved := eventsObserved (stats w);
              rulesEvaluated := rulesEvaluated (stats w);
              matches := matches (stats w) + 1 |} w.

(** The [for (const rule of rules)] loop of [evaluateEvent], when nothing
    else runs while [recordMatch] is awaited. *)
Fixpoint evaluateLoop (event : FileEvent) (rules : list Rule)
    (found : list RuleMatch) : M (list RuleMatch) :=
  match rules with
  | [] => ret found
  | rule :: rest =>
      r <- evaluateRule event rule ;;
      match r with
      | Some m =>
          modify addMatch ;;
          storeRecordMatch (r_id rule) ;;
          recordMatch m ;;
          evaluateLoop event rest (found ++ [m])
      | None => evaluateLoop event rest found
      end
  end.

(** [evaluateEvent], when nothing else runs while it awaits the validator,
    the enabled rules and the store: the call as one uninterrupted run. *)
Definition evaluateEvent (event : FileEvent) : M (list RuleMatch) :=
  modify addObserved ;;
  let absolutePath := resolve env (watchDir env) (ev_path event) in
  if negb (validateFilePath env absolutePath) then ret []
  else
    rules <- getEnabledRules ;;
    modify (addEvaluated (Z.of_nat (length rules))) ;;
    evaluateLoop event rules [].

End Engine.

(** ** RuleStore: updates, duplicate detection, signatures *)

(** The [updates] argument of [updateRule]: a [Partial<Rule>]; a field is
    [Some v] when the key is present in the object. *)
Record RuleUpdates := {
  u_id : option string;
  u_name : option string;
  u_description : option string;
  u_enabled : option bool;
  u_createdAt : option Z;
  u_lastMatched : option Z;
  u_matchCount : option Z;
  u_type : option RuleType;
  u_match : option MatchFilter;
  u_source : option string;
  u_originalCondition : option string;
  u_windowSeconds : option Z;
  u_count : option Z
}.

(** The loop [for (const key of allowed) if (key in updates) rule[key] =
    updates[key]] with [allowed = ['name', 'description', 'enabled']]. *)
Definition applyUpdates (updates : RuleUpdates) (r : Rule) : Rule :=
  {| r_id := r_id r;
     r_name := default (r_name r) (u_name updates);
     r_description := default (r_description r) (u_description updates);
     r_enabled := default (r_enabled r) (u_enabled updates);
     r_createdAt := r_createdAt r; r_lastMatched := r_lastMatched r;
     r_matchCount := r_matchCount r; r_type := r_type r;
     r_match := r_match r; r_source := r_source r;
     r_originalCondition := r_originalCondition r;
     r_windowSeconds := r_windowSeconds r; r_count := r_count r |}.

(** [key in updates]. *)
Definition present {A} (o : option A) : bool :=
  match o with
  | Some _ => true
  | None => false
  end.

Definition hasId (id : string) (r : Rule) : bool := String.eqb (r_id r) id.

Section Store.

Variable env : Setup.

Definition updateRule (id : string) (updates : RuleUpdates) : M bool :=
  w <- get ;;
  if negb (existsb (hasId id) (data_rules w)) then ret false
  else
    let changed :=
      present (u_name updates) || present (u_description updates) ||
      present (u_enabled updates) in
    modify (setRules (updateFirst (hasId id) (applyUpdates updates) (data_rules w))) ;;
    if changed then (save env ;; ret true) else ret false.

(** [findIndex] then [splice(index, 1)]. *)
Fixpoint removeFirst (p : Rule → bool) (l : list Rule) : list Rule :=
  match l with
  | [] => []
  | x :: rest => if p x then rest else x :: removeFirst p rest
  end.

Definition deleteRule (id : string) : M bool :=
  w <- get ;;
  if negb (existsb (hasId id) (data_rules w)) then ret false
  else
    modify (setRules (removeFirst (hasId id) (data_rules w))) ;;
    save env ;;
    ret true.

End Store.

(** A JavaScript [Set] of strings: its elements in insertion order. *)
Module JsSet.

Definition has (s : list string) (x : string) : bool := Text.arrayIncludes s x.

Definition add (x : string) (s : list string) : list string :=
  if has s x then s else s ++ [x].

Definition addAll (xs : list string) (s : list string) : list string :=
  fold_left (fun acc x => add x acc) xs s.

(** [new Set(values)]. *)
Definition fromList (xs : list string) : list string := addAll xs [].

End JsSet.

(** [JSON.stringify] without indentation, on the values a signature is
    made of. *)
Module Json.

Local Unset Elimination Schemes.
Inductive t :=
| Null
| Num (z : Z)
| Str (s : string)
| Arr (items : list t)
| Obj (fields : list (string * t)).
Local Set Elimination Schemes.

Definition chr (n : nat) : string := String (ascii_of_nat n) EmptyString.

Definition quoteMark : string := chr 34.
Definition backslash : string := chr 92.

Definition hexDigit (n : nat) : string :=
  chr (if (n <? 10)%nat then 48 + n else 87 + n)%nat.

(** Escape of one character inside a JSON string. *)
Definition escapeChar (c : ascii) : string :=
  let n := Text.code c in
  if (n =? 34)%nat then backslash +:+ quoteMark
  else if (n =? 92)%nat then backslash +:+ backslash
  else if (n =? 8)%nat then backslash +:+ "b"
  else if (n =? 12)%nat then backslash +:+ "f"
  else if (n =? 10)%nat then backslash +:+ "n"
  else if (n =? 13)%nat then backslash +:+ "r"
  else if (n =? 9)%nat then backslash +:+ "t"
  else if (n <? 32)%nat then
    backslash +:+ "u00" +:+ hexDigit (n / 16) +:+ hexDigit (n mod 16)
  else String c EmptyString.

Fixpoint escape (s : string) : string :=
  match s with
  | EmptyString => EmptyString
  | String c r => escapeChar c +:+ escape r
  end.

Definition quote (s : string) : string := quoteMark +:+ escape s +:+ quoteMark.

Fixpoint stringify (j : t) : string :=
  match j with
  | Null => "null"
  | Num z => Text.ofZ z
  | Str s => quote s
  | Arr items =>
      "[" +:+ Text.join "," (map stringify items) +:+ "]"
  | Obj fields =>
      "{" +:+
      Text.join "," (map (fun kv => quote (fst kv) +:+ ":" +:+ stringify (snd kv)) fields)
      +:+ "}"
  end.

(** A property whose value is [undefined] is left out of the object. *)
Definition field (key : string) (v : option t) : list (string * t) :=
  match v with
  | Some j => [(key, j)]
  | None => []
  end.

(** [value ?? null]. *)
Definition orNull (v : option Z) : t :=
  match v with
  | Some z => Num z
  | None => Null
  end.

End Json.

Section Signature.

(** [a.localeCompare(b)]: the collation belongs to the runtime; [Lt] is a
    negative result, [Eq] is zero and [Gt] a positive one. *)
Variable localeCompare : string → string → comparison.

(** [Array.prototype.sort] is a stable sort. *)
Fixpoint insertSorted (x : string) (l : list string) : list string :=
  match l with
  | [] => [x]
  | y :: rest =>
      match localeCompare x y with
      | Gt => y :: insertSorted x rest
      | _ => x :: l
      end
  end.

Definition sortStrings (l : list string) : list string :=
  foldr insertSorted [] l.

Definition nonEmptyString (s : string) : bool := negb (String.eqb s EmptyString).

Definition normalizeArray (values : option (list string)) : option (list string) :=
  match values with
  | None => None
  | Some vs =>
      let normalized :=
        List.filter nonEmptyString
          (map (fun value => Text.toLowerCase (Text.trim value)) vs) in
      match normalized with
      | [] => None
      | _ => Some (sortStrings (JsSet.fromList normalized))
      end
  end.

Definition jsonStrings (l : list string) : Json.t := Json.Arr (map Json.Str l).

(** The object that [ruleSignatureFromCompiled] hands to [JSON.stringify]. *)
Definition signatureObject (compiled : CompiledRule) : Json.t :=
  let m := c_match compiled in
  Json.Obj
    [("type", Json.Str (c_type compiled));
     ("match", Json.Obj
        (Json.field "pathIncludes" (jsonStrings <$> normalizeArray (pathIncludes m)) ++
         Json.field "pathExcludes" (jsonStrings <$> normalizeArray (pathExcludes m)) ++
         Json.field "extensions" (jsonStrings <$> normalizeArray (extensions m)) ++
         Json.field "eventTypes" (jsonStrings <$> normalizeArray (eventTypes m))));
     ("windowSeconds", Json.orNull (c_windowSeconds compiled));
     ("count", Json.orNull (c_count compiled))].

Definition ruleSignatureFromCompiled (compiled : CompiledRule) : string :=
  Json.stringify (signatureObject compiled).

Definition ruleSignatureFromRule (rule : Rule) : string :=
  let isThreshold := String.eqb (r_type rule) "threshold" in
  ruleSignatureFromCompiled
    {| c_type := r_type rule; c_match := r_match rule;
       c_windowSeconds := if isThreshold then r_windowSeconds rule else None;
       c_count := if isThreshold then r_count rule else None |}.

Definition findDuplicateRule (rules : list Rule) (condition : string)
    (compiled : CompiledRule) : option Rule :=
  let normalizedCondition := Text.toLowerCase (Text.trim condition) in
  let compiledSignature := ruleSignatureFromCompiled compiled in
  find (fun rule =>
          let existingCondition :=
            match r_originalCondition rule with
            | Some c => Text.toLowerCase (Text.trim c)
            | None => EmptyString
            end in
          (nonEmptyString existingCondition &&
           String.eqb existingCondition normalizedCondition) ||
          String.eqb (ruleSignatureFromRule rule) compiledSignature)
       rules.

End Signature.

(** ** RuleValidator *)

Record ValidationError := {
  field : string;
  message : string
}.

Record ValidationResult := {
  valid : bool;
  errors : list ValidationError
}.

Definition MIN_WINDOW_SECONDS : Z := 10.
Definition MAX_WINDOW_SECONDS : Z := 86400.
Definition MIN_THRESHOLD_COUNT : Z := 1.
Definition MAX_THRESHOLD_COUNT : Z := 1000.

Definition allowedEventTypes : list EventType := ["created"; "modified"; "deleted"].

(** [validateMatchFilter].  The filter is an object whose fields, when
    present, are arrays of strings (that is the type of [MatchFilter]), so
    the guard on the object and the four [validateArray] calls report
    nothing; the checks on the entries remain. *)
Definition validateMatchFilter (m : MatchFilter) : list ValidationError :=
  let q := Json.quoteMark in
  flat_map
    (fun ext =>
       if negb (Text.startsWith ext ".") then
         [{| field := "extensions";
             message := "Extension " +:+ q +:+ ext +:+ q +:+ " must start with "
                        +:+ q +:+ "." +:+ q |}]
       else [])
    (entries (extensions m)) ++
  flat_map
    (fun eventType =>
       if negb (Text.arrayIncludes allowedEventTypes eventType) then
         [{| field := "eventTypes";
             message := "Invalid event type " +:+ q +:+ eventType +:+ q |}]
       else [])
    (entries (eventTypes m)).

(** The check of one numeric field of a threshold rule. *)
Definition validateRange (name : string) (lo hi : Z) (v : option Z)
    : list ValidationError :=
  match v with
  | None => [{| field := name; message := name +:+ " must be a number" |}]
  | Some x =>
      if (x <? lo) || (hi <? x) then
        [{| field := name;
            message := name +:+ " must be between " +:+ Text.ofZ lo +:+ " and "
                       +:+ Text.ofZ hi |}]
      else []
  end.

Definition validateCompiledRule (rule : CompiledRule) : ValidationResult :=
  let errors :=
    (if String.eqb (c_type rule) EmptyString
     then [{| field := "type"; message := "Rule type is required" |}] else []) ++
    validateMatchFilter (c_match rule) ++
    (if String.eqb (c_type rule) "threshold" then
       validateRange "windowSeconds" MIN_WINDOW_SECONDS MAX_WINDOW_SECONDS
                     (c_windowSeconds rule) ++
       validateRange "count" MIN_THRESHOLD_COUNT MAX_THRESHOLD_COUNT (c_count rule)
     else []) ++
    (let hasPathOrExtension :=
       hasEntries (pathIncludes (c_match rule)) ||
       hasEntries (extensions (c_match rule)) in
     if negb hasPathOrExtension then
       [{| field := "match";
           message := "Rule is too broad. Add pathIncludes or extensions to narrow scope." |}]
     else []) in
  {| valid := (length errors =? 0)%nat; errors := errors |}.

(** ** Regular expressions

    The fragment of JavaScript regular expressions that the intent
    extractor and the compiler use, with the semantics of a backtracking
    matcher: alternatives are tried left to right, quantifiers are greedy
    and give characters back one at a time, the search takes the leftmost
    position at which the pattern matches.  Quantifiers apply to character
    classes (and [?] to any group), which is all the source needs. *)

Module Regex.

Inductive Re :=
| Lit (s : string)                             (* literal text *)
| Cls (p : ascii → bool)                       (* one character of a class *)
| Seq (a b : Re)
| Alt (a b : Re)
| Opt (a : Re)                                 (* a? *)
| Many (p : ascii → bool) (lo : nat) (hi : option nat)  (* [p]{lo,hi}, [p]+, [p]* *)
| WordBoundary                                 (* \b *)
| Group (n : nat) (a : Re).                    (* n-th capturing group *)

(** A position in the subject: the character before it, the text after
    it, its index, and the groups captured on the way. *)
Record Pos := {
  before : option ascii;
  rest : list ascii;
  index : nat;
  groups : list (nat * string)
}.

Definition advance (c : ascii) (r : list ascii) (st : Pos) : Pos :=
  {| before := Some c; rest := r; index := S (index st); groups := groups st |}.

Definition capture (n : nat) (from to : Pos) : Pos :=
  {| before := before to; rest := rest to; index := index to;
     groups := (n, string_of_list_ascii (take (index to - index from) (rest from)))
               :: groups to |}.

Definition isWord (o : option ascii) : bool :=
  match o with
  | Some c => Text.isWordChar c
  | None => false
  end.

Section Matcher.

(** The [i] flag. *)
Variable ignoreCase : bool.

Definition chrMatch (l c : ascii) : bool :=
  if ignoreCase then Ascii.eqb (Text.toUpperChar l) (Text.toUpperChar c)
  else Ascii.eqb l c.

Definition clsMatch (p : ascii → bool) (c : ascii) : bool :=
  if ignoreCase then p c || p (Text.toLowerChar c) || p (Text.toUpperChar c)
  else p c.

Fixpoint literal (l : list ascii) (st : Pos) (k : Pos → option Pos) : option Pos :=
  match l with
  | [] => k st
  | a :: l' =>
      match rest st with
      | c :: r => if chrMatch a c then literal l' (advance c r st) k else None
      | [] => None
      end
  end.

Fixpoint exactly (p : ascii → bool) (n : nat) (st : Pos) (k : Pos → option Pos)
    : option Pos :=
  match n with
  | O => k st
  | S n' =>
      match rest st with
      | c :: r => if clsMatch p c then exactly p n' (advance c r st) k else None
      | [] => None
      end
  end.

(** At most [n] more characters of the class, as many as possible first. *)
Fixpoint greedy (p : ascii → bool) (n : nat) (st : Pos) (k : Pos → option Pos)
    : option Pos :=
  match n with
  | O => k st
  | S n' =>
      match rest st with
      | c :: r =>
          if clsMatch p c then
            match greedy p n' (advance c r st) k with
            | Some e => Some e
            | None => k st
            end
          else k st
      | [] => k st
      end
  end.

Fixpoint run (r : Re) (st : Pos) (k : Pos → option Pos) : option Pos :=
  match r with
  | Lit s => literal (list_ascii_of_string s) st k
  | Cls p =>
      match rest st with
      | c :: r' => if clsMatch p c then k (advance c r' st) else None
      | [] => None
      end
  | Seq a b => run a st (fun st' => run b st' k)
  | Alt a b =>
      match run a st k with
      | Some e => Some e
      | None => run b st k
      end
  | Opt a =>
      match run a st k with
      | Some e => Some e
      | None => k st
      end
  | Many p lo hi =>
      exactly p lo st (fun st' =>
        greedy p (match hi with
                  | Some h => h - lo
                  | None => length (rest st')
                  end)%nat st' k)
  | WordBoundary =>
      if xorb (isWord (before st)) (isWord (head (rest st))) then k st else None
  | Group n a => run a st (fun st' => k (capture n st st'))
  end.

(** A successful match: where it starts and the position where it ends. *)
Record Match := {
  start : nat;
  stop : Pos;
  matched : string
}.

(** The leftmost match at or after a position. *)
Fixpoint search (r : Re) (prev : option ascii) (s : list ascii) (i : nat)
    : option Match :=
  let st := {| before := prev; rest := s; index := i; groups := [] |} in
  match run r st Some with
  | Some e =>
      Some {| start := i; stop := e;
              matched := string_of_list_ascii (take (index e - i) s) |}
  | None =>
      match s with
      | [] => None
      | c :: s' => search r (Some c) s' (S i)
      end
  end.

(** All matches, each search resuming where the previous match ended (one
    character further after an empty match): [skip] counts the characters
    of the previous match that are still to be passed. *)
Fixpoint searchAll (r : Re) (prev : option ascii) (s : list ascii) (i : nat)
    (skip : nat) : list Match :=
  match skip with
  | S skip' =>
      match s with
      | [] => []
      | c :: s' => searchAll r (Some c) s' (S i) skip'
      end
  | O =>
      let st := {| before := prev; rest := s; index := i; groups := [] |} in
      match run r st Some with
      | Some e =>
          let m := {| start := i; stop := e;
                      matched := string_of_list_ascii (take (index e - i) s) |} in
          match s with
          | [] => [m]
          | c :: s' => m :: searchAll r (Some c) s' (S i) (index e - i - 1)
          end
      | None =>
          match s with
          | [] => []
          | c :: s' => searchAll r (Some c) s' (S i) 0
          end
      end
  end.

(** [regex.exec(text)] / [text.match(regex)] without the [g] flag. *)
Definition exec (r : Re) (text : string) : option Match :=
  search r None (list_ascii_of_string text) 0.

(** [regex.test(text)]. *)
Definition test (r : Re) (text : string) : bool := present (exec r text).

(** [text.matchAll(regex)] with the [g] flag. *)
Definition matchAll (r : Re) (text : string) : list Match :=
  searchAll r None (list_ascii_of_string text) 0 0.

End Matcher.

(** [match[n]]: the text of the n-th group; [match[0]] is the whole match. *)
Definition group (n : nat) (m : Match) : option string :=
  match n with
  | O => Some (matched m)
  | _ => snd <$> find (fun g => (fst g =? n)%nat) (groups (stop m))
  end.

(** [a|b|c]. *)
Fixpoint alts (l : list Re) : Re :=
  match l with
  | [] => Cls (fun _ => false)
  | [a] => a
  | a :: rest => Alt a (alts rest)
  end.

(** Concatenation. *)
Fixpoint seqs (l : list Re) : Re :=
  match l with
  | [] => Lit EmptyString
  | [a] => a
  | a :: rest => Seq a (seqs rest)
  end.

Definition words (l : list string) : Re := alts (map Lit l).

(** [\b(w1|w2|...)\b]. *)
Definition wholeWord (l : list string) : Re :=
  seqs [WordBoundary; Group 1 (words l); WordBoundary].

Definition plus (p : ascii → bool) : Re := Many p 1 None.
Definition star (p : ascii → bool) : Re := Many p 0 None.

Definition isOneOf (s : string) (c : ascii) : bool :=
  existsb (Ascii.eqb c) (list_ascii_of_string s).

(** [\d], [\s], [[a-z0-9]], [[a-z0-9_.-]], [[\\/]]. *)
Definition digit : ascii → bool := Text.isDigit.
Definition space : ascii → bool := Text.isSpace.
Definition lowerOrDigit (c : ascii) : bool := Text.isLower c || Text.isDigit c.
Definition pathChar (c : ascii) : bool := lowerOrDigit c || isOneOf "_.-" c.
Definition separator (c : ascii) : bool :=
  Ascii.eqb c "/"%char || (Text.code c =? 92)%nat.

End Regex.

(** ** Intent extractor (rules/intent.ts) *)

Record RuleIntent := {
  i_eventTypes : list EventType;
  i_extensions : list string;
  i_pathIncludes : list string;
  i_count : option Z;
  i_windowSeconds : option Z
}.

Module Intent.

Import Regex.

Definition EVENT_ORDER : list EventType := ["created"; "modified"; "deleted"].

Definition LANGUAGE_EXTENSIONS : list (string * list string) :=
  [("typescript", [".ts"; ".tsx"]);
   ("javascript", [".js"; ".jsx"]);
   ("python", [".py"]);
   ("markdown", [".md"; ".markdown"]);
   ("json", [".json"]);
   ("yaml", [".yml"; ".yaml"]);
   ("yml", [".yml"; ".yaml"]);
   ("html", [".html"; ".htm"]);
   ("css", [".css"]);
   ("text", [".txt"]);
   ("csv", [".csv"]);
   ("java", [".java"]);
   ("rust", [".rs"]);
   ("go", [".go"]);
   ("kotlin", [".kt"; ".kts"]);
   ("csharp", [".cs"]);
   ("c#", [".cs"]);
   ("cplusplus", [".cpp"; ".hpp"; ".h"]);
   ("c++", [".cpp"; ".hpp"; ".h"]);
   ("c", [".c"; ".h"])].

Definition STOPWORDS : list string :=
  ["the"; "a"; "an"; "this"; "that"; "these"; "those"; "inside"; "within";
   "under"; "from"; "in"; "on"; "at"; "to"; "of"; "for"; "with"; "without";
   "folder"; "directory"; "dir"; "root"; "path"; "file"; "files"; "any"].

(** [token.replace(/\\/g, '/')]. *)
Fixpoint backslashesToSlashes (s : string) : string :=
  match s with
  | EmptyString => EmptyString
  | String c r =>
      String (if (Text.code c =? 92)%nat then "/"%char else c)
             (backslashesToSlashes r)
  end.

Definition normalizePathToken (token : string) : string :=
  let normalized := backslashesToSlashes token in
  if negb (Text.endsWith normalized "/") then normalized +:+ "/" else normalized.

(** [token.replace(/[\\/]+$/, '')]: the run of separators that ends the
    token is removed. *)
Definition stripTrailingSeparators (token : string) : string :=
  Text.revString (Text.dropWhile separator (Text.revString token)).

Definition allDigits (s : string) : bool :=
  forallb Text.isDigit (list_ascii_of_string s).

Definition isStopwordToken (token : string) : bool :=
  let cleaned := Text.toLowerCase (stripTrailingSeparators token) in
  if String.eqb cleaned EmptyString then true
  else if allDigits cleaned then true
  else Text.arrayIncludes STOPWORDS cleaned.

(** [/\bkey\b/] for each language, in the order of [LANGUAGE_MATCHERS]. *)
Definition LANGUAGE_MATCHERS : list (string * Re) :=
  map (fun key => (key, seqs [WordBoundary; Lit key; WordBoundary]))
    ["typescript"; "javascript"; "python"; "markdown"; "json"; "yaml"; "yml";
     "html"; "css"; "text"; "csv"; "java"; "rust"; "go"; "kotlin"; "csharp";
     "c#"; "cplusplus"; "c++"; "c"].

(** [Number(digits)] for a string of decimal digits. *)
Definition numberOfDigits (s : string) : Z :=
  fold_left (fun acc c => 10 * acc + Z.of_nat (Text.code c - 48))
            (list_ascii_of_string s) 0.

(** [Number.isFinite]: a decimal literal this large is read as [Infinity]. *)
Definition isFinite (z : Z) : bool := z <? 2 ^ 1024 - 2 ^ 970.

Definition unitWords (l : list string) : Re :=
  alts (map (fun w => Seq (Lit w) (Opt (Lit "s"))) l).

Definition countPatterns : list Re :=
  [ (* /\b(?:at\s+least|no\s+less\s+than|>=)\s*(\d+)\b/i *)
    seqs [WordBoundary;
          alts [seqs [Lit "at"; plus space; Lit "least"];
                seqs [Lit "no"; plus space; Lit "less"; plus space; Lit "than"];
                Lit ">="];
          star space; Group 1 (plus digit); WordBoundary];
    (* /\b(\d+)\s*(?:or\s+more|or\s+greater|or\s+above|or\s+over|\+)\s*
         (?:files?|events?|changes?|times?)?\b/i *)
    seqs [WordBoundary; Group 1 (plus digit); star space;
          alts [seqs [Lit "or"; plus space; Lit "more"];
                seqs [Lit "or"; plus space; Lit "greater"];
                seqs [Lit "or"; plus space; Lit "above"];
                seqs [Lit "or"; plus space; Lit "over"];
                Lit "+"];
          star space;
          Opt (unitWords ["file"; "event"; "change"; "time"]);
          WordBoundary];
    (* /\b(\d+)\s+(?:files?|events?|changes?)\b/i *)
    seqs [WordBoundary; Group 1 (plus digit); plus space;
          unitWords ["file"; "event"; "change"]; WordBoundary] ].

(** The [for (const pattern of patterns)] loop of [parseThresholdCount]. *)
Fixpoint firstCount (patterns : list Re) (text : string) : option Z :=
  match patterns with
  | [] => None
  | pattern :: more =>
      match exec true pattern text with
      | Some m =>
          let count := numberOfDigits (default EmptyString (group 1 m)) in
          if isFinite count && (0 <? count) then Some count
          else firstCount more text
      | None => firstCount more text
      end
  end.

Definition parseThresholdCount (text : string) : option Z :=
  firstCount countPatterns text.

(** /\b(?:within|in|over|during|for)\s+(\d+)\s*
      (seconds?|secs?|minutes?|mins?|hours?|hrs?)\b/i *)
Definition windowPattern : Re :=
  seqs [WordBoundary; words ["within"; "in"; "over"; "during"; "for"];
        plus space; Group 1 (plus digit); star space;
        Group 2 (unitWords ["second"; "sec"; "minute"; "min"; "hour"; "hr"]);
        WordBoundary].

Definition parseWindowSeconds (text : string) : option Z :=
  match exec true windowPattern text with
  | None => None
  | Some m =>
      let value := numberOfDigits (default EmptyString (group 1 m)) in
      if negb (isFinite value) || (value <=? 0) then None
      else
        let unit := Text.toLowerCase (default EmptyString (group 2 m)) in
        if Text.startsWith unit "hour" || Text.startsWith unit "hr"
        then Some (value * 3600)
        else if Text.startsWith unit "min" then Some (value * 60)
        else Some value
  end.

Definition deleteWords : list string :=
  ["delete"; "deleted"; "deleting"; "remove"; "removed"; "unlink"].
Definition createWords : list string :=
  ["create"; "created"; "creating"; "creates"; "add"; "added"; "new"].
Definition modifyWords : list string :=
  ["modify"; "modified"; "modifying"; "update"; "updated"; "updating";
   "edit"; "edited"; "editing"].
Definition changeWords : list string :=
  ["change"; "changed"; "changes"; "changing"].

Definition sawDelete (text : string) : bool := test false (wholeWord deleteWords) text.
Definition sawCreate (text : string) : bool := test false (wholeWord createWords) text.
Definition sawModify (text : string) : bool := test false (wholeWord modifyWords) text.
Definition sawChange (text : string) : bool := test false (wholeWord changeWords) text.

(** /\.[a-z0-9]{1,6}\b/g *)
Definition extensionPattern : Re :=
  seqs [Lit "."; Many lowerOrDigit 1 (Some 6%nat); WordBoundary].

(** /([a-z0-9_.-]+[\\/])/gi *)
Definition pathPattern : Re :=
  Group 1 (Seq (plus pathChar) (Cls separator)).

(** /\b(in|from|under|inside|within)\s+(?:the|a|an)?\s*([a-z0-9_.-]+)\b/gi *)
Definition phrasePattern : Re :=
  seqs [WordBoundary; Group 1 (words ["in"; "from"; "under"; "inside"; "within"]);
        plus space; Opt (words ["the"; "a"; "an"]); star space;
        Group 2 (plus pathChar); WordBoundary].

(** The loop over [LANGUAGE_MATCHERS] that runs when no literal extension
    was found. *)
Definition languageExtensions (text : string) : list string :=
  fold_left
    (fun exts matcher =>
       if test false (snd matcher) text then
         match find (fun kv => String.eqb (fst kv) (fst matcher)) LANGUAGE_EXTENSIONS with
         | Some kv => JsSet.addAll (snd kv) exts
         | None => exts
         end
       else exts)
    LANGUAGE_MATCHERS [].

(** The two loops that fill [pathIncludes]. *)
Definition addPathTokens (n : nat) (found : list Match) (acc : list string)
    : list string :=
  fold_left
    (fun acc m =>
       let token := default EmptyString (group n m) in
       if negb (isStopwordToken token) then JsSet.add (normalizePathToken token) acc
       else acc)
    found acc.

Definition extractIntent (condition : string) : RuleIntent :=
  let text := Text.toLowerCase condition in
  let eventTypes0 := [] in
  let eventTypes1 := if sawDelete text then JsSet.add "deleted" eventTypes0 else eventTypes0 in
  let eventTypes2 := if sawCreate text then JsSet.add "created" eventTypes1 else eventTypes1 in
  let eventTypes3 := if sawModify text then JsSet.add "modified" eventTypes2 else eventTypes2 in
  let eventTypes :=
    if sawChange text then
      if negb (sawDelete text) && negb (sawCreate text) && negb (sawModify text)
      then JsSet.add "modified" (JsSet.add "created" eventTypes3)
      else if negb (JsSet.has eventTypes3 "modified")
           then JsSet.add "modified" eventTypes3
           else eventTypes3
    else eventTypes3 in
  let extensions0 :=
    JsSet.addAll (map matched (matchAll false extensionPattern text)) [] in
  let extensions :=
    if (length extensions0 =? 0)%nat then languageExtensions text else extensions0 in
  let pathIncludes0 := addPathTokens 1 (matchAll true pathPattern text) [] in
  let pathIncludes := addPathTokens 2 (matchAll true phrasePattern text) pathIncludes0 in
  {| i_eventTypes := List.filter (JsSet.has eventTypes) EVENT_ORDER;
     i_extensions := extensions;
     i_pathIncludes := pathIncludes;
     i_count := parseThresholdCount text;
     i_windowSeconds := parseWindowSeconds text |}.

End Intent.

(** ** Rule compiler: the alignment pass (rules/RuleCompiler.ts) *)

Module Compiler.

(** /(exclude|excluding|except|ignore|ignoring)\b/i *)
Definition exclusionPattern : Regex.Re :=
  Regex.Seq
    (Regex.Group 1 (Regex.words ["exclude"; "excluding"; "except"; "ignore"; "ignoring"]))
    Regex.WordBoundary.

(** [alignRuleToIntent] returns [{ ...rule, match }] after it has set
    [type], [count] and [windowSeconds] on [rule] itself. *)
Definition alignRuleToIntent (condition : string) (rule : CompiledRule) : CompiledRule :=
  let intent := Intent.extractIntent condition in
  let m := c_match rule in
  let thresholdRequested := present (i_count intent) && present (i_windowSeconds intent) in
  let '(type, count, windowSeconds) :=
    if thresholdRequested then ("threshold", i_count intent, i_windowSeconds intent)
    else if String.eqb (c_type rule) "threshold" then ("pattern", None, None)
    else (c_type rule, c_count rule, c_windowSeconds rule) in
  let eventTypes' :=
    if (0 <? length (i_eventTypes intent))%nat then Some (i_eventTypes intent)
    else eventTypes m in
  let extensions' :=
    if (0 <? length (i_extensions intent))%nat then Some (i_extensions intent)
    else if hasEntries (extensions m) then None
    else extensions m in
  let pathIncludes' :=
    if (0 <? length (i_pathIncludes intent))%nat then
      Some (JsSet.fromList
              (List.filter nonEmptyString (map Text.trim (i_pathIncludes intent))))
    else if hasEntries (pathIncludes m) then None
    else pathIncludes m in
  let pathExcludes' :=
    if negb (Regex.test true exclusionPattern condition) then
      if hasEntries (pathExcludes m) then None else pathExcludes m
    else pathExcludes m in
  {| c_type := type;
     c_match := {| pathIncludes := pathIncludes'; pathExcludes := pathExcludes';
                   extensions := extensions'; eventTypes := eventTypes' |};
     c_windowSeconds := windowSeconds;
     c_count := count |}.

End Compiler.


(** ** Notions of the specification, and harnesses for the statements *)

(** [needle] occurs somewhere in [s]. *)
Definition isSubstring (needle s : string) : Prop :=
  ∃ pre post, s = pre +:+ needle +:+ post.

(** [fragment] is a case-insensitive substring of [path]. *)
Definition ciSubstring (fragment path : string) : Prop :=
  isSubstring (Text.toLowerCase fragment) (Text.toLowerCase path).

(** A field of a filter constrains events when it is present and not empty. *)
Definition constrains {A} (o : option (list A)) : Prop :=
  ∃ x l, o = Some (x :: l).

(** The match filter as the specification words it: no excluded fragment
    occurs in the path and every constrained dimension is satisfied. *)
Definition filterAccepts (event : FileEvent) (m : MatchFilter) : Prop :=
  (∀ exc, In exc (entries (pathExcludes m)) → ¬ ciSubstring exc (ev_path event)) ∧
  (constrains (pathIncludes m) →
     ∃ inc, In inc (entries (pathIncludes m)) ∧ ciSubstring inc (ev_path event)) ∧
  (constrains (extensions m) →
     ∃ ext, In ext (entries (extensions m)) ∧
            Text.toLowerCase ext = Text.toLowerCase (Path.extname (ev_path event))) ∧
  (constrains (eventTypes m) → In (ev_type event) (entries (eventTypes m))).

(** [evaluateRule] on each event of a sequence, in order. *)
Fixpoint evaluateAll (env : Setup) (events : list FileEvent) (rule : Rule)
    : M (list (option RuleMatch)) :=
  match events with
  | [] => ret []
  | e :: es =>
      r <- evaluateRule env e rule ;;
      rs <- evaluateAll env es rule ;;
      ret (r :: rs)
  end.

(** The timestamps that a threshold rule keeps when it sees a qualifying
    event at time [now]: the stored ones and [now], without those older
    than the window. *)
Definition retained (now : Z) (W : Z) (window : list Z) : list Z :=
  List.filter (fun t => now - t <=? W * 1000) (window ++ [now]).

(** The window list of a rule, empty when the map has no entry for it. *)
Definition windowOf (w : World) (rule : Rule) : list Z :=
  default [] (thresholdWindows w !! r_id rule).

(** Whether [evaluateRule] returns a match. *)
Definition fires (env : Setup) (event : FileEvent) (rule : Rule) (w : World) : bool :=
  match evaluateRule env event rule w with
  | (Ok (Some _), _) => true
  | _ => false
  end.

(** The pattern rule of the specification's example. *)
Definition sampleFilter : MatchFilter :=
  {| pathIncludes := Some ["src/"]; pathExcludes := None;
     extensions := Some [".ts"]; eventTypes := Some ["created"] |}.

Definition sampleRule : Rule :=
  {| r_id := "rule_1"; r_name := "new sources"; r_description := EmptyString;
     r_enabled := true; r_createdAt := 0; r_lastMatched := None; r_matchCount := 0;
     r_type := "pattern"; r_match := sampleFilter; r_source := "llm";
     r_originalCondition := None; r_windowSeconds := None; r_count := None |}.

(** The fields of a rule that [updateRule] may not touch. *)
Definition sameSemantics (r r' : Rule) : Prop :=
  r_type r' = r_type r ∧ r_match r' = r_match r ∧
  r_windowSeconds r' = r_windowSeconds r ∧ r_count r' = r_count r ∧
  r_id r' = r_id r ∧ r_createdAt r' = r_createdAt r ∧
  r_source r' = r_source r ∧ r_originalCondition r' = r_originalCondition r ∧
  r_matchCount r' = r_matchCount r ∧ r_lastMatched r' = r_lastMatched r.

(** An empty world and a plain setup, for examples. *)
Definition emptyWorld : World :=
  {| data_rules := []; disk := None;
     stats := {| eventsObserved := 0; rulesEvaluated := 0; matches := 0 |};
     recentMatches := []; thresholdWindows := ∅; ticks := 0; saves := 0 |}.

(** A setup whose clock advances one second per reading and whose
    validator accepts the paths that do not end in [.exe]. *)
Definition sampleSetup : Setup :=
  {| clock := fun n => 1000 * Z.of_nat n;
     ioOk := fun _ => true;
     failedSave := fun _ => Untouched;
     resolve := fun dir p => dir +:+ "/" +:+ p;
     validateFilePath := fun p => negb (Text.endsWith p ".exe");
     watchDir := "/home/user/watched";
     recentMatchLimit := 100 |}.

(** An optional array that is absent or has no entry. *)
Definition emptyOrAbsent {A} (o : option (list A)) : Prop := o = None ∨ o = Some [].

(** First and last character of a text. *)
Definition firstOf (s : string) : option ascii := head (list_ascii_of_string s).
Definition lastOf (s : string) : option ascii := last (list_ascii_of_string s).

(** [text] mentions one of the words [ws]: the word stands in the text as
    a whole word, with no letter, digit or underscore next to it. *)
Definition mentions (ws : list string) (text : string) : Prop :=
  ∃ w pre post, In w ws ∧ text = pre +:+ w +:+ post ∧
    Regex.isWord (lastOf pre) = false ∧ Regex.isWord (firstOf post) = false.

(** A non-empty word made of letters, digits and underscores. *)
Definition plainWord (w : string) : bool :=
  negb (String.eqb w EmptyString) &&
  forallb Text.isWordChar (list_ascii_of_string w).

(** Event types listed in the canonical order, each at most once. *)
Definition canonicalOrder (l : list EventType) : Prop :=
  sublist l Intent.EVENT_ORDER.

(** Examples for the engine and the compiler. *)
Definition blockedEvent : FileEvent :=
  {| ev_type := "created"; ev_path := "src/setup.exe"; ev_timestamp := 1700000000000 |}.

Definition busyWorld : World :=
  {| data_rules := [sampleRule]; disk := Some [sampleRule];
     stats := {| eventsObserved := 4; rulesEvaluated := 4; matches := 1 |};
     recentMatches := []; thresholdWindows := <["rule_9" := [1000; 2000]]> ∅;
     ticks := 7; saves := 2 |}.

Definition burstCondition : string :=
  "If 3 or more files under __tests__/ are changed within 5 minutes".

Definition modelPattern : CompiledRule :=
  {| c_type := "pattern";
     c_match := {| pathIncludes := Some ["tests/"]; pathExcludes := None;
                   extensions := Some [".ts"]; eventTypes := None |};
     c_windowSeconds := Some 10; c_count := Some 99 |}.

Definition modelThreshold : CompiledRule :=
  {| c_type := "threshold";
     c_match := {| pathIncludes := Some ["src/"]; pathExcludes := None;
                   extensions := None; eventTypes := None |};
     c_windowSeconds := Some 600; c_count := Some 5 |}.

(** ** The save queue of the rule store

    [save] chains each write behind the promise of the previous one:
    [previousSave = this.saveQueue.catch(() => undefined)] and
    [this.saveQueue = previousSave.then(async () => { ... })].  The
    callback of a save therefore becomes runnable once the save submitted
    before it has settled, fulfilled or rejected alike; the first one
    follows [Promise.resolve()].  Between the file operations of a save the
    event loop is free to run callers that change the rules and call
    [save] again.  The model is the transition system of these steps. *)

Module SaveQueue.

Definition Doc := list Rule.

(** Where the callback of a save stands. *)
Inductive Phase :=
| Writing      (* writeFile(tempPath, serialized) *)
| Renaming     (* rename(tempPath, dbPath) *)
| Copying      (* copyFile(tempPath, dbPath), the fallback on win32 *)
| Unlinking    (* unlink(tempPath) after the copy *)
| Cleanup.     (* unlink(tempPath) in the catch block, before the rethrow *)

Inductive Job :=
| Queued
| Running (phase : Phase) (serialized : Doc)
| Fulfilled
| Rejected.

Record State := {
  data : Doc;                  (* this.data, the rules in memory *)
  jobs : list Job;             (* the saves, in the order save() was called *)
  target : option Doc;         (* the file at dbPath *)
  written : list (nat * Doc);  (* documents put at dbPath: which save, what *)
  ops : list (nat * Phase)     (* file operations completed: which save, which *)
}.

Definition initial : State :=
  {| data := []; jobs := []; target := None; written := []; ops := [] |}.

Definition settled (j : Job) : bool :=
  match j with
  | Fulfilled | Rejected => true
  | _ => false
  end.

Definition running (j : Job) : bool :=
  match j with
  | Running _ _ => true
  | _ => false
  end.

(** The promise a save is chained behind has settled. *)
Definition previousSettled (js : list Job) (k : nat) : bool :=
  match k with
  | O => true
  | S k' =>
      match js !! k' with
      | Some j => settled j
      | None => false
      end
  end.

(** The outcome of a file operation; a failed rename is [recoverable] when
    the platform is win32 and the code is EEXIST, EPERM or EBUSY.  A file
    operation that fails is taken to leave the file at [dbPath] as it
    was. *)
Inductive Outcome :=
| Done
| Failed (recoverable : bool).

Inductive Label :=
| Mutate (d : Doc)                 (* a caller changes the rules in memory *)
| Submit                           (* a caller calls save() *)
| Start (k : nat)                  (* the callback of save k begins *)
| Io (k : nat) (o : Outcome).      (* the pending file operation of save k ends *)

(** Where the callback goes when its pending file operation ends. *)
Definition continue (p : Phase) (d : Doc) (o : Outcome) : Job :=
  match p, o with
  | Writing, Done => Running Renaming d
  | Writing, Failed _ => Running Cleanup d
  | Renaming, Done => Fulfilled
  | Renaming, Failed true => Running Copying d
  | Renaming, Failed false => Running Cleanup d
  | Copying, Done => Running Unlinking d
  | Copying, Failed _ => Running Cleanup d
  | Unlinking, Done => Fulfilled
  | Unlinking, Failed _ => Running Cleanup d
  | Cleanup, _ => Rejected
  end.

(** The operations that put the serialized document at [dbPath]. *)
Definition putsDocument (p : Phase) (o : Outcome) : bool :=
  match p, o with
  | Renaming, Done | Copying, Done => true
  | _, _ => false
  end.

Definition setJob (k : nat) (j : Job) (s : State) : State :=
  {| data := data s; jobs := <[k := j]> (jobs s); target := target s;
     written := written s; ops := ops s |}.

Definition putTarget (k : nat) (d : Doc) (s : State) : State :=
  {| data := data s; jobs := jobs s; target := Some d;
     written := written s ++ [(k, d)]; ops := ops s |}.

Definition logOp (k : nat) (p : Phase) (s : State) : State :=
  {| data := data s; jobs := jobs s; target := target s;
     written := written s; ops := ops s ++ [(k, p)] |}.

Definition step (l : Label) (s : State) : option State :=
  match l with
  | Mutate d =>
      Some {| data := d; jobs := jobs s; target := target s;
              written := written s; ops := ops s |}
  | Submit =>
      Some {| data := data s; jobs := jobs s ++ [Queued]; target := target s;
              written := written s; ops := ops s |}
  | Start k =>
      match jobs s !! k with
      | Some Queued =>
          if previousSettled (jobs s) k
          then Some (setJob k (Running Writing (data s)) s)
          else None
      | _ => None
      end
  | Io k o =>
      match jobs s !! k with
      | Some (Running p d) =>
          let s1 := logOp k p s in
          let s2 := if putsDocument p o then putTarget k d s1 else s1 in
          Some (setJob k (continue p d o) s2)
      | _ => None
      end
  end.

Fixpoint steps (ls : list Label) (s : State) : option State :=
  match ls with
  | [] => Some s
  | l :: rest =>
      match step l s with
      | Some s' => steps rest s'
      | None => None
      end
  end.

Definition reachable (s : State) : Prop :=
  ∃ ls, steps ls initial = Some s.

(** A save has begun: its callback has been entered. *)
Definition started (j : Job) : bool :=
  match j with
  | Queued => false
  | _ => true
  end.

(** A save that can no longer put a document at [dbPath]. *)
Definition pastWrite (j : Job) : bool :=
  match j with
  | Fulfilled | Rejected | Running Unlinking _ | Running Cleanup _ => true
  | _ => false
  end.

(** Every started save has only settled saves before it. *)
Definition ordered (js : list Job) : Prop :=
  ∀ i j Ji Jj, (i < j)%nat → js !! i = Some Ji → js !! j = Some Jj →
    started Jj = true → settled Ji = true.

(** What every reachable state satisfies. *)
Definition invariant (s : State) : Prop :=
  ordered (jobs s) ∧
  (∀ i d, In (i, d) (written s) → ∃ J, jobs s !! i = Some J ∧ pastWrite J = true) ∧
  StronglySorted lt (map fst (written s)) ∧
  (∀ i p, In (i, p) (ops s) → ∃ J, jobs s !! i = Some J ∧ started J = true) ∧
  StronglySorted le (map fst (ops s)).

(** A step of a run in which every file operation fails for good: a
    callback starts, or a file operation ends in an error that the win32
    fallback does not cover. *)
Definition failing (l : Label) : Prop :=
  match l with
  | Start _ | Io _ (Failed false) => True
  | _ => False
  end.

(** Three saves: the first fails at once, the second succeeds, the third
    falls back to the copy and is about to remove its temporary file. *)
Definition sampleLabels : list Label :=
  [Mutate [sampleRule]; Submit; Mutate []; Submit; Start 0; Submit;
   Io 0 (Failed false); Io 0 Done; Start 1; Io 1 Done; Io 1 Done; Start 2;
   Io 2 Done; Io 2 (Failed true); Io 2 Done].

Definition sampleState : State := default initial (steps sampleLabels initial).

End SaveQueue.

(** ** Notions for the threshold and signature statements *)

(** The event passes the match filter of the rule. *)
Definition qualifies (rule : Rule) (event : FileEvent) : Prop :=
  matchesFilter event (r_match rule) = true.

(** A threshold rule with count [N] and window [W] seconds. *)
Definition isThreshold (rule : Rule) (N W : Z) : Prop :=
  r_type rule = "threshold" ∧ r_count rule = Some N ∧ r_windowSeconds rule = Some W.

(** The threshold rule [{count: 3, windowSeconds: 60}] of the specification
    and three events that qualify. *)
Definition burstRule : Rule :=
  {| r_id := "rule_2"; r_name := "burst of sources"; r_description := EmptyString;
     r_enabled := true; r_createdAt := 0; r_lastMatched := None; r_matchCount := 0;
     r_type := "threshold"; r_match := sampleFilter; r_source := "llm";
     r_originalCondition := None; r_windowSeconds := Some 60; r_count := Some 3 |}.

Definition burstEvents : list FileEvent :=
  [{| ev_type := "created"; ev_path := "src/a.ts"; ev_timestamp := 0 |};
   {| ev_type := "created"; ev_path := "src/b.ts"; ev_timestamp := 0 |};
   {| ev_type := "created"; ev_path := "src/c.ts"; ev_timestamp := 0 |}].

(** What the collation of the runtime must provide for a sort to be
    canonical: only equal strings compare equal, swapping the arguments
    flips the sign, and the order is transitive. *)
Record Collation (cmp : string → string → comparison) : Prop := {
  collation_eq : ∀ a b, cmp a b = Eq → a = b;
  collation_opp : ∀ a b, cmp b a = CompOpp (cmp a b);
  collation_trans : ∀ a b c, cmp a b = Lt → cmp b c = Lt → cmp a c = Lt
}.

(** An entry of a match array as the signature sees it. *)
Definition canon (s : string) : string := Text.toLowerCase (Text.trim s).

(** Two optional arrays with the same entries up to order, letter case,
    surrounding white space and repetition. *)
Definition sameEntries (a b : option (list string)) : Prop :=
  ∀ s, In s (map canon (entries a)) ↔ In s (map canon (entries b)).

(** Two compiled rules that differ at most in that way inside their match
    filters. *)
Definition variantOf (X Y : CompiledRule) : Prop :=
  c_type X = c_type Y ∧
  c_windowSeconds X = c_windowSeconds Y ∧
  c_count X = c_count Y ∧
  sameEntries (pathIncludes (c_match X)) (pathIncludes (c_match Y)) ∧
  sameEntries (pathExcludes (c_match X)) (pathExcludes (c_match Y)) ∧
  sameEntries (extensions (c_match X)) (extensions (c_match Y)) ∧
  sameEntries (eventTypes (c_match X)) (eventTypes (c_match Y)).

(** [a] does not come after [b]. *)
Definition notAfter (cmp : string → string → comparison) (a b : string) : Prop :=
  cmp a b ≠ Gt.

(** The non-empty trimmed lower-case entries of an optional array. *)
Definition normalizedEntries (a : option (list string)) : list string :=
  List.filter nonEmptyString (map canon (entries a)).

(** Comparison by character codes, a collation for the examples. *)
Definition codeUnitOrder : string → string → comparison := String_as_OT.compare.

Definition ruleX : CompiledRule :=
  {| c_type := "threshold";
     c_match := {| pathIncludes := Some [" SRC/ "; "lib/"];
                   pathExcludes := None;
                   extensions := Some [".TS"; ".ts"];
                   eventTypes := Some ["created"] |};
     c_windowSeconds := Some 60; c_count := Some 3 |}.

Definition ruleY : CompiledRule :=
  {| c_type := "threshold";
     c_match := {| pathIncludes := Some ["lib/"; "src/"; "LIB/"];
                   pathExcludes := Some [];
                   extensions := Some [".ts"];
                   eventTypes := Some [" Created"; "created"] |};
     c_windowSeconds := Some 60; c_count := Some 3 |}.







(** ** Further notions for the engine and the store *)

(** Everything of a rule but its match count and last match time. *)
Definition sameRule (r r' : Rule) : Prop :=
  r_id r' = r_id r ∧ r_name r' = r_name r ∧ r_description r' = r_description r ∧
  r_enabled r' = r_enabled r ∧ r_createdAt r' = r_createdAt r ∧
  r_type r' = r_type r ∧ r_match r' = r_match r ∧ r_source r' = r_source r ∧
  r_originalCondition r' = r_originalCondition r ∧
  r_windowSeconds r' = r_windowSeconds r ∧ r_count r' = r_count r.

(** The match counts of all stored rules, added up. *)
Definition totalMatchCount (rules : list Rule) : Z :=
  fold_right (fun r acc => r_matchCount r + acc) 0 rules.

(** A property of the world that a computation keeps, whether it returns
    or throws. *)
Definition keeps {A} (P : World → Prop) (m : M A) : Prop :=
  ∀ w, P w → P (snd (m w)).

(** The rules that [getEnabledRules] returns. *)
Definition enabledRules (w : World) : list Rule := List.filter r_enabled (data_rules w).

(** An event on a source file, and a store with a pattern rule, a
    threshold rule and a rule that is switched off. *)
Definition sourceEvent : FileEvent :=
  {| ev_type := "created"; ev_path := "src/app.ts"; ev_timestamp := 1700000000000 |}.

Definition pausedRule : Rule :=
  {| r_id := "rule_3"; r_name := "paused"; r_description := EmptyString;
     r_enabled := false; r_createdAt := 0; r_lastMatched := None; r_matchCount := 5;
     r_type := "pattern"; r_match := sampleFilter; r_source := "llm";
     r_originalCondition := None; r_windowSeconds := None; r_count := None |}.


Definition mixedWorld : World :=
  {| data_rules := [pausedRule; sampleRule; burstRule]; disk := None;
     stats := {| eventsObserved := 0; rulesEvaluated := 0; matches := 5 |};
     recentMatches := []; thresholdWindows := ∅; ticks := 0; saves := 0 |}.

(** ** RuleStore: adding and reading rules *)

(** The [params] argument of [addRule]. *)
Record RuleParams := {
  p_name : string;
  p_description : string;
  p_condition : string;
  p_compiled : CompiledRule;
  p_source : string
}.

(** [generateId]; the UUID is drawn by [crypto.randomUUID()]. *)
Definition generateId (uuid : string) : string := "rule_" +:+ uuid.

(** The object literal that [addRule] builds; [value || 0] takes a missing
    number to zero. *)
Definition newRule (id : string) (now : Z) (params : RuleParams) : Rule :=
  let compiled := p_compiled params in
  let isThreshold := String.eqb (c_type compiled) "threshold" in
  {| r_id := id; r_name := p_name params; r_description := p_description params;
     r_enabled := true; r_createdAt := now; r_lastMatched := None; r_matchCount := 0;
     r_type := c_type compiled; r_match := c_match compiled;
     r_source := p_source params;
     r_originalCondition := Some (p_condition params);
     r_windowSeconds :=
       if isThreshold then Some (default 0 (c_windowSeconds compiled)) else None;
     r_count := if isThreshold then Some (default 0 (c_count compiled)) else None |}.

Section StoreAccess.

Variable env : Setup.

Definition addRule (uuid : string) (params : RuleParams) : M Rule :=
  let id := generateId uuid in
  now <- dateNow env ;;
  let rule := newRule id now params in
  modify (fun w => setRules (data_rules w ++ [rule]) w) ;;
  save env ;;
  ret rule.

Definition getRule (id : string) : M (option Rule) :=
  w <- get ;; ret (find (hasId id) (data_rules w)).

Definition getAllRules : M (list Rule) :=
  w <- get ;; ret (data_rules w).

End StoreAccess.

(** ** Suspension points

    An [await] suspends the caller, and until it resumes the other callers
    of the engine and of the store run: the file watcher does not wait for
    the evaluation of one event before it hands over the next, and the
    routes of the API add, update and delete rules in between.  [others k]
    is what they do to the world during the suspension numbered [k] of a
    call.  The numbers a call uses are fixed by its text and never used
    twice, so that every course of events is the run with some [others]. *)
Definition Others : Type := nat → World → World.

(** Nothing else runs. *)
Definition nobody : Others := fun _ w => w.

(** The others never change a field of the world. *)
Definition leaves {A} (field : World → A) (others : Others) : Prop :=
  ∀ k w, field (others k w) = field w.

(** The others delete no rule, and replace no id. *)
Definition keepsStoredIds (others : Others) : Prop :=
  ∀ k w id, In id (map r_id (data_rules w)) → In id (map r_id (data_rules (others k w))).

(** By how much [stats.matches] exceeds the match counts of the stored
    rules. *)
Definition surplus (w : World) : Z :=
  matches (stats w) - totalMatchCount (data_rules w).

(** The surplus has the value [c] and the ids [ids] are in the store. *)
Definition steady (c : Z) (ids : list string) (w : World) : Prop :=
  surplus w = c ∧ ∀ id, In id ids → In id (map r_id (data_rules w)).

Section Among.

Variable env : Setup.
Variable others : Others.

Definition yield (k : nat) : M unit := modify (others k).

(** [throw error]. *)
Definition raise {A} : M A := fun w => (Threw, w).

(** [save] with its suspensions.  The job is chained to the save queue and
    starts in a later turn (suspension [k]); it serializes the data as they
    are then and reads [Date.now()] for the name of the temporary file;
    [writeFile] and [rename] (or [copyFile]) take their time (suspension
    [k + 1]); the caller resumes after the job has settled (suspension
    [k + 2]). *)
Definition saveAmong (k : nat) : M unit :=
  yield k ;;
  w <- get ;;
  let serialized := data_rules w in
  let n := saves w in
  modify (fun w => setTicks (S (ticks w)) (setSaves (S n) w)) ;;
  yield (k + 1) ;;
  if ioOk env n then
    modify (setDisk (Some serialized)) ;;
    yield (k + 2)
  else
    match failedSave env n with
    | Untouched => yield (k + 2) ;; raise
    | Replaced => modify (setDisk (Some serialized)) ;; yield (k + 2) ;; raise
    end.

(** [RuleStore.recordMatch]: the rule is looked up and counted in one go,
    then the store is saved; for an id that is not stored the [await] of
    the caller is the only suspension. *)
Definition storeRecordMatchAmong (k : nat) (ruleId : string) : M unit :=
  w <- get ;;
  if existsb (fun r => String.eqb (r_id r) ruleId) (data_rules w) then
    now <- dateNow env ;;
    modify (fun w => setRules
      (updateFirst (fun r => String.eqb (r_id r) ruleId) (bumpMatch now)
                   (data_rules w)) w) ;;
    saveAmong k
  else yield k.

(** The loop of [evaluateEvent] over the rules it was given: copies made
    by [getEnabledRules], which the others cannot reach.  Each turn of the
    loop has three numbers for its suspensions. *)
Fixpoint evaluateLoopAmong (k : nat) (event : FileEvent) (rules : list Rule)
    (found : list RuleMatch) : M (list RuleMatch) :=
  match rules with
  | [] => ret found
  | rule :: rest =>
      r <- evaluateRule env event rule ;;
      match r with
      | Some m =>
          modify addMatch ;;
          storeRecordMatchAmong k (r_id rule) ;;
          recordMatch env m ;;
          evaluateLoopAmong (k + 3) event rest (found ++ [m])
      | None => evaluateLoopAmong (k + 3) event rest found
      end
  end.

(** [evaluateEvent] with its suspensions: [await validateFilePath]
    (number 0), [await getEnabledRules()] (number 1), whose body has run
    by then, and [await recordMatch] in the loop (from number 2 on). *)
Definition evaluateEventAmong (event : FileEvent) : M (list RuleMatch) :=
  modify addObserved ;;
  let absolutePath := resolve env (watchDir env) (ev_path event) in
  yield 0 ;;
  if negb (validateFilePath env absolutePath) then ret []
  else
    rules <- getEnabledRules ;;
    yield 1 ;;
    modify (addEvaluated (Z.of_nat (length rules))) ;;
    evaluateLoopAmong 2 event rules [].

(** [updateRule] and [deleteRule] with the suspensions of their save. *)
Definition updateRuleAmong (id : string) (updates : RuleUpdates) : M bool :=
  w <- get ;;
  if negb (existsb (hasId id) (data_rules w)) then ret false
  else
    let changed :=
      present (u_name updates) || present (u_description updates) ||
      present (u_enabled updates) in
    modify (setRules (updateFirst (hasId id) (applyUpdates updates) (data_rules w))) ;;
    if changed then (saveAmong 0 ;; ret true) else ret false.

Definition deleteRuleAmong (id : string) : M bool :=
  w <- get ;;
  if negb (existsb (hasId id) (data_rules w)) then ret false
  else
    modify (setRules (removeFirst (hasId id) (data_rules w))) ;;
    saveAmong 0 ;;
    ret true.

(** What the synchronous part of [recordMatch], here and in the store, does
    for another event that matches the rule. *)
Definition countedElsewhere (ruleId : string) (w : World) : World :=
  setRules
    (updateFirst (fun r => String.eqb (r_id r) ruleId)
       (bumpMatch (clock env (ticks w))) (data_rules w))
    (setTicks (S (ticks w)) (addMatch w)).

End Among.

(** Other callers that observe an event and read the clock during every
    suspension. *)
Definition busy : Others := fun _ w => setTicks (S (ticks w)) (addObserved w).

(** Other callers that delete a rule while [getEnabledRules] is awaited. *)
Definition deleting (id : string) : Others :=
  fun k w =>
    if (k =? 1)%nat then setRules (removeFirst (hasId id) (data_rules w)) w else w.

(** A second event that matches the rule while the first save of the call
    writes its file. *)
Definition secondEvent (env : Setup) (id : string) : Others :=
  fun k w => if (k =? 3)%nat then countedElsewhere env id w else w.

(** A compiled rule whose numbers fit its type: a threshold rule has a
    window and a count, another rule has neither. *)
Definition numbersFit (compiled : CompiledRule) : Prop :=
  if String.eqb (c_type compiled) "threshold"
  then is_Some (c_windowSeconds compiled) ∧ is_Some (c_count compiled)
  else c_windowSeconds compiled = None ∧ c_count compiled = None.

Definition sampleParams : RuleParams :=
  {| p_name := "burst"; p_description := EmptyString;
     p_condition := "  If 3 or more files under src/ change within 60 seconds ";
     p_compiled := ruleX; p_source := "llm" |}.


(** ** Regular expressions: positions

    [st'] is reached from [st] by reading the characters [cs]. *)
Definition span (st st' : Regex.Pos) (cs : list ascii) : Prop :=
  Regex.rest st = cs ++ Regex.rest st' ∧
  Regex.index st' = (Regex.index st + length cs)%nat.

(** ** What the intent extractor returns *)

Definition noBackslash (s : string) : bool :=
  forallb (fun c => negb (Text.code c =? 92)%nat) (list_ascii_of_string s).

(** A path fragment as the extractor stores it: not empty, closed by a
    slash, free of backslashes and of surrounding white space. *)
Definition pathFragment (p : string) : Prop :=
  p ≠ EmptyString ∧ Text.endsWith p "/" = true ∧ noBackslash p = true ∧
  Text.trim p = p.

(** An extension with its leading dot. *)
Definition dotted (e : string) : Prop := Text.startsWith e "." = true.

(** ** RuleValidator: the checks against the intent of the condition *)

(** [a === b] on numbers that may be [undefined]. *)
Definition strictEq (a b : option Z) : bool :=
  match a, b with
  | Some x, Some y => x =? y
  | None, None => true
  | _, _ => false
  end.

(** [a.toLowerCase() === b.toLowerCase()]. *)
Definition sameLower (a b : string) : bool :=
  String.eqb (Text.toLowerCase a) (Text.toLowerCase b).

(** One error, pushed when the list [found] is not empty. *)
Definition errorIfAny (found : list string) (f : string) (text : string)
    : list ValidationError :=
  if (0 <? length found)%nat then [{| field := f; message := text |}] else [].

(** The errors that [validateCompiledRuleWithIntent] adds to those of
    [validateCompiledRule]. *)
Definition intentErrors (rule : CompiledRule) (intent : RuleIntent)
    : list ValidationError :=
  let thresholdRequested := present (i_count intent) && present (i_windowSeconds intent) in
  let isThreshold := String.eqb (c_type rule) "threshold" in
  (if thresholdRequested && negb isThreshold then
     [{| field := "type";
         message := "Rule mentions a count and time window but compiled rule is not threshold." |}]
   else []) ++
  (if thresholdRequested && isThreshold then
     (if negb (strictEq (c_count rule) (i_count intent)) then
        [{| field := "count";
            message := "Rule mentions count " +:+ Text.ofOptZ (i_count intent) +:+
                       " but compiled count is " +:+ Text.ofOptZ (c_count rule) +:+ "." |}]
      else []) ++
     (if negb (strictEq (c_windowSeconds rule) (i_windowSeconds intent)) then
        [{| field := "windowSeconds";
            message := "Rule mentions window " +:+ Text.ofOptZ (i_windowSeconds intent) +:+
                       "s but compiled window is " +:+
                       Text.ofOptZ (c_windowSeconds rule) +:+ "s." |}]
      else [])
   else []) ++
  (if (0 <? length (i_eventTypes intent))%nat then
     let eventTypes := default [] (eventTypes (c_match rule)) in
     if (length eventTypes =? 0)%nat then
       [{| field := "eventTypes";
           message := "Rule mentions specific events but compiled rule has none." |}]
     else
       let extra :=
         List.filter (fun eventType =>
                        negb (Text.arrayIncludes (i_eventTypes intent) eventType))
                     eventTypes in
       errorIfAny extra "eventTypes"
         ("Rule mentions " +:+ Text.join ", " (i_eventTypes intent) +:+
          " but compiled includes " +:+ Text.join ", " extra +:+ ".")
   else []) ++
  (if (0 <? length (i_extensions intent))%nat then
     let extensions := default [] (extensions (c_match rule)) in
     let missing :=
       List.filter (fun ext => negb (existsb (fun value => sameLower value ext) extensions))
                   (i_extensions intent) in
     let extras :=
       List.filter (fun ext =>
                      negb (existsb (fun value => sameLower value ext) (i_extensions intent)))
                   extensions in
     errorIfAny missing "extensions"
       ("Rule mentions " +:+ Text.join ", " missing +:+ " but compiled rule omitted them.") ++
     errorIfAny extras "extensions"
       ("Compiled rule added unexpected extensions: " +:+ Text.join ", " extras +:+ ".")
   else []) ++
  (if (0 <? length (i_pathIncludes intent))%nat then
     let pathIncludes := default [] (pathIncludes (c_match rule)) in
     let missing :=
       List.filter
         (fun inc =>
            negb (existsb (fun value =>
                             Text.includes (Text.toLowerCase value) (Text.toLowerCase inc))
                          pathIncludes))
         (i_pathIncludes intent) in
     let extras :=
       List.filter
         (fun inc =>
            negb (existsb (fun value =>
                             Text.includes (Text.toLowerCase inc) (Text.toLowerCase value))
                          (i_pathIncludes intent)))
         pathIncludes in
     errorIfAny missing "pathIncludes"
       ("Rule mentions " +:+ Text.join ", " missing +:+ " but compiled rule omitted them.") ++
     errorIfAny extras "pathIncludes"
       ("Compiled rule added unexpected paths: " +:+ Text.join ", " extras +:+ ".")
   else []).

Definition validateCompiledRuleWithIntent (rule : CompiledRule) (condition : string)
    : ValidationResult :=
  let base := validateCompiledRule rule in
  let intent := Intent.extractIntent condition in
  let errors := errors base ++ intentErrors rule intent in
  {| valid := (length errors =? 0)%nat; errors := errors |}.

(** The error that rejects a rule without path and extension. *)
Definition tooBroad : ValidationError :=
  {| field := "match";
     message := "Rule is too broad. Add pathIncludes or extensions to narrow scope." |}.

(** ** Notifier (notifications/Notifier.ts)

    The notifier remembers, for each key, when it last sent a notification
    and sends none for the same key in the next 30 seconds.  [sent] is the
    record of the calls of [send], each with its key and time. *)

Module Notifier.

Record Notification := {
  title : string;
  body : string
}.

Record Sent := {
  s_key : string;
  s_time : Z;
  s_notification : Notification
}.

Record State := {
  enabled : bool;
  recentNotifications : gmap string Z;
  lastCleanup : Z;
  sent : list Sent
}.

Definition dedupeWindow : Z := 30000.
Definition cleanupInterval : Z := 5 * 60 * 1000.

(** [new Notifier(enabled)], constructed at time [now]. *)
Definition create (isEnabled : bool) (now : Z) : State :=
  {| enabled := isEnabled; recentNotifications := ∅; lastCleanup := now; sent := [] |}.

(** [value || fallback] on a string that may be [undefined]. *)
Definition orElse (value : option string) (fallback : string) : string :=
  match value with
  | Some s => if String.eqb s EmptyString then fallback else s
  | None => fallback
  end.

Definition keyOf (m : RuleMatch) : string :=
  m_ruleId m +:+ ":" +:+ orElse (m_path m) "all".

Definition cleanupOldEntries (now : Z) (st : State) : State :=
  let threshold := now - dedupeWindow * 2 in
  {| enabled := enabled st;
     recentNotifications :=
       filter (fun entry : string * Z => ¬ (snd entry < threshold))
              (recentNotifications st);
     lastCleanup := lastCleanup st; sent := sent st |}.

Definition conditionalCleanup (now : Z) (st : State) : State :=
  if cleanupInterval <? now - lastCleanup st then
    let st' := cleanupOldEntries now st in
    {| enabled := enabled st'; recentNotifications := recentNotifications st';
       lastCleanup := now; sent := sent st' |}
  else st.

(** [lastNotified && now - lastNotified < this.dedupeWindow]. *)
Definition suppressed (lastNotified : option Z) (now : Z) : bool :=
  match lastNotified with
  | Some t => negb (t =? 0) && (now - t <? dedupeWindow)
  | None => false
  end.

(** [notifyMatch] when [Date.now()] reads [now]. *)
Definition notifyMatch (m : RuleMatch) (now : Z) (st : State) : State :=
  if negb (enabled st) then st
  else
    let key := keyOf m in
    if suppressed (recentNotifications st !! key) now then st
    else
      let notification :=
        {| title := "Rule Matched: " +:+ m_ruleName m;
           body := orElse (m_reason m) (m_summary m) |} in
      let st1 :=
        {| enabled := enabled st;
           recentNotifications := <[key := now]> (recentNotifications st);
           lastCleanup := lastCleanup st;
           sent := sent st ++ [{| s_key := key; s_time := now;
                                  s_notification := notification |}] |} in
      conditionalCleanup now st1.

(** A sequence of matches, each with the time at which it is notified. *)
Definition notifyAll (calls : list (RuleMatch * Z)) (st : State) : State :=
  fold_left (fun st call => notifyMatch (fst call) (snd call) st) calls st.

(** The times of a sequence of calls never go back and are positive, as
    readings of [Date.now()] are. *)
Fixpoint clockLike (from : Z) (calls : list (RuleMatch * Z)) : Prop :=
  match calls with
  | [] => True
  | call :: more => from ≤ snd call ∧ 0 < snd call ∧ clockLike (snd call) more
  end.

(** Any two notifications sent for one key lie a dedupe window apart. *)
Definition spaced (log : list Sent) : Prop :=
  ∀ i j a b, (i < j)%nat → log !! i = Some a → log !! j = Some b →
             s_key a = s_key b → dedupeWindow ≤ s_time b - s_time a.

(** What holds after the calls up to time [T]. *)
Definition settledAt (T : Z) (st : State) : Prop :=
  (∀ e, In e (sent st) → 0 < s_time e ≤ T) ∧
  (∀ e, In e (sent st) →
     (∃ t, recentNotifications st !! s_key e = Some t ∧ s_time e ≤ t) ∨
     (recentNotifications st !! s_key e = None ∧ s_time e + 2 * dedupeWindow < T)) ∧
  spaced (sent st).

End Notifier.

Definition sampleMatch (path : string) : RuleMatch :=
  {| m_ruleId := "rule_1"; m_ruleName := "new sources"; m_ruleType := "pattern";
     m_timestamp := 0; m_summary := "File was created"; m_reason := None;
     m_path := Some path; m_eventType := Some "created";
     m_count := None; m_windowSeconds := None |}.

Definition sampleCalls : list (RuleMatch * Z) :=
  [(sampleMatch "src/a.ts", 1000); (sampleMatch "src/a.ts", 2000);
   (sampleMatch "src/b.ts", 2500); (sampleMatch "src/a.ts", 31000);
   (sampleMatch "src/a.ts", 400000)].

(** ** SecurityValidator (utils/security.ts)

    [Platform] gathers what belongs to the runtime: [process.platform],
    [path.sep], [path.resolve], [path.normalize], [path.extname], and the
    answers of [fs.promises.lstat] and [fs.promises.stat]. *)

Module Security.

(** The outcome of [lstat] or [stat]: the file is missing ([ENOENT]), the
    call fails with another error, or it returns the file's data. *)
Inductive FsAnswer :=
| Missing
| Failed
| Info (isSymbolicLink : bool) (size : Z).

Record Platform := {
  win32 : bool;
  sep : string;
  pathResolve : string → string;
  pathNormalize : string → string;
  pathExtname : string → string;
  lstat : string → FsAnswer;
  stat : string → FsAnswer
}.

Record Config := {
  allowedBasePaths : list string;
  allowSymlinks : bool;
  maxFileSize : Z;
  blockedExtensions : list string
}.

Section Validator.

Variable os : Platform.
Variable config : Config.

(** [process.platform === 'win32' ? p.toLowerCase() : p]. *)
Definition forPlatform (p : string) : string :=
  if win32 os then Text.toLowerCase p else p.

Definition isPathWithinBase (targetPath basePath : string) : bool :=
  let normalizedTarget := forPlatform (pathResolve os targetPath) in
  let normalizedBase := forPlatform (pathResolve os basePath) in
  String.eqb normalizedTarget normalizedBase ||
  Text.startsWith normalizedTarget (normalizedBase +:+ sep os).

(** The answer of [validateFilePath]; an error thrown inside is caught and
    turned into [false]. *)
Definition validateFilePath (filePath : string) : bool :=
  let absolutePath := pathResolve os filePath in
  let isWithinAllowed :=
    existsb (fun base => isPathWithinBase absolutePath base) (allowedBasePaths config) in
  if negb isWithinAllowed then false
  else
    let ext := Text.toLowerCase (pathExtname os absolutePath) in
    if Text.arrayIncludes (blockedExtensions config) ext then false
    else
      let sizeCheck :=
        match stat os absolutePath with
        | Info _ size => negb (maxFileSize config <? size)
        | Missing => true
        | Failed => false
        end in
      if negb (allowSymlinks config) then
        match lstat os absolutePath with
        | Info true _ => false
        | Info false _ => sizeCheck
        | Missing => sizeCheck
        | Failed => false
        end
      else sizeCheck.

Definition blockedPaths : list string :=
  ["/etc"; "/usr"; "/bin"; "/sbin"; "/lib"; "/lib64"; "/proc"; "/sys"; "/dev"; "/root"].

(** [p === blocked || p.startsWith(blocked + separator)]. *)
Definition isAtOrBelow (separator : string) (p blocked : string) : bool :=
  String.eqb p blocked || Text.startsWith p (blocked +:+ separator).

(** What [isAtOrBelow] decides: the path is the directory, or continues it
    after the separator. *)
Definition atOrBelow (separator : string) (p dir : string) : Prop :=
  p = dir ∨ ∃ rest, p = dir +:+ separator +:+ rest.

Definition isLetter (c : ascii) : bool := Text.isLower c || Text.isUpper c.

(** /^([a-zA-Z]:)[\\/]/ *)
Definition drivePattern : Regex.Re :=
  Regex.Seq (Regex.Group 1 (Regex.Seq (Regex.Cls isLetter) (Regex.Lit ":")))
            (Regex.Cls Regex.separator).

(** [absolutePath.match(/^([a-zA-Z]:)[\\/]/)]: the pattern is tried at the
    start of the path only. *)
Definition driveMatch (absolutePath : string) : option string :=
  match Regex.run false drivePattern
          {| Regex.before := None; Regex.rest := list_ascii_of_string absolutePath;
             Regex.index := 0; Regex.groups := [] |} Some with
  | Some e => snd <$> find (fun g => (fst g =? 1)%nat) (Regex.groups e)
  | None => None
  end.

Definition windowsBlocked (drive : string) : list string :=
  map (fun folder => drive +:+ Json.backslash +:+ folder)
    ["windows"; "program files"; "program files (x86)"; "programdata";
     "$recycle.bin"; "system volume information"].

Definition validateWatchDirectory (watchDir : string) : bool :=
  let absolutePath := pathResolve os watchDir in
  let normalizedPath := forPlatform absolutePath in
  if existsb (isAtOrBelow "/" normalizedPath) blockedPaths then false
  else if win32 os &&
          match driveMatch absolutePath with
          | Some drive =>
              existsb (isAtOrBelow Json.backslash normalizedPath)
                      (windowsBlocked (Text.toLowerCase drive))
          | None => false
          end
  then false
  else existsb (fun base => isPathWithinBase absolutePath base) (allowedBasePaths config).

(** [inputPath.replace(/\0/g, '')]. *)
Fixpoint removeNulls (s : string) : string :=
  match s with
  | EmptyString => EmptyString
  | String c r =>
      if (Text.code c =? 0)%nat then removeNulls r else String c (removeNulls r)
  end.

(** The loop [while (s.startsWith('..')) { s = s.slice(2); if
    (s.startsWith('/') || s.startsWith('\\')) s = s.slice(1) }]. *)
Fixpoint dropLeadingDots (s : string) : string :=
  match s with
  | String c1 (String c2 r) =>
      if Ascii.eqb c1 "." && Ascii.eqb c2 "." then
        match r with
        | String c3 r' => if Regex.separator c3 then dropLeadingDots r' else dropLeadingDots r
        | EmptyString => EmptyString
        end
      else s
  | _ => s
  end.

Definition sanitizePath (inputPath : string) : string :=
  dropLeadingDots (pathNormalize os (removeNulls inputPath)).

End Validator.

(** The separator and the extension of POSIX, paths taken as they are,
    and a file system on which one path is a symbolic link. *)
Definition posix : Platform :=
  {| win32 := false; sep := "/"; pathResolve := fun p => p; pathNormalize := fun p => p;
     pathExtname := Path.extname;
     lstat := fun p => if String.eqb p "/home/user/watched/link.ts"
                       then Info true 10 else Info false 10;
     stat := fun _ => Info false 10 |}.

Definition sampleConfig : Config :=
  {| allowedBasePaths := ["/home/user/watched"; "/"]; allowSymlinks := false;
     maxFileSize := 100 * 1024 * 1024;
     blockedExtensions := [".exe"; ".dll"; ".so"; ".dylib"] |}.

(** The same on Windows: the separator is the backslash, and the paths of
    the examples are absolute already, so that [path.resolve] returns them
    as they are. *)
Definition windows : Platform :=
  {| win32 := true; sep := Json.backslash; pathResolve := fun p => p;
     pathNormalize := fun p => p; pathExtname := Path.extname;
     lstat := fun _ => Info false 10; stat := fun _ => Info false 10 |}.

Definition windowsConfig : Config :=
  {| allowedBasePaths := ["C:\Users"; "C:\Windows"]; allowSymlinks := false;
     maxFileSize := 100 * 1024 * 1024;
     blockedExtensions := [".exe"; ".dll"; ".so"; ".dylib"] |}.

End Security.

(** A setup whose validator is the [SecurityValidator], and an event on a
    file whose extension is blocked, written in capitals. *)
Definition guardedSetup : Setup :=
  {| clock := fun n => 1000 * Z.of_nat n;
     ioOk := fun _ => true;
     failedSave := fun _ => Untouched;
     resolve := fun dir p => dir +:+ "/" +:+ p;
     validateFilePath := Security.validateFilePath Security.posix Security.sampleConfig;
     watchDir := "/home/user/watched";
     recentMatchLimit := 100 |}.

Definition upperCaseEvent : FileEvent :=
  {| ev_type := "created"; ev_path := "src/Setup.EXE"; ev_timestamp := 1700000000000 |}.

(** ** FileWatcher (watcher/FileWatcher.ts)

    Raw events of one path that arrive before its timer fires are merged
    into one event.  A timer that is pending may fire at any moment, so the
    run of the watcher is a sequence of arrivals and firings; [emitted]
    records the calls of [emitEvent]. *)

Module Watcher.

Inductive Raw := Add | Change | Unlink.

Record Flags := {
  added : bool;
  changed : bool;
  deleted : bool
}.

Record State := {
  debounceMap : gmap string Flags;
  emitted : list (EventType * string)
}.

Definition initial : State := {| debounceMap := ∅; emitted := [] |}.

(** What [path.relative], [path.isAbsolute] and [path.sep] give on the
    platform, for the watched directory. *)
Record Paths := {
  relative : string → string;
  isAbsolute : string → bool;
  sepChar : ascii
}.

Definition noFlags : Flags := {| added := false; changed := false; deleted := false |}.

Definition mark (type : Raw) (state : Flags) : Flags :=
  match type with
  | Add => {| added := true; changed := changed state; deleted := deleted state |}
  | Change => {| added := added state; changed := true; deleted := deleted state |}
  | Unlink => {| added := added state; changed := changed state; deleted := true |}
  end.

(** [enqueue]: the flags of the path are updated and its timer is set
    again. *)
Definition enqueue (type : Raw) (filePath : string) (st : State) : State :=
  let state := default noFlags (debounceMap st !! filePath) in
  {| debounceMap := <[filePath := mark type state]> (debounceMap st);
     emitted := emitted st |}.

Definition normalizeType (state : Flags) : EventType :=
  if deleted state then "deleted"
  else if added state then "created"
  else "modified".

(** [relative.split(path.sep).join('/')]. *)
Fixpoint slashes (separator : ascii) (s : string) : string :=
  match s with
  | EmptyString => EmptyString
  | String c r =>
      String (if Ascii.eqb c separator then "/"%char else c) (slashes separator r)
  end.

Definition normalizePath (os : Paths) (filePath : string) : option string :=
  let rel := relative os filePath in
  if Text.startsWith rel ".." || isAbsolute os rel then None
  else Some (slashes (sepChar os) rel).

(** The callback of the timer of a path.  An empty normalized path is
    falsy and is skipped like [null]. *)
Definition fire (os : Paths) (filePath : string) (st : State) : State :=
  match debounceMap st !! filePath with
  | None => st
  | Some state =>
      let map' := delete filePath (debounceMap st) in
      match normalizePath os filePath with
      | Some p =>
          if String.eqb p EmptyString then {| debounceMap := map'; emitted := emitted st |}
          else {| debounceMap := map';
                  emitted := emitted st ++ [(normalizeType state, p)] |}
      | None => {| debounceMap := map'; emitted := emitted st |}
      end
  end.

Inductive Step :=
| Arrive (type : Raw) (filePath : string)
| Fire (filePath : string).

Definition step (os : Paths) (st : State) (s : Step) : State :=
  match s with
  | Arrive type filePath => enqueue type filePath st
  | Fire filePath => fire os filePath st
  end.

Definition run (os : Paths) (steps : list Step) (st : State) : State :=
  fold_left (step os) steps st.

Definition isUnlink (r : Raw) : bool := match r with Unlink => true | _ => false end.
Definition isAdd (r : Raw) : bool := match r with Add => true | _ => false end.

(** The raw events of [filePath] among the steps. *)
Definition arrivalsOf (filePath : string) (steps : list Step) : list Raw :=
  flat_map (fun s => match s with
                     | Arrive type p => if String.eqb p filePath then [type] else []
                     | Fire _ => []
                     end) steps.

(** No timer of [filePath] fires during the steps. *)
Definition quiet (filePath : string) (steps : list Step) : Prop :=
  Forall (fun s => match s with
                   | Fire p => p ≠ filePath
                   | Arrive _ _ => True
                   end) steps.

(** The type reported for a burst: deleted when a deletion is in it, else
    created when an addition is in it, else modified. *)
Definition burstType (burst : list Raw) : EventType :=
  if existsb isUnlink burst then "deleted"
  else if existsb isAdd burst then "created"
  else "modified".

(** The flags of a path after a burst of raw events. *)
Definition flagsAfter (burst : list Raw) (state : Flags) : Flags :=
  fold_left (fun s t => mark t s) burst state.

Definition posixPaths : Paths :=
  {| relative := fun p => p; isAbsolute := fun p => Text.startsWith p "/";
     sepChar := "/"%char |}.

End Watcher.

(** ** LLMQueue (utils/queue.ts)

    The queue of pending tasks, the number of running tasks and the two
    flags.  A task is known by the number it was given on arrival; [log]
    records what became of the tasks that left the queue. *)

Module Queue.

Record Item := {
  taskId : nat;
  priority : Z;
  timestamp : Z;
  enqueueTime : Z
}.

Inductive Fate :=
| Dropped      (* rejected with 'Queue overflow - task dropped' *)
| Cancelled    (* rejected with 'Queue draining - task cancelled' *)
| Refused      (* rejected with 'Queue is shutting down' *)
| Started.     (* taken from the queue and run *)

Record State := {
  queue : list Item;
  active : Z;
  processing : bool;
  shuttingDown : bool;
  scheduled : nat;              (* callbacks handed to setImmediate, not yet run *)
  nextId : nat;
  log : list (nat * Fate)
}.

Record Limits := {
  maxConcurrent : Z;
  maxQueueSize : Z
}.

Definition AGING_THRESHOLD : Z := 10000.

(** [Array.prototype.sort(compare)], a stable sort: [x] goes before the
    first element it does not come after. *)
Fixpoint insertBy (compare : Item → Item → Z) (x : Item) (l : list Item) : list Item :=
  match l with
  | [] => [x]
  | y :: rest => if 0 <? compare x y then y :: insertBy compare x rest else x :: l
  end.

Definition sortBy (compare : Item → Item → Z) (l : list Item) : list Item :=
  foldr (insertBy compare) [] l.

(** [(a, b) => a.priority - b.priority]. *)
Definition byPriority (a b : Item) : Z := priority a - priority b.

(** [(a, b) => a.priority - b.priority || a.timestamp - b.timestamp]. *)
Definition byPriorityThenTime (a b : Item) : Z :=
  if priority a - priority b =? 0 then timestamp a - timestamp b
  else priority a - priority b.

(** The aging step of [sortQueue]. *)
Definition age (now : Z) (item : Item) : Item :=
  if AGING_THRESHOLD <? now - enqueueTime item then
    {| taskId := taskId item; priority := Z.max 0 (priority item - 1);
       timestamp := timestamp item; enqueueTime := enqueueTime item |}
  else item.

Definition sortQueue (now : Z) (q : list Item) : list Item :=
  sortBy byPriorityThenTime (map (age now) q).

Definition setQueue (q : list Item) (st : State) : State :=
  {| queue := q; active := active st; processing := processing st;
     shuttingDown := shuttingDown st; scheduled := scheduled st;
     nextId := nextId st; log := log st |}.

(** [processQueue]: unless it is already processing or shutting down, the
    queue marks itself as processing and hands the loop to
    [setImmediate]. *)
Definition processQueue (st : State) : State :=
  if processing st || shuttingDown st then st
  else {| queue := queue st; active := active st; processing := true;
          shuttingDown := shuttingDown st; scheduled := S (scheduled st);
          nextId := nextId st; log := log st |}.

Section Operations.

Variable limits : Limits.

(** [enqueue(task, priority)]; [now] and [later] are the readings of
    [Date.now()] in [enqueue] and in [sortQueue]. *)
Definition enqueue (prio : Z) (now later : Z) (st : State) : State :=
  let id := nextId st in
  if shuttingDown st then
    {| queue := queue st; active := active st; processing := processing st;
       shuttingDown := shuttingDown st; scheduled := scheduled st;
       nextId := S id; log := log st ++ [(id, Refused)] |}
  else
    let full := maxQueueSize limits <=? Z.of_nat (length (queue st)) in
    let sorted := if full then sortBy byPriority (queue st) else queue st in
    let kept := if full then removelast sorted else sorted in
    let dropped :=
      if full then
        match last sorted with
        | Some d => [(taskId d, Dropped)]
        | None => []
        end
      else [] in
    let item := {| taskId := id; priority := prio; timestamp := now; enqueueTime := now |} in
    processQueue
      {| queue := sortQueue later (kept ++ [item]); active := active st;
         processing := processing st; shuttingDown := shuttingDown st;
         scheduled := scheduled st; nextId := S id; log := log st ++ dropped |}.

(** The loop that [setImmediate] runs; [times] are the readings of
    [Date.now()], one for each turn of the loop. *)
Fixpoint pump (times : list Z) (st : State) : State :=
  match times with
  | [] => st
  | now :: more =>
      if (active st <? maxConcurrent limits) && (0 <? length (queue st))%nat &&
         negb (shuttingDown st)
      then
        match sortQueue now (queue st) with
        | [] => st
        | item :: rest =>
            pump more
              {| queue := rest; active := active st + 1; processing := processing st;
                 shuttingDown := shuttingDown st; scheduled := scheduled st;
                 nextId := nextId st; log := log st ++ [(taskId item, Started)] |}
        end
      else st
  end.

(** One callback of [setImmediate] runs: the loop, then [processing =
    false].  The loop makes at most as many turns as the queue is long. *)
Definition runScheduled (clock : nat → Z) (st : State) : State :=
  match scheduled st with
  | O => st
  | S n =>
      let st' := pump (map clock (seq 0 (length (queue st)))) st in
      {| queue := queue st'; active := active st'; processing := false;
         shuttingDown := shuttingDown st'; scheduled := n;
         nextId := nextId st'; log := log st' |}
  end.

(** The [finally] of a task that has settled. *)
Definition finish (st : State) : State :=
  processQueue
    {| queue := queue st; active := active st - 1; processing := false;
       shuttingDown := shuttingDown st; scheduled := scheduled st;
       nextId := nextId st; log := log st |}.

(** The start of [drain]: the flag is set and the pending tasks are
    rejected. *)
Definition drain (st : State) : State :=
  {| queue := []; active := active st; processing := processing st;
     shuttingDown := true; scheduled := scheduled st; nextId := nextId st;
     log := log st ++ map (fun item => (taskId item, Cancelled)) (queue st) |}.

Inductive Label :=
| Enqueue (prio now later : Z)
| RunScheduled (clock : nat → Z)
| Finish
| Drain.

(** A task can only finish when one is running. *)
Definition step (st : State) (l : Label) : State :=
  match l with
  | Enqueue prio now later => enqueue prio now later st
  | RunScheduled clock => runScheduled clock st
  | Finish => if 0 <? active st then finish st else st
  | Drain => drain st
  end.

Definition run (labels : list Label) (st : State) : State := fold_left step labels st.

End Operations.

(** The bounds that the queue keeps. *)
Definition bounded (limits : Limits) (st : State) : Prop :=
  Z.of_nat (length (queue st)) ≤ maxQueueSize limits ∧
  0 ≤ active st ≤ maxConcurrent limits.

Definition initial : State :=
  {| queue := []; active := 0; processing := false; shuttingDown := false;
     scheduled := 0; nextId := 0; log := [] |}.

Definition sampleLimits : Limits := {| maxConcurrent := 1; maxQueueSize := 2 |}.

End Queue.
(** The position reached from [st] after the characters [l], with [r] left
    to read. *)
Definition moved (l r : list ascii) (st : Regex.Pos) : Regex.Pos :=
  {| Regex.before := from_option Some (Regex.before st) (last l);
     Regex.rest := r;
     Regex.index := Regex.index st + length l;
     Regex.groups := Regex.groups st |}.

(** * Properties *)

(** ** Text and match filter *)

Lemma prefix_spec (p s : string) :
  String.prefix p s = true ↔ ∃ post, s = p +:+ post.
Proof.
  revert s. induction p as [|a p IH]; intros s.
  - destruct s; simpl; split; eauto.
  - destruct s as [|b s]; simpl.
    + split; [discriminate | intros [post H]; discriminate].
    + destruct (ascii_dec a b) as [->|Hne].
      * rewrite IH. split; intros [post H]; exists post; [rewrite H; reflexivity | injection H; auto].
      * split; [discriminate | intros [post H]; injection H; intros; congruence ].
Qed.

Lemma includes_unfold (s needle : string) :
  Text.includes s needle =
  String.prefix needle s ||
  match s with
  | EmptyString => false
  | String _ r => Text.includes r needle
  end.
Proof. destruct s; reflexivity. Qed.

Lemma includes_spec (s needle : string) :
  Text.includes s needle = true ↔ isSubstring needle s.
Proof.
  unfold isSubstring. induction s as [|c s IH]; rewrite includes_unfold.
  - rewrite orb_false_r, prefix_spec. split.
    + intros [post H]. exists EmptyString, post. exact H.
    + intros [pre [post H]]. destruct pre; simpl in H; [exists post; exact H | discriminate].
  - rewrite orb_true_iff, prefix_spec, IH. split.
    + intros [[post H] | [pre [post H]]].
      * exists EmptyString, post. exact H.
      * exists (String c pre), post. simpl. rewrite H. reflexivity.
    + intros [pre [post H]]. destruct pre as [|a pre]; simpl in H.
      * left. exists post. exact H.
      * right. injection H as _ H. exists pre, post. exact H.
Qed.

Lemma hasEntries_constrains {A} (o : option (list A)) :
  hasEntries o = true ↔ constrains o.
Proof.
  unfold constrains. destruct o as [[|x l]|]; simpl; split; try discriminate; eauto.
  all: intros (x' & l' & H); discriminate.
Qed.

Lemma hasEntries_false_entries {A} (o : option (list A)) :
  hasEntries o = false → entries o = [].
Proof. destruct o as [[|x l]|]; simpl; auto; discriminate. Qed.

Lemma arrayIncludes_In (l : list string) (x : string) :
  Text.arrayIncludes l x = true ↔ In x l.
Proof.
  unfold Text.arrayIncludes. rewrite existsb_exists. split.
  - intros [y [Hin Heq]]. apply String.eqb_eq in Heq. subst. exact Hin.
  - intros Hin. exists x. split; [exact Hin | apply String.eqb_refl].
Qed.

Lemma existsb_includes (path : string) (l : list string) :
  existsb (fun f => Text.includes (Text.toLowerCase path) (Text.toLowerCase f)) l = true
  ↔ ∃ f, In f l ∧ ciSubstring f path.
Proof.
  rewrite existsb_exists. unfold ciSubstring.
  split; intros [f [Hin H]]; exists f; (split; [exact Hin|]); apply includes_spec; exact H.
Qed.

(** The exclusion guard of [matchesFilter] lets the event through exactly
    when no excluded fragment occurs in the path. *)
Lemma excludes_guard (event : FileEvent) (m : MatchFilter) :
  hasEntries (pathExcludes m) &&
  existsb (fun exc => Text.includes (Text.toLowerCase (ev_path event)) (Text.toLowerCase exc))
          (entries (pathExcludes m)) = false
  ↔ ∀ exc, In exc (entries (pathExcludes m)) → ¬ ciSubstring exc (ev_path event).
Proof.
  split.
  - intros H exc Hin Hsub.
    assert (Hex : existsb (fun exc => Text.includes (Text.toLowerCase (ev_path event))
                     (Text.toLowerCase exc)) (entries (pathExcludes m)) = true)
      by (apply existsb_includes; eauto).
    rewrite Hex, andb_true_r in H.
    apply hasEntries_false_entries in H. rewrite H in Hin. exact Hin.
  - intros H. apply andb_false_iff. right.
    apply not_true_is_false. intros Hex. apply existsb_includes in Hex.
    destruct Hex as [f [Hin Hsub]]. exact (H f Hin Hsub).
Qed.

(** The three guards that follow have the shape [present && negb found]:
    they let the event through when the field has no entry or when the
    wanted entry is found. *)
Ltac guard_cases present found :=
  destruct present, found; simpl; split; auto; try discriminate;
  let H := fresh in intros H; symmetry; exact (H eq_refl).

Lemma includes_guard (event : FileEvent) (m : MatchFilter) :
  hasEntries (pathIncludes m) &&
  negb (existsb (fun inc => Text.includes (Text.toLowerCase (ev_path event)) (Text.toLowerCase inc))
          (entries (pathIncludes m))) = false
  ↔ (constrains (pathIncludes m) →
       ∃ inc, In inc (entries (pathIncludes m)) ∧ ciSubstring inc (ev_path event)).
Proof.
  rewrite <- hasEntries_constrains, <- existsb_includes.
  guard_cases (hasEntries (pathIncludes m))
    (existsb (fun inc => Text.includes (Text.toLowerCase (ev_path event))
                           (Text.toLowerCase inc)) (entries (pathIncludes m))).
Qed.

Lemma extensions_guard (event : FileEvent) (m : MatchFilter) :
  hasEntries (extensions m) &&
  negb (Text.arrayIncludes (map Text.toLowerCase (entries (extensions m)))
          (Text.toLowerCase (Path.extname (ev_path event)))) = false
  ↔ (constrains (extensions m) →
       ∃ ext, In ext (entries (extensions m)) ∧
              Text.toLowerCase ext = Text.toLowerCase (Path.extname (ev_path event))).
Proof.
  rewrite <- hasEntries_constrains.
  assert (Hin : Text.arrayIncludes (map Text.toLowerCase (entries (extensions m)))
            (Text.toLowerCase (Path.extname (ev_path event))) = true
          ↔ ∃ ext, In ext (entries (extensions m)) ∧
              Text.toLowerCase ext = Text.toLowerCase (Path.extname (ev_path event))).
  { rewrite arrayIncludes_In, in_map_iff. split; intros [x [H1 H2]]; exists x; auto. }
  rewrite <- Hin.
  guard_cases (hasEntries (extensions m))
    (Text.arrayIncludes (map Text.toLowerCase (entries (extensions m)))
       (Text.toLowerCase (Path.extname (ev_path event)))).
Qed.

Lemma eventTypes_guard (event : FileEvent) (m : MatchFilter) :
  hasEntries (eventTypes m) &&
  negb (Text.arrayIncludes (entries (eventTypes m)) (ev_type event)) = false
  ↔ (constrains (eventTypes m) → In (ev_type event) (entries (eventTypes m))).
Proof.
  rewrite <- hasEntries_constrains, <- arrayIncludes_In.
  guard_cases (hasEntries (eventTypes m))
    (Text.arrayIncludes (entries (eventTypes m)) (ev_type event)).
Qed.

Lemma matchesFilter_guards (event : FileEvent) (m : MatchFilter) :
  matchesFilter event m = true ↔ filterAccepts event m.
Proof.
  unfold filterAccepts.
  rewrite <- excludes_guard, <- includes_guard, <- extensions_guard, <- eventTypes_guard.
  unfold matchesFilter.
  destruct (hasEntries (pathExcludes m) && _);
  destruct (hasEntries (pathIncludes m) && _);
  destruct (hasEntries (extensions m) && _);
  destruct (hasEntries (eventTypes m) && _); simpl; intuition congruence.
Qed.

(** C2. [matchesFilter] returns true exactly when no excluded fragment is a
    case-insensitive substring of the path and each of [pathIncludes],
    [extensions] and [eventTypes] that has entries is satisfied; absent or
    empty fields impose nothing.  The pattern rule of the example fires on
    a created [src/app.ts] and on neither a modified [src/app.ts] nor a
    created [lib/app.ts]. *)
Theorem C2_matchesFilter :
  (∀ event m, matchesFilter event m = true ↔ filterAccepts event m) ∧
  (∀ env w,
     fires env {| ev_type := "created"; ev_path := "src/app.ts"; ev_timestamp := 0 |} sampleRule w = true ∧
     fires env {| ev_type := "modified"; ev_path := "src/app.ts"; ev_timestamp := 0 |} sampleRule w = false ∧
     fires env {| ev_type := "created"; ev_path := "lib/app.ts"; ev_timestamp := 0 |} sampleRule w = false).
Proof.
  split; [exact matchesFilter_guards|].
  intros env w. repeat split; reflexivity.
Qed.


(** ** Threshold rules *)

Lemma retained_length (now W : Z) (window : list Z) :
  (length (retained now W window) ≤ length window + 1)%nat.
Proof.
  unfold retained. etransitivity; [apply List.filter_length_le|].
  rewrite length_app. cbn. lia.
Qed.

Lemma retained_all (now W : Z) (window : list Z) :
  (∀ t, In t window → now - t ≤ W * 1000) → 0 ≤ W * 1000 →
  retained now W window = window ++ [now].
Proof.
  intros Hall HW. unfold retained. apply forallb_filter_id.
  rewrite forallb_forall. intros t Hin. apply Z.leb_le.
  apply in_app_iff in Hin. destruct Hin as [Hin|[<-|[]]]; [auto | lia].
Qed.

(** One qualifying event seen by a threshold rule. *)
Lemma threshold_step (env : Setup) (rule : Rule) (N W : Z) (event : FileEvent) (w : World) :
  isThreshold rule N W → qualifies rule event →
  let now := clock env (ticks w) in
  let kept := retained now W (windowOf w rule) in
  ∃ r w', evaluateRule env event rule w = (Ok r, w') ∧
    ticks w' = S (ticks w) ∧
    if N <=? Z.of_nat (length kept)
    then (∃ m, r = Some m ∧ m_count m = Some (Z.of_nat (length kept)) ∧
               m_timestamp m = now ∧ m_ruleId m = r_id rule) ∧
         windowOf w' rule = []
    else r = None ∧ windowOf w' rule = kept.
Proof.
  intros (Htype & Hcount & Hwin) Hq now kept.
  unfold evaluateRule. unfold qualifies in Hq. rewrite Hq, Htype, Hcount, Hwin.
  cbn [negb String.eqb Ascii.eqb Bool.eqb fmap option_fmap option_map].
  unfold bind, dateNow, get, setWindow, modify, ret. cbn.
  fold now. unfold windowOf in kept.
  change (List.filter (λ t : Z, now - t <=? W * 1000)
            (default [] (thresholdWindows w !! r_id rule) ++ [now])) with kept.
  destruct (N <=? Z.of_nat (length kept)) eqn:HN.
  - eexists _, _. split; [reflexivity|]. split; [reflexivity|]. split.
    + eexists. split; [reflexivity|]. cbn. auto.
    + unfold windowOf. cbn. rewrite lookup_insert_eq. reflexivity.
  - eexists _, _. split; [reflexivity|]. split; [reflexivity|]. split; [reflexivity|].
    unfold windowOf. cbn. rewrite lookup_insert_eq. reflexivity.
Qed.

Lemma evaluateAll_cons (env : Setup) (e : FileEvent) (es : list FileEvent) (rule : Rule)
    (w w1 w2 : World) (r : option RuleMatch) (rs : list (option RuleMatch)) :
  evaluateRule env e rule w = (Ok r, w1) →
  evaluateAll env es rule w1 = (Ok rs, w2) →
  evaluateAll env (e :: es) rule w = (Ok (r :: rs), w2).
Proof.
  intros H1 H2. cbn [evaluateAll]. unfold bind, ret. rewrite H1, H2. reflexivity.
Qed.

(** Events that keep the window below the count do not fire. *)
Lemma below_count_silent (env : Setup) (rule : Rule) (N W : Z) :
  isThreshold rule N W →
  ∀ events w,
    Forall (qualifies rule) events →
    Z.of_nat (length (windowOf w rule)) + Z.of_nat (length events) < N →
    ∃ w', evaluateAll env events rule w = (Ok (replicate (length events) None), w') ∧
          (length (windowOf w' rule) ≤ length (windowOf w rule) + length events)%nat.
Proof.
  intros Hthr. induction events as [|e es IH]; intros w Hq Hlen.
  - exists w. split; [reflexivity | lia].
  - pose proof (Forall_inv Hq) as He. pose proof (Forall_inv_tail Hq) as Hes.
    destruct (threshold_step env rule N W e w Hthr He) as (r & w1 & Hstep & Hticks & Hres).
    pose proof (retained_length (clock env (ticks w)) W (windowOf w rule)) as Hkept.
    cbn [length] in Hlen.
    destruct (N <=? _) eqn:HN in Hres; [apply Z.leb_le in HN; lia|].
    destruct Hres as [-> Hw1].
    destruct (IH w1 Hes) as (w2 & Hrun & Hlen2); [rewrite Hw1; lia|].
    exists w2. split.
    + cbn [length replicate]. eapply evaluateAll_cons; eassumption.
    + rewrite Hw1 in Hlen2. cbn [length]. lia.
Qed.

(** Events close enough in time fill the window until the count is
    reached: the last one fires and empties the window. *)
Lemma burst_fires_at_count (env : Setup) (rule : Rule) (N W : Z) :
  isThreshold rule N W →
  ∀ events w,
    Forall (qualifies rule) events →
    events ≠ [] →
    Z.of_nat (length (windowOf w rule)) + Z.of_nat (length events) = N →
    (∀ t i, In t (windowOf w rule) → (i < length events)%nat →
            clock env (ticks w + i) - t ≤ W * 1000) →
    (∀ i j, (i ≤ j < length events)%nat →
            clock env (ticks w + j) - clock env (ticks w + i) ≤ W * 1000) →
    ∃ m w', evaluateAll env events rule w =
              (Ok (replicate (length events - 1) None ++ [Some m]), w') ∧
            m_count m = Some N ∧ m_ruleId m = r_id rule ∧ windowOf w' rule = [].
Proof.
  intros Hthr. induction events as [|e es IH]; intros w Hq Hne Hlen Hold Hnew; [congruence|].
  pose proof (Forall_inv Hq) as He. pose proof (Forall_inv_tail Hq) as Hes.
  destruct (threshold_step env rule N W e w Hthr He) as (r & w1 & Hstep & Hticks & Hres).
  assert (HW : 0 ≤ W * 1000).
  { specialize (Hnew 0%nat 0%nat). cbn [length] in Hnew. specialize (Hnew ltac:(lia)). lia. }
  assert (Hkept : retained (clock env (ticks w)) W (windowOf w rule)
                  = windowOf w rule ++ [clock env (ticks w)]).
  { apply retained_all; [|exact HW]. intros t Hin.
    specialize (Hold t 0%nat Hin). cbn [length] in Hold. rewrite Nat.add_0_r in Hold.
    apply Hold. lia. }
  rewrite Hkept, length_app in Hres. cbn [length] in Hres, Hlen.
  destruct es as [|e' es'].
  - cbn [length] in Hlen.
    destruct (N <=? _) eqn:HN in Hres; [|apply Z.leb_gt in HN; lia].
    destruct Hres as [(m & -> & Hm & _ & Hid) Hw1].
    exists m, w1. split; [|split; [|split]].
    + cbn. unfold bind, ret. rewrite Hstep. reflexivity.
    + rewrite Hm. f_equal. lia.
    + exact Hid.
    + exact Hw1.
  - cbn [length] in Hlen.
    destruct (N <=? _) eqn:HN in Hres; [apply Z.leb_le in HN; lia|].
    destruct Hres as [-> Hw1].
    destruct (IH w1 Hes) as (m & w2 & Hrun & Hm & Hid & Hw2).
    + discriminate.
    + rewrite Hw1, length_app. cbn [length]. lia.
    + intros t i Hin Hi. rewrite Hw1 in Hin. rewrite Hticks.
      replace (S (ticks w) + i)%nat with (ticks w + S i)%nat by lia.
      apply in_app_iff in Hin. destruct Hin as [Hin|[<-|[]]].
      * apply Hold; [exact Hin | cbn [length] in *; lia].
      * specialize (Hnew 0%nat (S i)). rewrite Nat.add_0_r in Hnew.
        apply Hnew. cbn [length] in *. lia.
    + intros i j Hij. rewrite Hticks.
      replace (S (ticks w) + j)%nat with (ticks w + S j)%nat by lia.
      replace (S (ticks w) + i)%nat with (ticks w + S i)%nat by lia.
      apply Hnew. cbn [length] in *. lia.
    + exists m, w2. split; [|auto].
      replace (length (e :: e' :: es') - 1)%nat with (S (length (e' :: es') - 1))
        by (cbn [length]; lia).
      cbn [replicate app]. eapply evaluateAll_cons; eassumption.
Qed.

Lemma evaluateRule_unqualified (env : Setup) (rule : Rule) (event : FileEvent) (w : World) :
  matchesFilter event (r_match rule) = false →
  evaluateRule env event rule w = (Ok None, w).
Proof. intros H. unfold evaluateRule. rewrite H. reflexivity. Qed.

(** C1. For a threshold rule with count [N >= 1] and window [W] seconds:
    an event that fails the filter changes nothing; a qualifying event
    fires exactly when it is the N-th timestamp retained within the
    window, and firing resets the window list to empty; [N] qualifying
    events within [W] seconds of the first, on an empty window, fire on
    the N-th and leave the window empty; fewer than [N] qualifying events
    on an empty window never fire.  Timestamps are the readings of the
    clock at evaluation. *)
Theorem C1_threshold_fires_on_nth (env : Setup) (rule : Rule) (N W : Z) :
  isThreshold rule N W → 1 ≤ N →
  (* an event that does not pass the filter leaves the window alone *)
  (∀ event w, matchesFilter event (r_match rule) = false →
     evaluateRule env event rule w = (Ok None, w)) ∧
  (* the retained timestamps lie within W seconds of the reading; a
     qualifying event fires exactly when it is the N-th retained one, and
     firing empties the window *)
  (∀ event w, qualifies rule event →
     Z.of_nat (length (windowOf w rule)) < N →
     let kept := retained (clock env (ticks w)) W (windowOf w rule) in
     (∀ t, In t kept → clock env (ticks w) - t ≤ W * 1000) ∧
     ∃ r w', evaluateRule env event rule w = (Ok r, w') ∧
       (is_Some r ↔ Z.of_nat (length kept) = N) ∧
       (is_Some r → windowOf w' rule = []) ∧
       (r = None → windowOf w' rule = kept) ∧
       Z.of_nat (length (windowOf w' rule)) < N) ∧
  (* N qualifying events within W seconds, on an empty window: the N-th
     fires, and the window is empty again *)
  (∀ events w, Forall (qualifies rule) events →
     windowOf w rule = [] →
     Z.of_nat (length events) = N →
     (∀ i j, (i ≤ j < length events)%nat →
        clock env (ticks w + i) ≤ clock env (ticks w + j)) →
     clock env (ticks w + (length events - 1)) - clock env (ticks w) ≤ W * 1000 →
     ∃ m w', evaluateAll env events rule w =
               (Ok (replicate (length events - 1) None ++ [Some m]), w') ∧
             m_count m = Some N ∧ m_ruleId m = r_id rule ∧ windowOf w' rule = []) ∧
  (* fewer than N qualifying events on an empty window never fire *)
  (∀ events w, Forall (qualifies rule) events →
     windowOf w rule = [] →
     Z.of_nat (length events) < N →
     ∃ w', evaluateAll env events rule w = (Ok (replicate (length events) None), w')).
Proof.
  intros Hthr HN. split; [|split; [|split]].
  - intros event w. apply evaluateRule_unqualified.
  - intros event w Hq Hlen kept.
    destruct (threshold_step env rule N W event w Hthr Hq) as (r & w' & Hstep & _ & Hres).
    pose proof (retained_length (clock env (ticks w)) W (windowOf w rule)) as Hkept.
    fold kept in Hres, Hkept.
    split; [intros t Ht; apply filter_In in Ht; apply Z.leb_le, Ht|].
    exists r, w'. split; [exact Hstep|].
    destruct (N <=? Z.of_nat (length kept)) eqn:Hle.
    + apply Z.leb_le in Hle. destruct Hres as [(m & -> & _) Hw'].
      rewrite Hw'. cbn [length].
      repeat split; eauto; try lia. discriminate.
    + apply Z.leb_gt in Hle. destruct Hres as [-> Hw'].
      rewrite Hw'. repeat split; auto; try lia.
      * intros [x Hx]. discriminate.
      * intros [x Hx]. discriminate.
  - intros events w Hq Hempty Hlen Hmono Hspan.
    apply (burst_fires_at_count env rule N W Hthr events w Hq).
    + intros ->. cbn in Hlen. lia.
    + rewrite Hempty. cbn [length]. lia.
    + rewrite Hempty. intros t i [].
    + intros i j Hij.
      pose proof (Hmono 0%nat i ltac:(lia)) as H0.
      pose proof (Hmono j (length events - 1)%nat ltac:(lia)) as H1.
      rewrite Nat.add_0_r in H0. lia.
  - intros events w Hq Hempty Hlen.
    destruct (below_count_silent env rule N W Hthr events w Hq) as (w' & Hrun & _).
    + rewrite Hempty. cbn [length]. lia.
    + exists w'. exact Hrun.
Qed.

Lemma C1_witness :
  ∃ m w', evaluateAll sampleSetup burstEvents burstRule emptyWorld =
            (Ok [None; None; Some m], w') ∧
          m_count m = Some 3 ∧ m_ruleId m = "rule_2" ∧ windowOf w' burstRule = [].
Proof.
  assert (Hthr : isThreshold burstRule 3 60) by (repeat split).
  destruct (C1_threshold_fires_on_nth sampleSetup burstRule 3 60 Hthr ltac:(lia))
    as (_ & _ & Hburst & _).
  apply (Hburst burstEvents emptyWorld).
  - repeat constructor.
  - reflexivity.
  - reflexivity.
  - intros i j Hij. cbn. lia.
  - cbn. lia.
Defined.


(** ** The path gate of [evaluateEvent] *)

(** C10. When the validator rejects the resolved path of an event,
    [evaluateEvent] returns the empty list; no rule is fetched or
    evaluated, the clock is not read and nothing is saved; windows, recent
    matches and rules stay as they are, and of the statistics only
    [eventsObserved] grows, by one. *)
Theorem C10_invalid_path_skips_evaluation (env : Setup) (event : FileEvent) (w : World) :
  validateFilePath env (resolve env (watchDir env) (ev_path event)) = false →
  ∃ w', evaluateEvent env event w = (Ok [], w') ∧
    thresholdWindows w' = thresholdWindows w ∧
    recentMatches w' = recentMatches w ∧
    data_rules w' = data_rules w ∧
    disk w' = disk w ∧
    ticks w' = ticks w ∧
    saves w' = saves w ∧
    eventsObserved (stats w') = eventsObserved (stats w) + 1 ∧
    rulesEvaluated (stats w') = rulesEvaluated (stats w) ∧
    matches (stats w') = matches (stats w).
Proof.
  intros Hinvalid. exists (addObserved w). split.
  - unfold evaluateEvent, bind, modify, ret. rewrite Hinvalid. reflexivity.
  - repeat split.
Qed.

Lemma C10_witness :
  ∃ w', evaluateEvent sampleSetup blockedEvent busyWorld = (Ok [], w') ∧
    thresholdWindows w' = thresholdWindows busyWorld ∧
    recentMatches w' = recentMatches busyWorld ∧
    data_rules w' = data_rules busyWorld ∧
    disk w' = disk busyWorld ∧
    ticks w' = ticks busyWorld ∧
    saves w' = saves busyWorld ∧
    eventsObserved (stats w') = eventsObserved (stats busyWorld) + 1 ∧
    rulesEvaluated (stats w') = rulesEvaluated (stats busyWorld) ∧
    matches (stats w') = matches (stats busyWorld).
Proof.
  apply (C10_invalid_path_skips_evaluation sampleSetup blockedEvent busyWorld).
  vm_compute. reflexivity.
Defined.


(** ** Validator *)

Lemma emptyOrAbsent_hasEntries {A} (o : option (list A)) :
  emptyOrAbsent o → hasEntries o = false.
Proof. intros [->| ->]; reflexivity. Qed.

(** C6. A compiled rule whose [pathIncludes] and [extensions] are both
    empty or absent is invalid, with an error on the field [match],
    whatever its type, event types, excluded paths, window and count. *)
Theorem C6_too_broad_rejected (rule : CompiledRule) :
  emptyOrAbsent (pathIncludes (c_match rule)) →
  emptyOrAbsent (extensions (c_match rule)) →
  valid (validateCompiledRule rule) = false ∧
  ∃ e, In e (errors (validateCompiledRule rule)) ∧ field e = "match".
Proof.
  intros Hp He.
  apply emptyOrAbsent_hasEntries in Hp, He.
  assert (Hin : ∃ e, In e (errors (validateCompiledRule rule)) ∧ field e = "match").
  { unfold validateCompiledRule. cbn [errors]. rewrite Hp, He. cbn [orb negb].
    exists {| field := "match";
              message := "Rule is too broad. Add pathIncludes or extensions to narrow scope." |}.
    split; [|reflexivity].
    rewrite !in_app_iff. right. right. right. left. reflexivity. }
  split; [|exact Hin].
  destruct Hin as [e [Hin _]].
  unfold validateCompiledRule in *. cbn [valid errors] in *.
  destruct (_ ++ _) as [|x l] eqn:E; [destruct Hin | reflexivity].
Qed.

Lemma C6_witness :
  let rule := {| c_type := "threshold";
                 c_match := {| pathIncludes := Some []; pathExcludes := Some ["node_modules/"];
                               extensions := None; eventTypes := Some ["created"] |};
                 c_windowSeconds := Some 60; c_count := Some 3 |} in
  valid (validateCompiledRule rule) = false ∧
  ∃ e, In e (errors (validateCompiledRule rule)) ∧ field e = "match".
Proof.
  intros rule. apply (C6_too_broad_rejected rule); [right | left]; reflexivity.
Defined.


(** ** Regular expressions: whole-word patterns *)

Module RegexFacts.
Import Regex.

Lemma literal_prefix (l : list ascii) :
  ∀ st k r, rest st = l ++ r → literal false l st k = k (moved l r st).
Proof.
  induction l as [|a l IH]; intros st k r Hr.
  - cbn. f_equal. destruct st; unfold moved; cbn in *. subst. f_equal. lia.
  - cbn [literal]. rewrite Hr. cbn [app]. unfold chrMatch. rewrite Ascii.eqb_refl.
    rewrite (IH (advance a (l ++ r) st) k r eq_refl). f_equal.
    unfold moved, advance. cbn. f_equal.
    + rewrite last_cons. destruct (last l); reflexivity.
    + lia.
Qed.

Lemma literal_some (l : list ascii) :
  ∀ st k e, literal false l st k = Some e → ∃ r, rest st = l ++ r.
Proof.
  induction l as [|a l IH]; intros st k e H.
  - exists (rest st). reflexivity.
  - cbn [literal] in H. destruct (rest st) as [|c r] eqn:Hr; [discriminate|].
    unfold chrMatch in H. destruct (Ascii.eqb a c) eqn:Hac; [|discriminate].
    apply Ascii.eqb_eq in Hac. subst c.
    apply IH in H. destruct H as [r' H]. cbn in H. exists r'. rewrite H. reflexivity.
Qed.

Lemma run_words (ws : list string) (st : Pos) (k : Pos → option Pos) :
  is_Some (run false (words ws) st k) ↔
  ∃ w, In w ws ∧ is_Some (run false (Lit w) st k).
Proof.
  unfold words. induction ws as [|a ws IH].
  - cbn. split.
    + destruct (rest st); intros [x Hx]; discriminate.
    + intros [w [[] _]].
  - destruct ws as [|b ws].
    + cbn [map alts]. split.
      * intros H. exists a. split; [left; reflexivity | exact H].
      * intros [w [[<-|[]] H]]. exact H.
    + change (alts (map Lit (a :: b :: ws))) with (Alt (Lit a) (alts (map Lit (b :: ws)))).
      cbn [run]. split.
      * destruct (literal false (list_ascii_of_string a) st k) eqn:Ha.
        -- intros _. exists a. split; [left; reflexivity|]. cbn [run]. rewrite Ha. eauto.
        -- intros H. apply IH in H. destruct H as [w [Hin H]].
           exists w. split; [right; exact Hin | exact H].
      * intros [w [[<-|Hin] H]].
        -- cbn [run] in H. destruct H as [e He]. rewrite He. eauto.
        -- destruct (literal false (list_ascii_of_string a) st k); [eauto|].
           apply IH. exists w. split; assumption.
Qed.

Lemma search_spec (r : Re) :
  ∀ s prev i,
    is_Some (search false r prev s i) ↔
    ∃ s1 s2, s = s1 ++ s2 ∧
      is_Some (run false r {| before := from_option Some prev (last s1); rest := s2;
                              index := i + length s1; groups := [] |} Some).
Proof.
  induction s as [|c s IH]; intros prev i.
  - cbn [search]. split.
    + destruct (run false r _ Some) eqn:Hr; [|intros [x Hx]; discriminate].
      intros _. exists [], []. split; [reflexivity|]. cbn. rewrite Nat.add_0_r, Hr. eauto.
    + intros (s1 & s2 & Hs & H). symmetry in Hs. apply app_eq_nil in Hs. destruct Hs; subst.
      cbn in H. rewrite Nat.add_0_r in H. destruct H as [e He]. rewrite He. eauto.
  - cbn [search]. split.
    + destruct (run false r _ Some) eqn:Hr.
      * intros _. exists [], (c :: s). split; [reflexivity|]. cbn. rewrite Nat.add_0_r, Hr. eauto.
      * intros H. apply IH in H. destruct H as (s1 & s2 & -> & H).
        exists (c :: s1), s2. split; [reflexivity|].
        rewrite last_cons. cbn [length]. replace (i + S (length s1))%nat with (S i + length s1)%nat by lia.
        destruct (last s1); exact H.
    + intros (s1 & s2 & Hs & H). destruct s1 as [|c' s1].
      * cbn in Hs. subst s2. cbn in H. rewrite Nat.add_0_r in H. destruct H as [e He].
        rewrite He. eauto.
      * injection Hs as <- ->.
        destruct (run false r {| before := prev; rest := c :: s1 ++ s2; index := i;
                                 groups := [] |} Some) eqn:Hr0; [eauto|].
        apply IH. exists s1, s2. split; [reflexivity|].
        rewrite last_cons in H. cbn [length] in H.
        replace (i + S (length s1))%nat with (S i + length s1)%nat in H by lia.
        destruct (last s1); exact H.
Qed.

Lemma chars_append (a b : string) :
  list_ascii_of_string (a +:+ b) = list_ascii_of_string a ++ list_ascii_of_string b.
Proof.
  induction a as [|c a IH]; [reflexivity|].
  change (list_ascii_of_string (String c a +:+ b))
    with (c :: list_ascii_of_string (a +:+ b)).
  rewrite IH. reflexivity.
Qed.

Lemma plainWord_chars (w : string) :
  plainWord w = true →
  ∃ c l, list_ascii_of_string w = c :: l ∧ Text.isWordChar c = true ∧
         isWord (last (c :: l)) = true.
Proof.
  unfold plainWord. intros H. apply andb_true_iff in H. destruct H as [Hne Hall].
  destruct w as [|c w]; [discriminate|]. cbn in *.
  apply andb_true_iff in Hall. destruct Hall as [Hc Hall].
  exists c, (list_ascii_of_string w). repeat split; [exact Hc|].
  rewrite last_cons. destruct (last (list_ascii_of_string w)) as [d|] eqn:Hl; cbn; [|exact Hc].
  rewrite forallb_forall in Hall. apply Hall. apply list_elem_of_In.
  apply last_Some_elem_of. exact Hl.
Qed.

Lemma moved_word (c : ascii) (l : list ascii) (b : option ascii) :
  isWord (last (c :: l)) = true →
  isWord (from_option Some b (last (c :: l))) = true.
Proof.
  intros H. destruct (last (c :: l)) eqn:Hl; [exact H|].
  rewrite last_cons in Hl. destruct (last l); discriminate.
Qed.

(** The pattern [\b(w1|w2|...)\b] matches at a position exactly when one of
    the words stands there between two boundaries. *)
Lemma run_wholeWord (ws : list string) (st : Pos) :
  Forall (fun w => plainWord w = true) ws →
  is_Some (run false (wholeWord ws) st Some) ↔
  isWord (before st) = false ∧
  ∃ w r, In w ws ∧ rest st = list_ascii_of_string w ++ r ∧ isWord (head r) = false.
Proof.
  intros Hplain. unfold wholeWord.
  change (seqs [WordBoundary; Group 1 (words ws); WordBoundary])
    with (Seq WordBoundary (Seq (Group 1 (words ws)) WordBoundary)).
  cbn [run]. split.
  - destruct (xorb _ _) eqn:Hb; [|intros [x Hx]; discriminate].
    intros H. apply run_words in H. destruct H as [w [Hin H]].
    pose proof (proj1 (List.Forall_forall _ _) Hplain w Hin) as Hw.
    apply plainWord_chars in Hw. destruct Hw as (c & l & Hcl & Hc & Hlast).
    cbn [run] in H. destruct H as [e He].
    destruct (literal_some _ _ _ _ He) as [r Hr].
    rewrite (literal_prefix _ _ _ r Hr) in He.
    rewrite Hr, Hcl in Hb. cbn in Hb. rewrite Hc in Hb.
    split; [destruct (isWord (before st)); [discriminate|reflexivity]|].
    exists w, r. split; [exact Hin|]. split; [exact Hr|].
    unfold capture, moved in He. cbn in He. rewrite Hcl in He.
    rewrite (moved_word _ _ (before st) Hlast) in He.
    destruct (isWord (head r)); [discriminate|reflexivity].
  - intros [Hbefore (w & r & Hin & Hr & Hafter)].
    pose proof (proj1 (List.Forall_forall _ _) Hplain w Hin) as Hw.
    apply plainWord_chars in Hw. destruct Hw as (c & l & Hcl & Hc & Hlast).
    assert (Hb : xorb (isWord (before st)) (isWord (head (rest st))) = true).
    { rewrite Hr, Hcl. cbn. rewrite Hbefore, Hc. reflexivity. }
    rewrite Hb. apply run_words. exists w. split; [exact Hin|].
    cbn [run]. rewrite (literal_prefix _ _ _ r Hr).
    unfold capture, moved. cbn.
    rewrite Hcl, (moved_word _ _ (before st) Hlast), Hafter. cbn. eauto.
Qed.

Lemma present_is_Some {A} (o : option A) : present o = true ↔ is_Some o.
Proof.
  destruct o; cbn; split; intros H; eauto; try discriminate.
  destruct H as [x Hx]; discriminate.
Qed.

Theorem test_wholeWord (ws : list string) (text : string) :
  Forall (fun w => plainWord w = true) ws →
  test false (wholeWord ws) text = true ↔ mentions ws text.
Proof.
  intros Hplain. unfold test, exec. rewrite present_is_Some, search_spec. split.
  - intros (s1 & s2 & Hs & H). apply (run_wholeWord ws _ Hplain) in H.
    cbn in H. destruct H as [Hbefore (w & r & Hin & Hr & Hafter)].
    exists w, (string_of_list_ascii s1), (string_of_list_ascii r).
    split; [exact Hin|]. split; [|split].
    + rewrite <- (string_of_list_ascii_of_string text), Hs, Hr.
      rewrite <- (string_of_list_ascii_of_string (_ +:+ _)).
      rewrite !chars_append, !list_ascii_of_string_of_list_ascii. reflexivity.
    + unfold lastOf. rewrite list_ascii_of_string_of_list_ascii.
      destruct (last s1); exact Hbefore.
    + unfold firstOf. rewrite list_ascii_of_string_of_list_ascii. exact Hafter.
  - intros (w & pre & post & Hin & Htext & Hpre & Hpost).
    exists (list_ascii_of_string pre), (list_ascii_of_string (w +:+ post)).
    split; [rewrite Htext, chars_append; reflexivity|].
    apply (run_wholeWord ws _ Hplain). cbn. split.
    + unfold lastOf in Hpre. destruct (last (list_ascii_of_string pre)); exact Hpre.
    + exists w, (list_ascii_of_string post). split; [exact Hin|].
      split; [apply chars_append | exact Hpost].
Qed.


End RegexFacts.

(** ** Intent extractor and alignment *)

Module IntentFacts.
Import Regex Intent Compiler RegexFacts.

Lemma wordLists_plain :
  Forall (fun w => plainWord w = true) deleteWords ∧
  Forall (fun w => plainWord w = true) createWords ∧
  Forall (fun w => plainWord w = true) modifyWords ∧
  Forall (fun w => plainWord w = true) changeWords.
Proof. repeat split; repeat constructor. Qed.

Lemma sawDelete_mentions (text : string) :
  sawDelete text = true ↔ mentions deleteWords text.
Proof. apply test_wholeWord, wordLists_plain. Qed.

Lemma sawCreate_mentions (text : string) :
  sawCreate text = true ↔ mentions createWords text.
Proof. apply test_wholeWord, wordLists_plain. Qed.

Lemma sawModify_mentions (text : string) :
  sawModify text = true ↔ mentions modifyWords text.
Proof. apply test_wholeWord, wordLists_plain. Qed.

Lemma sawChange_mentions (text : string) :
  sawChange text = true ↔ mentions changeWords text.
Proof. apply test_wholeWord, wordLists_plain. Qed.

Lemma not_mentions (b : bool) (P : Prop) : (b = true ↔ P) → ¬ P → b = false.
Proof. intros H Hn. destruct b; [exfalso; apply Hn, H; reflexivity | reflexivity]. Qed.


(** C7. If the intent of the condition has both a count and a window,
    the aligned rule is a threshold rule with exactly these values,
    whatever the model gave; if the intent lacks one of them and the model
    gave a threshold rule, the aligned rule is a pattern rule without
    count and window. *)
Theorem C7_alignment_of_threshold (condition : string) (rule : CompiledRule) :
  let intent := extractIntent condition in
  let aligned := alignRuleToIntent condition rule in
  (∀ n s, i_count intent = Some n → i_windowSeconds intent = Some s →
     c_type aligned = "threshold" ∧ c_count aligned = Some n ∧
     c_windowSeconds aligned = Some s) ∧
  (i_count intent = None ∨ i_windowSeconds intent = None →
   c_type rule = "threshold" →
     c_type aligned = "pattern" ∧ c_count aligned = None ∧
     c_windowSeconds aligned = None).
Proof.
  intros intent aligned. subst aligned. unfold alignRuleToIntent. fold intent.
  split.
  - intros n s Hn Hs. rewrite Hn, Hs. cbn. auto.
  - intros Hnone Htype.
    assert (Hreq : present (i_count intent) && present (i_windowSeconds intent) = false).
    { destruct Hnone as [-> | ->]; [reflexivity | apply andb_false_r]. }
    rewrite Hreq, Htype. cbn. auto.
Qed.

Lemma C7_witness :
  (c_type (alignRuleToIntent burstCondition modelPattern) = "threshold" ∧
   c_count (alignRuleToIntent burstCondition modelPattern) = Some 3 ∧
   c_windowSeconds (alignRuleToIntent burstCondition modelPattern) = Some 300) ∧
  (c_type (alignRuleToIntent "Alert when files in src are deleted" modelThreshold) = "pattern" ∧
   c_count (alignRuleToIntent "Alert when files in src are deleted" modelThreshold) = None ∧
   c_windowSeconds (alignRuleToIntent "Alert when files in src are deleted" modelThreshold) = None).
Proof.
  split.
  - apply (proj1 (C7_alignment_of_threshold burstCondition modelPattern) 3 300);
      vm_compute; reflexivity.
  - apply (proj2 (C7_alignment_of_threshold "Alert when files in src are deleted" modelThreshold)).
    + left. vm_compute. reflexivity.
    + reflexivity.
Defined.

(** C4. The intent of "If 3 or more files under __tests__/ are changed
    within 5 minutes" has count 3, window 300 seconds and the path
    fragment [__tests__/]. *)
Theorem C4_extractIntent_example :
  let intent := extractIntent "If 3 or more files under __tests__/ are changed within 5 minutes" in
  i_count intent = Some 3 ∧ i_windowSeconds intent = Some 300 ∧
  In "__tests__/" (i_pathIncludes intent).
Proof. vm_compute. repeat split. left. reflexivity. Qed.

Lemma filter_sublist {A} (p : A → bool) (l : list A) : sublist (List.filter p l) l.
Proof.
  induction l as [|x l IH]; cbn; [constructor|].
  destruct (p x); [apply sublist_skip | apply sublist_cons]; exact IH.
Qed.


(** C3. A condition that mentions a change word and no delete, create or
    modify word yields [created; modified]; one that mentions a change
    word and a delete word, and no create or modify word, yields
    [modified; deleted]; and every condition yields event types in the
    canonical order.  Words are looked for in the lower-cased text. *)
Theorem C3_eventTypes (condition : string) :
  let text := Text.toLowerCase condition in
  let intent := extractIntent condition in
  (mentions changeWords text → ¬ mentions deleteWords text →
   ¬ mentions createWords text → ¬ mentions modifyWords text →
   i_eventTypes intent = ["created"; "modified"]) ∧
  (mentions changeWords text → mentions deleteWords text →
   ¬ mentions createWords text → ¬ mentions modifyWords text →
   i_eventTypes intent = ["modified"; "deleted"]) ∧
  canonicalOrder (i_eventTypes intent).
Proof.
  intros text intent. subst intent. unfold extractIntent. fold text. cbn [i_eventTypes].
  split; [|split].
  - intros Hch Hde Hcr Hmo.
    apply sawChange_mentions in Hch.
    apply (not_mentions _ _ (sawDelete_mentions text)) in Hde.
    apply (not_mentions _ _ (sawCreate_mentions text)) in Hcr.
    apply (not_mentions _ _ (sawModify_mentions text)) in Hmo.
    rewrite Hch, Hde, Hcr, Hmo. reflexivity.
  - intros Hch Hde Hcr Hmo.
    apply sawChange_mentions in Hch. apply sawDelete_mentions in Hde.
    apply (not_mentions _ _ (sawCreate_mentions text)) in Hcr.
    apply (not_mentions _ _ (sawModify_mentions text)) in Hmo.
    rewrite Hch, Hde, Hcr, Hmo. reflexivity.
  - apply filter_sublist.
Qed.

Lemma C3_witness :
  i_eventTypes (extractIntent "Alert when TypeScript files change") = ["created"; "modified"] ∧
  i_eventTypes (extractIntent "Tell me when files are deleted or CHANGED in docs")
    = ["modified"; "deleted"].
Proof.
  split.
  - apply (proj1 (C3_eventTypes "Alert when TypeScript files change")).
    + apply sawChange_mentions. vm_compute. reflexivity.
    + intros H. apply sawDelete_mentions in H. vm_compute in H. discriminate.
    + intros H. apply sawCreate_mentions in H. vm_compute in H. discriminate.
    + intros H. apply sawModify_mentions in H. vm_compute in H. discriminate.
  - apply (proj1 (proj2 (C3_eventTypes "Tell me when files are deleted or CHANGED in docs"))).
    + apply sawChange_mentions. vm_compute. reflexivity.
    + apply sawDelete_mentions. vm_compute. reflexivity.
    + intros H. apply sawCreate_mentions in H. vm_compute in H. discriminate.
    + intros H. apply sawModify_mentions in H. vm_compute in H. discriminate.
Defined.

End IntentFacts.


(** ** Rule store: updates *)

Lemma applyUpdates_sameSemantics (updates : RuleUpdates) (r : Rule) :
  sameSemantics r (applyUpdates updates r).
Proof. unfold sameSemantics, applyUpdates; cbn. repeat split. Qed.

Lemma sameSemantics_refl (r : Rule) : sameSemantics r r.
Proof. unfold sameSemantics. repeat split. Qed.

Lemma updateFirst_Forall2 {A} (R : A → A → Prop) (p : A → bool) (f : A → A) (l : list A) :
  (∀ x, R x x) → (∀ x, R x (f x)) → Forall2 R l (updateFirst p f l).
Proof.
  intros Hrefl Hf. induction l as [|x l IH]; cbn.
  - constructor.
  - destruct (p x).
    + constructor; [apply Hf | apply Forall2_same_length_lookup_2; [reflexivity|]].
      intros i a b Ha Hb. rewrite Ha in Hb. injection Hb as <-. apply Hrefl.
    + constructor; [apply Hrefl | exact IH].
Qed.

Lemma save_rules (env : Setup) (w : World) :
  data_rules (snd (save env w)) = data_rules w.
Proof.
  unfold save. destruct (ioOk env (saves w)); [reflexivity|].
  destruct (failedSave env (saves w)); reflexivity.
Qed.

Lemma save_engine (env : Setup) (w : World) :
  let w' := snd (save env w) in
  stats w' = stats w ∧ recentMatches w' = recentMatches w ∧
  thresholdWindows w' = thresholdWindows w ∧ ticks w' = S (ticks w).
Proof.
  unfold save. destruct (ioOk env (saves w)); [cbn; auto|].
  destruct (failedSave env (saves w)); cbn; auto.
Qed.

(** C8. [updateRule] leaves the type, match filter, window, count, id,
    creation time, source, original condition, match count and last match
    time of every stored rule as they were, whether the save succeeds or
    throws; keys of [updates] other than [name], [description] and
    [enabled] have no effect at all. *)
Theorem C8_updateRule_frame (env : Setup) (id : string) (updates : RuleUpdates) (w : World) :
  Forall2 sameSemantics (data_rules w) (data_rules (snd (updateRule env id updates w))) ∧
  updateRule env id updates w =
    updateRule env id
      {| u_id := None; u_name := u_name updates; u_description := u_description updates;
         u_enabled := u_enabled updates; u_createdAt := None; u_lastMatched := None;
         u_matchCount := None; u_type := None; u_match := None; u_source := None;
         u_originalCondition := None; u_windowSeconds := None; u_count := None |} w.
Proof.
  split; [|reflexivity].
  unfold updateRule, bind, get, modify, ret.
  destruct (existsb (hasId id) (data_rules w)); cbn.
  - assert (H : Forall2 sameSemantics (data_rules w)
                  (updateFirst (hasId id) (applyUpdates updates) (data_rules w))).
    { apply updateFirst_Forall2;
        [apply sameSemantics_refl | apply applyUpdates_sameSemantics]. }
    destruct (present (u_name updates) || present (u_description updates)
              || present (u_enabled updates)); cbn; [|exact H].
    match goal with |- context [save env ?w0] =>
      pose proof (save_rules env w0) as Hs; destruct (save env w0) as [[[]|] w1] end;
      cbn in *; rewrite Hs; exact H.
  - apply Forall2_same_length_lookup_2; [reflexivity|].
    intros i a b Ha Hb. rewrite Ha in Hb. injection Hb as <-. apply sameSemantics_refl.
Qed.


(** ** Rule store: signatures *)

Lemma has_In (s : list string) (x : string) : JsSet.has s x = true ↔ In x s.
Proof.
  unfold JsSet.has, Text.arrayIncludes. rewrite existsb_exists. split.
  - intros [y [Hin Heq]]. apply String.eqb_eq in Heq. subst. exact Hin.
  - intros Hin. exists x. split; [exact Hin | apply String.eqb_refl].
Qed.

Lemma add_In (x y : string) (s : list string) :
  In x (JsSet.add y s) ↔ x = y ∨ In x s.
Proof.
  unfold JsSet.add. destruct (JsSet.has s y) eqn:H.
  - apply has_In in H. split; [auto | intros [->|Hin]; auto].
  - rewrite in_app_iff. cbn. intuition.
Qed.

Lemma add_NoDup (y : string) (s : list string) :
  List.NoDup s → List.NoDup (JsSet.add y s).
Proof.
  intros Hs. unfold JsSet.add. destruct (JsSet.has s y) eqn:H; [exact Hs|].
  apply NoDup_ListNoDup. apply NoDup_app. repeat split.
  - apply NoDup_ListNoDup. exact Hs.
  - intros x Hx Hy. apply list_elem_of_In in Hx. apply list_elem_of_In in Hy.
    destruct Hy as [<-|[]]. apply has_In in Hx. congruence.
  - apply NoDup_singleton.
Qed.

Lemma addAll_In (xs s : list string) (x : string) :
  In x (JsSet.addAll xs s) ↔ In x xs ∨ In x s.
Proof.
  unfold JsSet.addAll. revert s. induction xs as [|y xs IH]; intros s; cbn.
  - intuition.
  - rewrite IH, add_In. intuition.
Qed.

Lemma addAll_NoDup (xs s : list string) :
  List.NoDup s → List.NoDup (JsSet.addAll xs s).
Proof.
  unfold JsSet.addAll. revert s. induction xs as [|y xs IH]; intros s Hs; cbn.
  - exact Hs.
  - apply IH, add_NoDup, Hs.
Qed.

Lemma fromList_In (xs : list string) (x : string) :
  In x (JsSet.fromList xs) ↔ In x xs.
Proof. unfold JsSet.fromList. rewrite addAll_In. cbn. intuition. Qed.

Lemma fromList_NoDup (xs : list string) : List.NoDup (JsSet.fromList xs).
Proof. apply addAll_NoDup. constructor. Qed.

Section Sorting.

Variable cmp : string → string → comparison.
Hypothesis collation : Collation cmp.

Lemma notAfter_trans : Transitive (notAfter cmp).
Proof.
  intros a b c Hab Hbc. unfold notAfter in *.
  destruct (cmp a b) eqn:E1; [| |congruence].
  - apply (collation_eq _ collation) in E1. subst. exact Hbc.
  - destruct (cmp b c) eqn:E2; [| |congruence].
    + apply (collation_eq _ collation) in E2. subst. rewrite E1. discriminate.
    + rewrite (collation_trans _ collation a b c E1 E2). discriminate.
Qed.

Lemma notAfter_antisym (a b : string) :
  notAfter cmp a b → notAfter cmp b a → a = b.
Proof.
  unfold notAfter. intros Hab Hba. rewrite (collation_opp _ collation a b) in Hba.
  destruct (cmp a b) eqn:E; cbn in Hba; try congruence.
  apply (collation_eq _ collation). exact E.
Qed.

Lemma insertSorted_perm (x : string) (l : list string) :
  insertSorted cmp x l ≡ₚ x :: l.
Proof.
  induction l as [|y l IH]; cbn; [reflexivity|].
  destruct (cmp x y); try reflexivity.
  rewrite IH. apply Permutation_swap.
Qed.

Lemma sortStrings_perm (l : list string) : sortStrings cmp l ≡ₚ l.
Proof.
  induction l as [|x l IH]; cbn; [reflexivity|].
  rewrite insertSorted_perm, IH. reflexivity.
Qed.

Lemma insertSorted_sorted (x : string) (l : list string) :
  Sorted (notAfter cmp) l → Sorted (notAfter cmp) (insertSorted cmp x l).
Proof.
  induction l as [|y l IH]; intros Hs; cbn.
  - repeat constructor.
  - destruct (cmp x y) eqn:E.
    + constructor; [exact Hs | constructor; unfold notAfter; congruence].
    + constructor; [exact Hs | constructor; unfold notAfter; congruence].
    + inversion Hs as [|? ? Hl Hhd]; subst. constructor; [apply IH, Hl|].
      assert (Hyx : notAfter cmp y x).
      { unfold notAfter. rewrite (collation_opp _ collation x y), E. discriminate. }
      destruct l as [|z l]; cbn.
      * constructor. exact Hyx.
      * destruct (cmp x z); constructor; try exact Hyx.
        inversion Hhd; subst. assumption.
Qed.

Lemma sortStrings_sorted (l : list string) : Sorted (notAfter cmp) (sortStrings cmp l).
Proof.
  induction l as [|x l IH]; cbn; [constructor | apply insertSorted_sorted, IH].
Qed.

(** Sorting the set of entries forgets how the entries were listed. *)
Lemma sort_set_canonical (l1 l2 : list string) :
  (∀ x, In x l1 ↔ In x l2) →
  sortStrings cmp (JsSet.fromList l1) = sortStrings cmp (JsSet.fromList l2).
Proof.
  intros Hsame.
  apply (@Sorted_unique_strong _ (notAfter cmp) notAfter_trans).
  - intros x1 x2 _ _. apply notAfter_antisym.
  - apply sortStrings_sorted.
  - apply sortStrings_sorted.
  - rewrite !sortStrings_perm. apply NoDup_Permutation.
    + apply NoDup_ListNoDup, fromList_NoDup.
    + apply NoDup_ListNoDup, fromList_NoDup.
    + intros x. rewrite !list_elem_of_In, !fromList_In. apply Hsame.
Qed.

Lemma normalizeArray_unfold (a : option (list string)) :
  normalizeArray cmp a =
  match normalizedEntries a with
  | [] => None
  | _ => Some (sortStrings cmp (JsSet.fromList (normalizedEntries a)))
  end.
Proof. destruct a as [vs|]; reflexivity. Qed.

Lemma normalizeArray_sameEntries (a b : option (list string)) :
  sameEntries a b → normalizeArray cmp a = normalizeArray cmp b.
Proof.
  intros Hsame.
  assert (Hnorm : ∀ x, In x (normalizedEntries a) ↔ In x (normalizedEntries b)).
  { intros x. unfold normalizedEntries. rewrite !filter_In, (Hsame x). reflexivity. }
  rewrite !normalizeArray_unfold.
  destruct (normalizedEntries a) as [|x la] eqn:Ea;
    destruct (normalizedEntries b) as [|y lb] eqn:Eb.
  - reflexivity.
  - exfalso. apply (proj2 (Hnorm y)). left. reflexivity.
  - exfalso. apply (proj1 (Hnorm x)). left. reflexivity.
  - f_equal. apply sort_set_canonical. exact Hnorm.
Qed.

Lemma signature_variant (X Y : CompiledRule) :
  variantOf X Y →
  ruleSignatureFromCompiled cmp X = ruleSignatureFromCompiled cmp Y.
Proof.
  intros (Ht & Hw & Hc & Hpi & Hpe & Hex & Hev).
  unfold ruleSignatureFromCompiled, signatureObject.
  rewrite Ht, Hw, Hc,
    (normalizeArray_sameEntries _ _ Hpi), (normalizeArray_sameEntries _ _ Hpe),
    (normalizeArray_sameEntries _ _ Hex), (normalizeArray_sameEntries _ _ Hev).
  reflexivity.
Qed.


End Sorting.


Lemma codeUnitOrder_collation : Collation codeUnitOrder.
Proof.
  unfold codeUnitOrder. split.
  - intros a b H. destruct (String_as_OT.compare_spec a b); congruence.
  - intros a b.
    destruct (String_as_OT.compare_spec a b) as [Heq|Hlt|Hgt];
      destruct (String_as_OT.compare_spec b a) as [Heq'|Hlt'|Hgt']; cbn; try reflexivity;
      try (unfold String_as_OT.eq in *; subst);
      try (exfalso; eapply (StrictOrder_Irreflexive (R := String_as_OT.lt)); eassumption);
      exfalso; eapply (StrictOrder_Irreflexive (R := String_as_OT.lt));
      eapply (StrictOrder_Transitive (R := String_as_OT.lt)); eassumption.
  - intros a b c Hab Hbc.
    exact (StrictOrder_Transitive (R := String_as_OT.lt) a b c Hab Hbc).
Qed.





(** ** Rule store: the save queue *)

Module SaveQueueFacts.
Import SaveQueue.


Lemma steps_app (l1 l2 : list Label) (s : State) :
  steps (l1 ++ l2) s =
  match steps l1 s with
  | Some s' => steps l2 s'
  | None => None
  end.
Proof.
  revert s. induction l1 as [|l l1 IH]; intros s; cbn; [reflexivity|].
  destruct (step l s); [apply IH | reflexivity].
Qed.

Lemma ordered_snoc_queued (js : list Job) : ordered js → ordered (js ++ [Queued]).
Proof.
  intros H i j Ji Jj Hij Hi Hj Hs.
  assert (Hjlt : (j < length (js ++ [Queued]))%nat) by (eapply lookup_lt_Some; eauto).
  rewrite length_app in Hjlt. cbn in Hjlt.
  destruct (decide (j = length js)) as [->|Hne].
  - rewrite lookup_app_r, Nat.sub_diag in Hj by lia. cbn in Hj.
    injection Hj as <-. discriminate.
  - rewrite lookup_app_l in Hj by lia. rewrite lookup_app_l in Hi by lia.
    exact (H i j Ji Jj Hij Hi Hj Hs).
Qed.

(** Replacing a job that was not settled by one that has started keeps the
    order when every job before it is settled. *)
Lemma ordered_insert (js : list Job) (k : nat) (J J' : Job) :
  ordered js → js !! k = Some J → settled J = false → started J' = true →
  (∀ i Ji, (i < k)%nat → js !! i = Some Ji → settled Ji = true) →
  ordered (<[k := J']> js).
Proof.
  intros H Hk Hns Hst Hbefore i j Ji Jj Hij Hi Hj Hs.
  destruct (decide (j = k)) as [->|Hjk].
  - rewrite list_lookup_insert_ne in Hi by lia. exact (Hbefore i Ji Hij Hi).
  - rewrite list_lookup_insert_ne in Hj by lia.
    destruct (decide (i = k)) as [->|Hik].
    + pose proof (H k j J Jj Hij Hk Hj Hs). congruence.
    + rewrite list_lookup_insert_ne in Hi by lia. exact (H i j Ji Jj Hij Hi Hj Hs).
Qed.

Lemma started_before_settled (js : list Job) (k : nat) (J : Job) :
  ordered js → js !! k = Some J → started J = true →
  ∀ i Ji, (i < k)%nat → js !! i = Some Ji → settled Ji = true.
Proof. intros H Hk Hs i Ji Hi Hji. exact (H i k Ji J Hi Hji Hk Hs). Qed.

Lemma previous_all_settled (js : list Job) (k : nat) :
  ordered js → previousSettled js k = true →
  ∀ i Ji, (i < k)%nat → js !! i = Some Ji → settled Ji = true.
Proof.
  intros H Hp i Ji Hi Hji. destruct k as [|k]; [lia|]. cbn in Hp.
  destruct (js !! k) as [Jk|] eqn:Hk; [|discriminate].
  destruct (decide (i = k)) as [->|Hne]; [congruence|].
  apply (H i k Ji Jk); [lia | exact Hji | exact Hk |].
  destruct Jk; cbn in *; congruence.
Qed.

Lemma sorted_snoc (l : list nat) (k : nat) :
  StronglySorted lt l → (∀ i, In i l → (i < k)%nat) → StronglySorted lt (l ++ [k]).
Proof.
  induction 1 as [|x l Hl IH Hx]; intros Hk; cbn.
  - repeat constructor.
  - constructor.
    + apply IH. intros i Hi. apply Hk. right. exact Hi.
    + apply Forall_app. split; [exact Hx|]. repeat constructor. apply Hk. left. reflexivity.
Qed.

(** A save that is about to put its document at [dbPath] comes after all
    the saves that already did. *)
Lemma written_before (s : State) (k : nat) (J : Job) :
  invariant s → jobs s !! k = Some J → started J = true → pastWrite J = false →
  ∀ i, In i (map fst (written s)) → (i < k)%nat.
Proof.
  intros (Hord & Hpast & _ & _ & _) Hk Hst Hnp i Hi.
  apply in_map_iff in Hi. destruct Hi as ([i' d] & <- & Hin). cbn.
  destruct (Hpast i' d Hin) as (Ji & Hji & Hpi).
  destruct (Nat.lt_trichotomy i' k) as [Hlt|[->|Hgt]]; [exact Hlt | congruence |].
  assert (settled J = true).
  { apply (Hord k i' J Ji Hgt Hk Hji). destruct Ji; cbn in *; congruence. }
  destruct J as [|[] ?| |]; cbn in *; congruence.
Qed.

Lemma sorted_snoc_le (l : list nat) (k : nat) :
  StronglySorted le l → (∀ i, In i l → (i ≤ k)%nat) → StronglySorted le (l ++ [k]).
Proof.
  induction 1 as [|x l Hl IH Hx]; intros Hk; cbn.
  - repeat constructor.
  - constructor.
    + apply IH. intros i Hi. apply Hk. right. exact Hi.
    + apply Forall_app. split; [exact Hx|]. repeat constructor. apply Hk. left. reflexivity.
Qed.

(** The file operations logged so far belong to the running save or to
    saves submitted before it. *)
Lemma ops_before (s : State) (k : nat) (p : Phase) (d : Doc) :
  invariant s → jobs s !! k = Some (Running p d) →
  ∀ i, In i (map fst (ops s)) → (i ≤ k)%nat.
Proof.
  intros (Hord & _ & _ & Hops & _) Hk i Hi.
  apply in_map_iff in Hi. destruct Hi as ([i' q] & <- & Hin). cbn.
  destruct (Hops i' q Hin) as (Ji & Hji & Hsi).
  destruct (Nat.le_gt_cases i' k) as [Hle|Hgt]; [exact Hle|].
  pose proof (Hord k i' _ Ji Hgt Hk Hji Hsi) as Hset. discriminate.
Qed.

Lemma continue_started (p : Phase) (d : Doc) (o : Outcome) :
  started (continue p d o) = true.
Proof. destruct p, o as [|[]]; reflexivity. Qed.

Lemma continue_pastWrite (p : Phase) (d : Doc) (o : Outcome) :
  pastWrite (Running p d) = true ∨ putsDocument p o = true →
  pastWrite (continue p d o) = true.
Proof. destruct p, o as [|[]]; cbn; intros [H|H]; congruence. Qed.

Lemma putsDocument_not_past (p : Phase) (d : Doc) (o : Outcome) :
  putsDocument p o = true → pastWrite (Running p d) = false.
Proof. destruct p, o as [|[]]; cbn; congruence. Qed.

(** A file operation of the running save keeps the invariant. *)
Lemma io_invariant (s : State) (k : nat) (p : Phase) (d : Doc) (o : Outcome) :
  invariant s → jobs s !! k = Some (Running p d) →
  invariant (setJob k (continue p d o)
               (if putsDocument p o then putTarget k d (logOp k p s) else logOp k p s)).
Proof.
  intros Hinv Hk. pose proof Hinv as (Hord & Hpast & Hsorted & Hops & Hopsorted).
  assert (Hlt : (k < length (jobs s))%nat) by (eapply lookup_lt_Some; eauto).
  assert (Hjobs : jobs (if putsDocument p o then putTarget k d (logOp k p s)
                        else logOp k p s) = jobs s)
    by (destruct (putsDocument p o); reflexivity).
  assert (Hopslog : ops (if putsDocument p o then putTarget k d (logOp k p s)
                         else logOp k p s) = ops s ++ [(k, p)])
    by (destruct (putsDocument p o); reflexivity).
  unfold invariant. cbn [jobs written ops setJob]. rewrite Hjobs, Hopslog.
  split; [|split; [|split; [|split]]].
  - apply (ordered_insert (jobs s) k (Running p d) _ Hord Hk eq_refl
             (continue_started p d o)).
    exact (started_before_settled _ _ _ Hord Hk eq_refl).
  - intros i d' Hin.
    assert (Hcases : In (i, d') (written s) ∨ (putsDocument p o = true ∧ i = k)).
    { destruct (putsDocument p o); cbn in Hin; [|left; exact Hin].
      apply in_app_iff in Hin. destruct Hin as [Hin|[Heq|[]]]; [left; exact Hin|].
      right. injection Heq as <- _. auto. }
    destruct Hcases as [Hin'|[Hput ->]].
    + destruct (Hpast i d' Hin') as (Ji & Hji & Hpi).
      destruct (decide (i = k)) as [->|Hne].
      * exists (continue p d o). split; [apply list_lookup_insert_eq; exact Hlt|].
        apply continue_pastWrite. left. congruence.
      * exists Ji. rewrite list_lookup_insert_ne by congruence. auto.
    + exists (continue p d o). split; [apply list_lookup_insert_eq; exact Hlt|].
      apply continue_pastWrite. right. exact Hput.
  - destruct (putsDocument p o) eqn:Hput; cbn; [|exact Hsorted].
    rewrite map_app. cbn. apply sorted_snoc; [exact Hsorted|].
    apply (written_before s k (Running p d) Hinv Hk eq_refl).
    exact (putsDocument_not_past p d o Hput).
  - intros i q Hin. apply in_app_iff in Hin. destruct Hin as [Hin|[Heq|[]]].
    + destruct (Hops i q Hin) as (Ji & Hji & Hsi).
      destruct (decide (i = k)) as [->|Hne].
      * exists (continue p d o). split; [apply list_lookup_insert_eq; exact Hlt|].
        apply continue_started.
      * exists Ji. rewrite list_lookup_insert_ne by congruence. auto.
    + injection Heq as <- <-. exists (continue p d o).
      split; [apply list_lookup_insert_eq; exact Hlt | apply continue_started].
  - rewrite map_app. cbn. apply sorted_snoc_le; [exact Hopsorted|].
    exact (ops_before s k p d Hinv Hk).
Qed.

Lemma step_invariant (l : Label) (s s' : State) :
  invariant s → step l s = Some s' → invariant s'.
Proof.
  intros Hinv Hstep. pose proof Hinv as (Hord & Hpast & Hsorted & Hops & Hopsorted).
  destruct l as [d| |k|k o]; cbn in Hstep.
  - injection Hstep as <-. exact Hinv.
  - injection Hstep as <-. split; [|split; [|split; [|split]]]; cbn.
    + apply ordered_snoc_queued, Hord.
    + intros i d Hin. destruct (Hpast i d Hin) as (J & HJ & Hp).
      exists J. split; [|exact Hp]. rewrite lookup_app_l; [exact HJ|].
      eapply lookup_lt_Some; eauto.
    + exact Hsorted.
    + intros i p Hin. destruct (Hops i p Hin) as (J & HJ & Hp).
      exists J. split; [|exact Hp]. rewrite lookup_app_l; [exact HJ|].
      eapply lookup_lt_Some; eauto.
    + exact Hopsorted.
  - destruct (jobs s !! k) as [[| | |]|] eqn:Hk; try discriminate.
    destruct (previousSettled (jobs s) k) eqn:Hprev; [|discriminate].
    injection Hstep as <-. split; [|split; [|split; [|split]]]; cbn.
    + apply (ordered_insert (jobs s) k Queued (Running Writing (data s)) Hord Hk eq_refl eq_refl).
      exact (previous_all_settled _ _ Hord Hprev).
    + intros i d Hin. destruct (Hpast i d Hin) as (J & HJ & Hp).
      destruct (decide (i = k)) as [->|Hne]; [rewrite Hk in HJ; injection HJ as <-; discriminate|].
      exists J. rewrite list_lookup_insert_ne by congruence. auto.
    + exact Hsorted.
    + intros i p Hin. destruct (Hops i p Hin) as (J & HJ & Hp).
      destruct (decide (i = k)) as [->|Hne]; [rewrite Hk in HJ; injection HJ as <-; discriminate|].
      exists J. rewrite list_lookup_insert_ne by congruence. auto.
    + exact Hopsorted.
  - destruct (jobs s !! k) as [[|p d| |]|] eqn:Hk; try discriminate.
    injection Hstep as <-. apply io_invariant; assumption.
Qed.

Lemma initial_invariant : invariant initial.
Proof.
  split; [|split; [|split; [|split]]]; cbn.
  - intros i j Ji Jj _ Hi. rewrite lookup_nil in Hi. discriminate.
  - intros i d [].
  - constructor.
  - intros i p [].
  - constructor.
Qed.

Lemma steps_invariant (ls : list Label) :
  ∀ s s', invariant s → steps ls s = Some s' → invariant s'.
Proof.
  induction ls as [|l ls IH]; intros s s' Hinv Hsteps; cbn in Hsteps.
  - injection Hsteps as <-. exact Hinv.
  - destruct (step l s) as [s1|] eqn:Hstep; [|discriminate].
    eapply IH; [|eassumption]. eapply step_invariant; eauto.
Qed.

Lemma reachable_invariant (s : State) : reachable s → invariant s.
Proof. intros [ls Hls]. eapply steps_invariant; [apply initial_invariant | exact Hls]. Qed.

Lemma lookup_setJob (s : State) (k : nat) (J : Job) (i : nat) :
  (k < length (jobs s))%nat →
  jobs (setJob k J s) !! i = if decide (i = k) then Some J else jobs s !! i.
Proof.
  intros Hk. cbn. destruct (decide (i = k)) as [->|Hne].
  - apply list_lookup_insert_eq. exact Hk.
  - apply list_lookup_insert_ne. congruence.
Qed.

Lemma fail_step (s : State) (k : nat) (p : Phase) (d : Doc) :
  jobs s !! k = Some (Running p d) →
  ∃ s', step (Io k (Failed false)) s = Some s' ∧
        jobs s' = <[k := continue p d (Failed false)]> (jobs s) ∧ data s' = data s.
Proof.
  intros Hk. cbn. rewrite Hk. eexists. split; [reflexivity|].
  destruct p; cbn; auto.
Qed.

(** A running save whose file operations fail ends rejected. *)
Lemma settle_running (s : State) (k : nat) (p : Phase) (d : Doc) :
  jobs s !! k = Some (Running p d) →
  ∃ ls s', Forall failing ls ∧ steps ls s = Some s' ∧
    jobs s' = <[k := Rejected]> (jobs s) ∧ data s' = data s.
Proof.
  intros Hk.
  assert (Hlt : (k < length (jobs s))%nat) by (eapply lookup_lt_Some; eauto).
  destruct (fail_step s k p d Hk) as (s1 & Hstep1 & Hjobs1 & Hdata1).
  assert (Hc : p = Cleanup ∨ continue p d (Failed false) = Running Cleanup d)
    by (destruct p; auto).
  destruct Hc as [->|Hc].
  - exists [Io k (Failed false)], s1. split; [repeat constructor|].
    split; [cbn [steps]; rewrite Hstep1; reflexivity | auto].
  - assert (Hk1 : jobs s1 !! k = Some (Running Cleanup d)).
    { rewrite Hjobs1, list_lookup_insert_eq by exact Hlt. congruence. }
    destruct (fail_step s1 k Cleanup d Hk1) as (s2 & Hstep2 & Hjobs2 & Hdata2).
    exists [Io k (Failed false); Io k (Failed false)], s2.
    split; [repeat constructor|]. split.
    + cbn [steps]. rewrite Hstep1, Hstep2. reflexivity.
    + split; [|congruence]. rewrite Hjobs2, Hjobs1. apply list_insert_insert_eq.
Qed.

(** Whatever a save is doing, failures bring it to a settled state. *)
Lemma settle_job (s : State) (k : nat) (J : Job) :
  jobs s !! k = Some J →
  (started J = false → previousSettled (jobs s) k = true) →
  ∃ ls s', Forall failing ls ∧ steps ls s = Some s' ∧
    (∃ J', jobs s' !! k = Some J' ∧ settled J' = true) ∧
    (∀ i, i ≠ k → jobs s' !! i = jobs s !! i) ∧
    length (jobs s') = length (jobs s) ∧ data s' = data s.
Proof.
  intros Hk Hprev.
  assert (Hlt : (k < length (jobs s))%nat) by (eapply lookup_lt_Some; eauto).
  destruct J as [|p d| |].
  - set (s0 := setJob k (Running Writing (data s)) s).
    assert (Hstart : step (Start k) s = Some s0)
      by (cbn; rewrite Hk, (Hprev eq_refl); reflexivity).
    assert (Hk0 : jobs s0 !! k = Some (Running Writing (data s)))
      by (apply list_lookup_insert_eq; exact Hlt).
    destruct (settle_running s0 k _ _ Hk0) as (ls & s' & Hfail & Hsteps & Hjobs & Hdata).
    exists (Start k :: ls), s'. split; [constructor; [exact I | exact Hfail]|].
    split; [cbn [steps]; rewrite Hstart; exact Hsteps|].
    rewrite Hjobs. cbn [jobs s0 setJob]. rewrite list_insert_insert_eq.
    split; [exists Rejected; split; [apply list_lookup_insert_eq; exact Hlt | reflexivity]|].
    split; [intros i Hi; apply list_lookup_insert_ne; congruence|].
    split; [apply length_insert | exact Hdata].
  - destruct (settle_running s k p d Hk) as (ls & s' & Hfail & Hsteps & Hjobs & Hdata).
    exists ls, s'. split; [exact Hfail|]. split; [exact Hsteps|]. rewrite Hjobs.
    split; [exists Rejected; split; [apply list_lookup_insert_eq; exact Hlt | reflexivity]|].
    split; [intros i Hi; apply list_lookup_insert_ne; congruence|].
    split; [apply length_insert | exact Hdata].
  - exists [], s. split; [constructor|]. split; [reflexivity|]. eauto 10.
  - exists [], s. split; [constructor|]. split; [reflexivity|]. eauto 10.
Qed.

(** The saves submitted before the k-th can all be brought to a settled
    state, even when every file operation fails. *)
Lemma drain (s : State) :
  ∀ k, (k ≤ length (jobs s))%nat →
  ∃ ls s', Forall failing ls ∧ steps ls s = Some s' ∧
    (∀ i Ji, (i < k)%nat → jobs s' !! i = Some Ji → settled Ji = true) ∧
    (∀ i, (k ≤ i)%nat → jobs s' !! i = jobs s !! i) ∧
    length (jobs s') = length (jobs s) ∧ data s' = data s.
Proof.
  induction k as [|k IH]; intros Hk.
  - exists [], s. split; [constructor|]. split; [reflexivity|].
    split; [intros i Ji Hi; lia | auto].
  - destruct IH as (ls & s1 & Hfail & Hsteps & Hdone & Hrest & Hlen & Hdata); [lia|].
    destruct (lookup_lt_is_Some_2 (jobs s1) k ltac:(lia)) as [J HJ].
    destruct (settle_job s1 k J HJ) as (ls2 & s2 & Hfail2 & Hsteps2 & (J' & HJ' & Hset) & Hoth & Hlen2 & Hdata2).
    { intros _. destruct k as [|k']; [reflexivity|]. cbn.
      destruct (lookup_lt_is_Some_2 (jobs s1) k' ltac:(lia)) as [Jp HJp].
      rewrite HJp. apply (Hdone k' Jp); [lia | exact HJp]. }
    exists (ls ++ ls2), s2. split; [apply Forall_app; auto|].
    split; [rewrite steps_app, Hsteps; exact Hsteps2|].
    split; [|split; [|split]].
    + intros i Ji Hi Hji. destruct (decide (i = k)) as [->|Hne].
      * congruence.
      * rewrite Hoth in Hji by exact Hne. apply (Hdone i Ji); [lia | exact Hji].
    + intros i Hi. rewrite Hoth by lia. apply Hrest. lia.
    + congruence.
    + congruence.
Qed.

(** A queued save starts in the end, whatever happens to the saves before
    it. *)
Lemma queued_save_starts (s : State) (k : nat) :
  jobs s !! k = Some Queued →
  ∃ ls s', Forall failing ls ∧ steps ls s = Some s' ∧
    jobs s' !! k = Some (Running Writing (data s)).
Proof.
  intros Hk.
  assert (Hlt : (k < length (jobs s))%nat) by (eapply lookup_lt_Some; eauto).
  destruct (drain s k ltac:(lia)) as (ls & s1 & Hfail & Hsteps & Hdone & Hrest & Hlen & Hdata).
  assert (Hk1 : jobs s1 !! k = Some Queued) by (rewrite Hrest by lia; exact Hk).
  assert (Hprev : previousSettled (jobs s1) k = true).
  { destruct k as [|k']; [reflexivity|]. cbn.
    destruct (lookup_lt_is_Some_2 (jobs s1) k' ltac:(lia)) as [Jp HJp].
    rewrite HJp. apply (Hdone k' Jp); [lia | exact HJp]. }
  exists (ls ++ [Start k]), (setJob k (Running Writing (data s1)) s1).
  split; [apply Forall_app; split; [exact Hfail | repeat constructor]|].
  split.
  - rewrite steps_app, Hsteps. cbn. rewrite Hk1, Hprev. reflexivity.
  - cbn. rewrite Hdata. apply list_lookup_insert_eq. lia.
Qed.

(** C9. In every reachable state of the save queue: at most one save is
    running; a save has started only if every save submitted before it
    has settled, fulfilled or rejected; the file operations of the saves
    never interleave, those of an earlier save all come first; the
    documents put at [dbPath] come from the saves in submission order; and
    a queued save gets to start even if every file operation of the saves
    before it fails. *)
Theorem C9_saves_are_serialized (s : State) :
  reachable s →
  (∀ i j Ji Jj, jobs s !! i = Some Ji → jobs s !! j = Some Jj →
     running Ji = true → running Jj = true → i = j) ∧
  (∀ i j Ji Jj, (i < j)%nat → jobs s !! i = Some Ji → jobs s !! j = Some Jj →
     started Jj = true → settled Ji = true) ∧
  StronglySorted le (map fst (ops s)) ∧
  StronglySorted lt (map fst (written s)) ∧
  (∀ k, jobs s !! k = Some Queued →
     ∃ ls s', Forall failing ls ∧ steps ls s = Some s' ∧
       jobs s' !! k = Some (Running Writing (data s))).
Proof.
  intros Hreach.
  destruct (reachable_invariant s Hreach) as (Hord & _ & Hsorted & _ & Hops).
  split; [|split; [|split; [|split]]].
  - intros i j Ji Jj Hi Hj Hri Hrj.
    destruct (Nat.lt_trichotomy i j) as [Hlt|[Heq|Hgt]]; [|exact Heq|].
    + assert (settled Ji = true)
        by (apply (Hord i j Ji Jj Hlt Hi Hj); destruct Jj; cbn in *; congruence).
      destruct Ji; cbn in *; congruence.
    + assert (settled Jj = true)
        by (apply (Hord j i Jj Ji Hgt Hj Hi); destruct Ji; cbn in *; congruence).
      destruct Jj; cbn in *; congruence.
  - exact Hord.
  - exact Hops.
  - exact Hsorted.
  - intros k Hk. apply queued_save_starts. exact Hk.
Qed.

Lemma C9_witness :
  jobs sampleState = [Rejected; Fulfilled; Running Unlinking []] ∧
  map fst (ops sampleState) = [0; 0; 1; 1; 2; 2; 2]%nat ∧
  map fst (written sampleState) = [1; 2]%nat ∧
  (∀ i j Ji Jj, jobs sampleState !! i = Some Ji → jobs sampleState !! j = Some Jj →
     running Ji = true → running Jj = true → i = j) ∧
  StronglySorted le (map fst (ops sampleState)).
Proof.
  split; [reflexivity|]. split; [reflexivity|]. split; [reflexivity|].
  destruct (C9_saves_are_serialized sampleState) as (H1 & _ & H3 & _).
  - exists sampleLabels. vm_compute. reflexivity.
  - split; [exact H1 | exact H3].
Defined.

End SaveQueueFacts.

(** ** The engine: the loop of [evaluateEvent] *)

Section Keeps.

Context {A B : Type}.
Variable P : World → Prop.

Lemma keeps_ret (a : A) : keeps P (ret a).
Proof. intros w Hw. exact Hw. Qed.

Lemma keeps_bind (m : M A) (k : A → M B) :
  keeps P m → (∀ a, keeps P (k a)) → keeps P (bind m k).
Proof.
  intros Hm Hk w Hw. unfold bind. specialize (Hm w Hw).
  destruct (m w) as [[a|] w1]; cbn in *; [apply Hk; exact Hm | exact Hm].
Qed.

End Keeps.

Lemma keeps_get (P : World → Prop) : keeps P get.
Proof. intros w Hw. exact Hw. Qed.

Lemma keeps_modify (P : World → Prop) (f : World → World) :
  (∀ w, P w → P (f w)) → keeps P (modify f).
Proof. intros Hf w Hw. apply Hf, Hw. Qed.

(** The loop keeps what each of its four steps keeps. *)
Lemma keeps_evaluateLoop (env : Setup) (P : World → Prop) (event : FileEvent)
    (rules : list Rule) :
  (∀ rule, In rule rules → keeps P (evaluateRule env event rule)) →
  (∀ w, P w → P (addMatch w)) →
  (∀ rule, In rule rules → keeps P (storeRecordMatch env (r_id rule))) →
  (∀ m, keeps P (recordMatch env m)) →
  ∀ found, keeps P (evaluateLoop env event rules found).
Proof.
  intros Hrule Hadd Hstore Hrec.
  induction rules as [|rule rest IH]; intros found; cbn [evaluateLoop].
  - apply keeps_ret.
  - apply keeps_bind; [apply Hrule; left; reflexivity|].
    assert (IH' : ∀ found, keeps P (evaluateLoop env event rest found)).
    { apply IH; intros; [apply Hrule | apply Hstore]; right; assumption. }
    intros [m|]; [|apply IH'].
    apply keeps_bind; [apply keeps_modify, Hadd|]. intros _.
    apply keeps_bind; [apply Hstore; left; reflexivity|]. intros _.
    apply keeps_bind; [apply Hrec|]. intros _. apply IH'.
Qed.

Lemma keeps_evaluateEvent (env : Setup) (P : World → Prop) (event : FileEvent) :
  (∀ w, P w → P (addObserved w)) →
  (∀ n w, P w → P (addEvaluated n w)) →
  (∀ rule, keeps P (evaluateRule env event rule)) →
  (∀ w, P w → P (addMatch w)) →
  (∀ id, keeps P (storeRecordMatch env id)) →
  (∀ m, keeps P (recordMatch env m)) →
  keeps P (evaluateEvent env event).
Proof.
  intros Hobs Heval Hrule Hadd Hstore Hrec. unfold evaluateEvent.
  apply keeps_bind; [apply keeps_modify, Hobs|]. intros _.
  destruct (negb _); [apply keeps_ret|].
  unfold getEnabledRules.
  apply keeps_bind; [apply keeps_bind; [apply keeps_get | intros; apply keeps_ret]|].
  intros rules. apply keeps_bind; [apply keeps_modify, Heval|]. intros _.
  apply keeps_evaluateLoop; auto.
Qed.

Lemma keeps_save (env : Setup) (P : World → Prop) :
  (∀ n w, P w → P (setTicks n w)) →
  (∀ n w, P w → P (setSaves n w)) → (∀ d w, P w → P (setDisk d w)) →
  keeps P (save env).
Proof.
  intros Ht Hs Hd w Hw. unfold save.
  destruct (ioOk env (saves w)); [cbn; auto|].
  destruct (failedSave env (saves w)); cbn; auto.
Qed.

Lemma keeps_dateNow (env : Setup) (P : World → Prop) :
  (∀ n w, P w → P (setTicks n w)) → keeps P (dateNow env).
Proof. intros Ht w Hw. cbn. auto. Qed.

Lemma keeps_storeRecordMatch (env : Setup) (P : World → Prop) (id : string) :
  (∀ n w, P w → P (setTicks n w)) →
  (∀ n w, P w → P (setSaves n w)) → (∀ d w, P w → P (setDisk d w)) →
  (∀ now w, P w →
     P (setRules (updateFirst (fun r => String.eqb (r_id r) id) (bumpMatch now)
                    (data_rules w)) w)) →
  keeps P (storeRecordMatch env id).
Proof.
  intros Ht Hs Hd Hr. unfold storeRecordMatch.
  apply keeps_bind; [apply keeps_get|]. intros w0.
  destruct (existsb _ _); [|apply keeps_ret].
  apply keeps_bind; [apply keeps_dateNow, Ht|]. intros now.
  apply keeps_bind; [apply keeps_modify; intros w Hw; apply Hr, Hw|]. intros _.
  apply keeps_save; assumption.
Qed.

Lemma keeps_evaluateRule (env : Setup) (P : World → Prop) (event : FileEvent) (rule : Rule) :
  (∀ n w, P w → P (setTicks n w)) →
  (∀ l w, P w → P (setThresholdWindows (<[r_id rule := l]> (thresholdWindows w)) w)) →
  keeps P (evaluateRule env event rule).
Proof.
  intros Ht Hw. unfold evaluateRule.
  destruct (negb _); [apply keeps_ret|].
  destruct (String.eqb (r_type rule) "pattern").
  { apply keeps_bind; [apply keeps_dateNow, Ht|]. intros now. apply keeps_ret. }
  destruct (String.eqb (r_type rule) "threshold"); [|apply keeps_ret].
  apply keeps_bind; [apply keeps_dateNow, Ht|]. intros now.
  apply keeps_bind; [apply keeps_get|]. intros w0.
  apply keeps_bind; [apply keeps_modify; intros w H; apply Hw, H|]. intros _.
  destruct (geOpt _ _); [|apply keeps_ret].
  apply keeps_bind; [apply keeps_modify; intros w H; apply Hw, H|]. intros _.
  apply keeps_ret.
Qed.

Lemma updateFirst_Forall2_right {A} (R : A → A → Prop) (p : A → bool) (f : A → A)
    (l0 l : list A) :
  (∀ x y, R x y → R x (f y)) → Forall2 R l0 l → Forall2 R l0 (updateFirst p f l).
Proof.
  intros Hf H. induction H as [|x y l0 l Hxy Hl IH]; cbn; [constructor|].
  destruct (p y); constructor; auto.
Qed.

Lemma updateFirst_ids (p : Rule → bool) (now : Z) (l : list Rule) :
  map r_id (updateFirst p (bumpMatch now) l) = map r_id l.
Proof.
  induction l as [|x l IH]; cbn; [reflexivity|].
  destruct (p x); cbn; [reflexivity | rewrite IH; reflexivity].
Qed.

Lemma totalMatchCount_cons (x : Rule) (l : list Rule) :
  totalMatchCount (x :: l) = r_matchCount x + totalMatchCount l.
Proof. reflexivity. Qed.

Lemma updateFirst_total (p : Rule → bool) (now : Z) (l : list Rule) :
  existsb p l = true →
  totalMatchCount (updateFirst p (bumpMatch now) l) = totalMatchCount l + 1.
Proof.
  induction l as [|x l IH]; cbn [existsb updateFirst]; [discriminate|].
  destruct (p x); cbn [orb]; rewrite !totalMatchCount_cons; [cbn; lia|].
  intros H. rewrite IH by exact H. lia.
Qed.

Lemma existsb_id (id : string) (l : list Rule) :
  existsb (fun r => String.eqb (r_id r) id) l = true ↔ In id (map r_id l).
Proof.
  rewrite existsb_exists, in_map_iff. split.
  - intros (r & Hin & Heq). apply String.eqb_eq in Heq. eauto.
  - intros (r & Heq & Hin). exists r. split; [exact Hin | apply String.eqb_eq, Heq].
Qed.

(** [evaluateRule] never throws; it leaves the statistics, the rules, the
    match history and the disk alone; a match carries the id of its rule and
    is given only for an event that passes the filter. *)
Lemma evaluateRule_returns (env : Setup) (event : FileEvent) (rule : Rule) (w : World) :
  ∃ r w1, evaluateRule env event rule w = (Ok r, w1) ∧
    stats w1 = stats w ∧ data_rules w1 = data_rules w ∧
    recentMatches w1 = recentMatches w ∧ disk w1 = disk w ∧ saves w1 = saves w ∧
    (∀ m, r = Some m →
       m_ruleId m = r_id rule ∧ matchesFilter event (r_match rule) = true) ∧
    (r_type rule = "pattern" → matchesFilter event (r_match rule) = true → r ≠ None).
Proof.
  unfold evaluateRule.
  destruct (matchesFilter event (r_match rule)); cbn [negb].
  2:{ eexists _, _; split; [reflexivity|]; repeat split; intros; discriminate. }
  destruct (String.eqb (r_type rule) "pattern") eqn:Hp.
  { eexists _, _. split; [reflexivity|].
    repeat split; intros; simplify_eq; reflexivity || discriminate. }
  apply String.eqb_neq in Hp.
  destruct (String.eqb (r_type rule) "threshold");
    [|eexists _, _; split; [reflexivity|]; repeat split; intros;
      discriminate || contradiction].
  unfold bind, dateNow, get, setWindow, modify, ret. cbn.
  destruct (geOpt _ _); eexists _, _; (split; [reflexivity|]); cbn;
    repeat split; intros; simplify_eq; reflexivity || contradiction.
Qed.

(** [RuleStore.recordMatch] on a stored id. *)
Lemma storeRecordMatch_stored (env : Setup) (id : string) (w : World) :
  In id (map r_id (data_rules w)) →
  ∃ res w1, storeRecordMatch env id w = (res, w1) ∧
    stats w1 = stats w ∧ recentMatches w1 = recentMatches w ∧
    thresholdWindows w1 = thresholdWindows w ∧ saves w1 = S (saves w) ∧
    data_rules w1 = updateFirst (fun r => String.eqb (r_id r) id)
                      (bumpMatch (clock env (ticks w))) (data_rules w) ∧
    (res = Ok tt ↔ ioOk env (saves w) = true) ∧
    (res = Ok tt → disk w1 = Some (data_rules w1)) ∧
    (res = Threw → disk w1 = disk w ∨ disk w1 = Some (data_rules w1)).
Proof.
  intros Hin. apply existsb_id in Hin.
  unfold storeRecordMatch, bind, get, ret, dateNow, modify, save. rewrite Hin. cbn.
  destruct (ioOk env (saves w)); [|destruct (failedSave env (saves w))];
    eexists _, _; (split; [reflexivity|]); cbn;
    split_and!; auto; try discriminate; split; auto; discriminate.
Qed.

(** ** The engine: [evaluateEvent] *)

Lemma recordMatch_bound (env : Setup) (m : RuleMatch) (w : World) :
  Z.of_nat (length (recentMatches w)) ≤ Z.max 0 (recentMatchLimit env) →
  Z.of_nat (length (recentMatches (snd (recordMatch env m w)))) ≤
    Z.max 0 (recentMatchLimit env).
Proof.
  intros H. cbn. destruct (Z.ltb_spec (recentMatchLimit env)
    (Z.of_nat (length (recentMatches w ++ [m])))) as [Hlt|Hge].
  - destruct (recentMatches w) as [|x l]; cbn in *; [lia|].
    rewrite length_app in *. cbn in *. lia.
  - lia.
Qed.

(** X1. The history of recent matches stays within its limit: when it
    holds at most [recentMatchLimit] entries (none, for a limit below
    one) before [evaluateEvent], it does so afterwards, whether the call
    returns or throws. *)
Theorem evaluateEvent_history_bounded (env : Setup) (event : FileEvent) (w : World) :
  Z.of_nat (length (recentMatches w)) ≤ Z.max 0 (recentMatchLimit env) →
  Z.of_nat (length (recentMatches (snd (evaluateEvent env event w)))) ≤
    Z.max 0 (recentMatchLimit env).
Proof.
  apply (keeps_evaluateEvent env
    (fun w => Z.of_nat (length (recentMatches w)) ≤ Z.max 0 (recentMatchLimit env))).
  - intros w0 H; exact H.
  - intros n w0 H; exact H.
  - intros rule. apply keeps_evaluateRule; intros ? w0 H; exact H.
  - intros w0 H; exact H.
  - intros id. apply keeps_storeRecordMatch; intros ? w0 H; exact H.
  - intros m w0. apply recordMatch_bound.
Qed.

Lemma evaluateEvent_history_bounded_witness :
  Z.of_nat (length (recentMatches (snd (evaluateEvent sampleSetup sourceEvent mixedWorld))))
    ≤ Z.max 0 (recentMatchLimit sampleSetup).
Proof.
  apply (evaluateEvent_history_bounded sampleSetup sourceEvent mixedWorld). cbn. lia.
Defined.

Lemma sameRule_bump (now : Z) (x y : Rule) : sameRule x y → sameRule x (bumpMatch now y).
Proof. intros H. exact H. Qed.

Lemma sameRule_refl (l : list Rule) : Forall2 sameRule l l.
Proof. induction l; constructor; [repeat split | assumption]. Qed.

(** X2. [evaluateEvent] adds no rule, removes none and reorders none, and
    of a stored rule it changes at most [matchCount] and [lastMatched],
    whatever the outcome of the call. *)
Theorem evaluateEvent_keeps_rule_definitions (env : Setup) (event : FileEvent) (w : World) :
  Forall2 sameRule (data_rules w) (data_rules (snd (evaluateEvent env event w))).
Proof.
  apply (keeps_evaluateEvent env (fun w' => Forall2 sameRule (data_rules w) (data_rules w'))).
  - intros w0 H; exact H.
  - intros n w0 H; exact H.
  - intros rule. apply keeps_evaluateRule; intros ? w0 H; exact H.
  - intros w0 H; exact H.
  - intros id. apply keeps_storeRecordMatch; try (intros ? w0 H; exact H).
    intros now w0 H. cbn. apply updateFirst_Forall2_right; [apply sameRule_bump | exact H].
  - intros m w0 H; exact H.
  - apply sameRule_refl.
Qed.

(** What one run of the loop does, whatever its outcome. *)
Lemma evaluateLoop_effect (env : Setup) (event : FileEvent) :
  ∀ rules found w,
    (∀ r, In r rules → In (r_id r) (map r_id (data_rules w))) →
    ∃ res w', evaluateLoop env event rules found w = (res, w') ∧
      map r_id (data_rules w') = map r_id (data_rules w) ∧
      eventsObserved (stats w') = eventsObserved (stats w) ∧
      rulesEvaluated (stats w') = rulesEvaluated (stats w) ∧
      matches (stats w') - matches (stats w) =
        totalMatchCount (data_rules w') - totalMatchCount (data_rules w) ∧
      (res = Threw → ∃ n, (saves w ≤ n < saves w')%nat ∧ ioOk env n = false) ∧
      (∀ ms, res = Ok ms → ∃ new,
         ms = found ++ new ∧
         matches (stats w') = matches (stats w) + Z.of_nat (length new) ∧
         sublist (map m_ruleId new) (map r_id rules) ∧
         (new = [] → data_rules w' = data_rules w ∧ disk w' = disk w ∧ saves w' = saves w) ∧
         (new ≠ [] → disk w' = Some (data_rules w'))).
Proof.
  induction rules as [|rule rest IH]; intros found w Hids; cbn [evaluateLoop].
  { eexists _, _. split; [reflexivity|]. split_and!; try lia; try reflexivity.
    - discriminate.
    - intros ms [= <-]. exists []. rewrite app_nil_r.
      split_and!; [reflexivity | cbn; lia | constructor | auto | congruence]. }
  destruct (evaluateRule_returns env event rule w)
    as (r & w1 & E1 & Hs1 & Hr1 & _ & Hd1 & Hsv1 & Hid & _).
  unfold bind at 1. rewrite E1.
  assert (Hids1 : ∀ r, In r rest → In (r_id r) (map r_id (data_rules w1))).
  { intros r0 Hr0. rewrite Hr1. apply Hids. right. exact Hr0. }
  destruct r as [m|].
  2:{ destruct (IH found w1 Hids1) as (res & w' & E & Hi & Ho & He & Hm & Ht & Hok).
      exists res, w'. split; [exact E|]. rewrite Hr1, Hs1, Hd1, Hsv1 in *.
      split_and!; try assumption.
      intros ms Hms. destruct (Hok ms Hms) as (new & -> & Hn & Hsub & Hnil & Hne).
      exists new. split_and!; try assumption; try reflexivity.
      cbn [map]. apply sublist_cons, Hsub. }
  destruct (Hid m eq_refl) as [Hmid _].
  unfold bind at 1, modify at 1. cbn [fst snd].
  assert (Hin : In (r_id rule) (map r_id (data_rules (addMatch w1)))).
  { cbn. rewrite Hr1. apply Hids. left. reflexivity. }
  destruct (storeRecordMatch_stored env (r_id rule) (addMatch w1) Hin)
    as (res2 & w2 & E2 & Hs2 & _ & _ & Hsv2 & Hr2 & Hio & Hdisk & _).
  unfold bind at 1. rewrite E2. cbn in Hs2, Hsv2, Hr2.
  assert (Htot : totalMatchCount (data_rules w2) = totalMatchCount (data_rules w) + 1).
  { rewrite Hr2, updateFirst_total, Hr1; [reflexivity|].
    apply existsb_id. rewrite Hr1. apply Hids. left. reflexivity. }
  assert (Hids2 : map r_id (data_rules w2) = map r_id (data_rules w)).
  { rewrite Hr2, updateFirst_ids, Hr1. reflexivity. }
  destruct res2 as [[]|].
  2:{ eexists _, _. split; [reflexivity|]. rewrite Hs2. cbn. rewrite Hs1, Htot.
      split_and!; try assumption; try lia.
      - intros _. exists (saves w). rewrite Hsv2, Hsv1. split; [lia|].
        cbn in Hio. rewrite Hsv1 in Hio. destruct (ioOk env (saves w)) eqn:Eio; [|reflexivity].
        destruct Hio as [_ Hio]. specialize (Hio eq_refl). discriminate.
      - intros ms [=]. }
  unfold bind at 1. cbn [recordMatch modify fst snd].
  set (w3 := setRecentMatches _ w2).
  assert (Hids3 : ∀ r, In r rest → In (r_id r) (map r_id (data_rules w3))).
  { intros r0 Hr0. subst w3. cbn. rewrite Hids2. apply Hids. right. exact Hr0. }
  destruct (IH (found ++ [m]) w3 Hids3) as (res & w' & E & Hi & Ho & He & Hm & Ht & Hok).
  exists res, w'. split; [exact E|]. subst w3. cbn in Hi, Ho, He, Hm, Ht, Hok.
  rewrite Hs2 in *. cbn in Ho, He, Hm, Hok. rewrite Hs1 in *.
  unfold totalMatchCount in *.
  split_and!; try congruence; try lia.
  - intros Hthrew. destruct (Ht Hthrew) as (n & Hn & Hf). exists n. split; [lia | exact Hf].
  - intros ms Hms. destruct (Hok ms Hms) as (new & -> & Hn & Hsub & Hnil & Hne).
    exists (m :: new). rewrite <- app_assoc. cbn [app map length].
    split_and!.
    + reflexivity.
    + lia.
    + rewrite Hmid. apply sublist_skip, Hsub.
    + discriminate.
    + intros _. destruct new as [|m' new'].
      * destruct (Hnil eq_refl) as (-> & -> & _). apply Hdisk. reflexivity.
      * apply Hne. discriminate.
Qed.

Lemma evaluateEvent_unfold (env : Setup) (event : FileEvent) (w : World) :
  evaluateEvent env event w =
  if negb (validateFilePath env (resolve env (watchDir env) (ev_path event)))
  then (Ok [], addObserved w)
  else evaluateLoop env event (enabledRules w) []
         (addEvaluated (Z.of_nat (length (enabledRules w))) (addObserved w)).
Proof.
  unfold evaluateEvent, bind, modify, getEnabledRules, get, ret. cbn.
  destruct (negb _); reflexivity.
Qed.

Lemma enabledRules_stored (w : World) (r : Rule) :
  In r (enabledRules w) → In (r_id r) (map r_id (data_rules w)).
Proof.
  unfold enabledRules. rewrite filter_In. intros [H _]. apply in_map, H.
Qed.



(** ** The engine among other callers *)

Lemma bind_modify {A} (f : World → World) (k : unit → M A) (w : World) :
  bind (modify f) k w = k tt (f w).
Proof. reflexivity. Qed.

Lemma bind_ext {A B} (m m' : M A) (k k' : A → M B) (w : World) :
  m w = m' w → (∀ a w1, k a w1 = k' a w1) → bind m k w = bind m' k' w.
Proof.
  intros Hm Hk. unfold bind. rewrite Hm.
  destruct (m' w) as [[a|] w1]; [apply Hk | reflexivity].
Qed.

Lemma keeps_yield (others : Others) (P : World → Prop) (k : nat) :
  (∀ k w, P w → P (others k w)) → keeps P (yield others k).
Proof. intros H w Hw. apply H, Hw. Qed.

Lemma keeps_raise {A} (P : World → Prop) : keeps P (@raise A).
Proof. intros w Hw. exact Hw. Qed.

Lemma keeps_saveAmong (env : Setup) (others : Others) (P : World → Prop) (k : nat) :
  (∀ k w, P w → P (others k w)) →
  (∀ n w, P w → P (setTicks n w)) →
  (∀ n w, P w → P (setSaves n w)) → (∀ d w, P w → P (setDisk d w)) →
  keeps P (saveAmong env others k).
Proof.
  intros Ho Ht Hs Hd. unfold saveAmong.
  apply keeps_bind; [apply keeps_yield, Ho|]. intros _.
  apply keeps_bind; [apply keeps_get|]. intros w0.
  apply keeps_bind; [apply keeps_modify; auto|]. intros _.
  apply keeps_bind; [apply keeps_yield, Ho|]. intros _.
  destruct (ioOk env (saves w0)); [|destruct (failedSave env (saves w0))].
  - apply keeps_bind; [apply keeps_modify; auto|]. intros _. apply keeps_yield, Ho.
  - apply keeps_bind; [apply keeps_yield, Ho|]. intros _. apply keeps_raise.
  - apply keeps_bind; [apply keeps_modify; auto|]. intros _.
    apply keeps_bind; [apply keeps_yield, Ho|]. intros _. apply keeps_raise.
Qed.

(** With nothing else running, the calls with suspensions are the
    uninterrupted ones. *)
Lemma saveAmong_alone (env : Setup) (k : nat) (w : World) :
  saveAmong env nobody k w = save env w.
Proof.
  unfold saveAmong, save, yield, nobody, raise, bind, get, modify. cbn.
  destruct (ioOk env (saves w)); [reflexivity|].
  destruct (failedSave env (saves w)); reflexivity.
Qed.

Lemma storeRecordMatchAmong_alone (env : Setup) (k : nat) (id : string) (w : World) :
  storeRecordMatchAmong env nobody k id w = storeRecordMatch env id w.
Proof.
  unfold storeRecordMatchAmong, storeRecordMatch, bind, get, dateNow, modify.
  cbn -[saveAmong save].
  destruct (existsb _ _); [apply saveAmong_alone | reflexivity].
Qed.

Lemma evaluateLoopAmong_alone (env : Setup) (event : FileEvent) (rules : list Rule) :
  ∀ k found w,
    evaluateLoopAmong env nobody k event rules found w =
    evaluateLoop env event rules found w.
Proof.
  induction rules as [|rule rest IH]; intros k found w;
    cbn [evaluateLoopAmong evaluateLoop]; [reflexivity|].
  apply bind_ext; [reflexivity|]. intros [m|] w1; [|apply IH].
  apply bind_ext; [reflexivity|]. intros _ w2.
  apply bind_ext; [apply storeRecordMatchAmong_alone|]. intros _ w3.
  apply bind_ext; [reflexivity|]. intros _ w4. apply IH.
Qed.

Lemma evaluateEventAmong_unfold (env : Setup) (others : Others) (event : FileEvent)
    (w : World) :
  evaluateEventAmong env others event w =
  let w1 := others 0%nat (addObserved w) in
  if negb (validateFilePath env (resolve env (watchDir env) (ev_path event)))
  then (Ok [], w1)
  else evaluateLoopAmong env others 2 event (enabledRules w1) []
         (addEvaluated (Z.of_nat (length (enabledRules w1))) (others 1%nat w1)).
Proof.
  unfold evaluateEventAmong, yield, bind, modify, getEnabledRules, get, ret. cbn.
  destruct (negb _); reflexivity.
Qed.

Lemma evaluateEventAmong_alone (env : Setup) (event : FileEvent) (w : World) :
  evaluateEventAmong env nobody event w = evaluateEvent env event w.
Proof.
  rewrite evaluateEventAmong_unfold, evaluateEvent_unfold. cbn zeta. unfold nobody at 1 2 4 5.
  destruct (negb _); [reflexivity | apply evaluateLoopAmong_alone].
Qed.

(** [RuleStore.recordMatch] on a stored id: the rule is counted, then the
    store is saved. *)
Lemma storeRecordMatchAmong_stored (env : Setup) (others : Others) (k : nat)
    (id : string) (w : World) :
  In id (map r_id (data_rules w)) →
  storeRecordMatchAmong env others k id w =
  saveAmong env others k
    (setRules (updateFirst (fun r => String.eqb (r_id r) id)
                 (bumpMatch (clock env (ticks w))) (data_rules w))
       (setTicks (S (ticks w)) w)).
Proof.
  intros Hin. apply existsb_id in Hin.
  unfold storeRecordMatchAmong, bind, get, dateNow, modify. cbn -[saveAmong].
  rewrite Hin. reflexivity.
Qed.

(** The effect of a save on the store when the others leave the rules and
    the file alone. *)
Lemma saveAmong_effect (env : Setup) (others : Others) (k : nat) (w : World) :
  leaves data_rules others → leaves disk others →
  ∃ w1,
    saveAmong env others k w =
      (if ioOk env (saves (others k w)) then Ok tt else Threw, w1) ∧
    data_rules w1 = data_rules w ∧
    disk w1 = (if ioOk env (saves (others k w)) then Some (data_rules w)
               else match failedSave env (saves (others k w)) with
                    | Untouched => disk w
                    | Replaced => Some (data_rules w)
                    end).
Proof.
  intros Hr Hd. unfold leaves in Hr, Hd.
  unfold saveAmong, yield, raise, bind, get, modify. cbn.
  destruct (ioOk env (saves (others k w)));
    [|destruct (failedSave env (saves (others k w)))];
    eexists; (split; [reflexivity|]);
    repeat (rewrite ?Hr, ?Hd; cbn); auto.
Qed.

Section Counts.

Variable env : Setup.
Variable others : Others.
Variable event : FileEvent.
Hypothesis stored_stay : keepsStoredIds others.
Hypothesis surplus_stays : leaves surplus others.

Lemma steady_others (c : Z) (ids : list string) (k : nat) (w : World) :
  steady c ids w → steady c ids (others k w).
Proof.
  intros [Hs Hids]. split; [rewrite surplus_stays; exact Hs|].
  intros id Hid. apply stored_stay, Hids, Hid.
Qed.

Lemma evaluateLoopAmong_steady (c : Z) (ids : list string) :
  ∀ rules, (∀ r, In r rules → In (r_id r) ids) →
  ∀ k found, keeps (steady c ids) (evaluateLoopAmong env others k event rules found).
Proof.
  induction rules as [|rule rest IH]; intros Hrules k found; cbn [evaluateLoopAmong].
  { apply keeps_ret. }
  assert (IH' : ∀ k found,
            keeps (steady c ids) (evaluateLoopAmong env others k event rest found)).
  { apply IH. intros r Hr. apply Hrules. right. exact Hr. }
  apply keeps_bind.
  { apply keeps_evaluateRule; intros ? w0 H; exact H. }
  intros [m|]; [|apply IH'].
  intros w [Hs Hids]. rewrite bind_modify. unfold bind at 1.
  assert (Hin : In (r_id rule) (map r_id (data_rules (addMatch w)))).
  { apply Hids, Hrules. left. reflexivity. }
  rewrite (storeRecordMatchAmong_stored env others k _ _ Hin).
  set (w2 := setRules _ _).
  assert (H2 : steady c ids w2).
  { subst w2. split.
    - unfold surplus in *. cbn [data_rules stats setRules setTicks addMatch setStats matches].
      rewrite updateFirst_total by (apply existsb_id; exact Hin). lia.
    - intros id Hid. cbn [data_rules setRules]. rewrite updateFirst_ids.
      apply Hids, Hid. }
  pose proof (keeps_saveAmong env others (steady c ids) k
                (steady_others c ids)
                (fun n w0 H => H) (fun n w0 H => H) (fun d w0 H => H) w2 H2) as H3.
  destruct (saveAmong env others k w2) as [[[]|] w3]; cbn [snd] in H3 |- *; [|exact H3].
  apply (keeps_bind (steady c ids) (recordMatch env m)); [|intros _; apply IH'|exact H3].
  apply keeps_modify. intros w0 H. exact H.
Qed.

Lemma evaluateEventAmong_surplus (w : World) :
  surplus (snd (evaluateEventAmong env others event w)) = surplus w.
Proof.
  rewrite evaluateEventAmong_unfold. cbn zeta.
  set (w1 := others 0%nat (addObserved w)).
  assert (H1 : surplus w1 = surplus w).
  { subst w1. rewrite surplus_stays. reflexivity. }
  destruct (negb _); [exact H1|].
  apply (evaluateLoopAmong_steady (surplus w) (map r_id (enabledRules w1))
           (enabledRules w1) (fun r Hr => in_map r_id _ r Hr) 2%nat []).
  split.
  - change (surplus (others 1%nat w1) = surplus w). rewrite surplus_stays. exact H1.
  - intros id Hid. change (In id (map r_id (data_rules (others 1%nat w1)))).
    apply stored_stay. apply in_map_iff in Hid as (r & <- & Hr).
    apply enabledRules_stored, Hr.
Qed.

End Counts.

(** X4. Let the other callers that run while [evaluateEvent] is suspended
    delete no rule and keep the difference between the counter
    [stats.matches] and the sum of the [matchCount] fields of the store
    (the [totalMatches] of the report).  Then the call keeps this
    difference: both numbers grow by the same amount, also when a save
    fails and the call throws.  Without the first condition the numbers
    part: [recordMatch] of the store does nothing for a rule that was
    deleted after the enabled rules were read, and [stats.matches] was
    raised before. *)
Theorem evaluateEvent_counts_agree (env : Setup) (others : Others) (event : FileEvent)
    (w : World) :
  keepsStoredIds others → leaves surplus others →
  let w' := snd (evaluateEventAmong env others event w) in
  matches (stats w') - totalMatchCount (data_rules w') =
  matches (stats w) - totalMatchCount (data_rules w).
Proof.
  intros Hids Hsurplus. exact (evaluateEventAmong_surplus env others event Hids Hsurplus w).
Qed.

Lemma evaluateEvent_counts_agree_witness :
  keepsStoredIds busy ∧ leaves surplus busy ∧
  let w' := snd (evaluateEventAmong sampleSetup busy sourceEvent mixedWorld) in
  matches (stats w') - totalMatchCount (data_rules w') =
  matches (stats mixedWorld) - totalMatchCount (data_rules mixedWorld).
Proof.
  assert (Hids : keepsStoredIds busy) by (intros k w id H; exact H).
  assert (Hsurplus : leaves surplus busy) by (intros k w; reflexivity).
  split_and!; [exact Hids | exact Hsurplus|].
  exact (evaluateEvent_counts_agree sampleSetup busy sourceEvent mixedWorld Hids Hsurplus).
Defined.

(** A rule deleted while the enabled rules are awaited still matches, and
    is counted by the engine alone. *)
Lemma counts_part_after_deletion :
  let w' := snd (evaluateEventAmong sampleSetup (deleting "rule_1") sourceEvent mixedWorld) in
  data_rules w' = [pausedRule; burstRule] ∧
  matches (stats w') = matches (stats mixedWorld) + 1 ∧
  totalMatchCount (data_rules w') = totalMatchCount (data_rules mixedWorld).
Proof. vm_compute. auto. Qed.

Section WriteThrough.

Variable env : Setup.
Variable others : Others.
Variable event : FileEvent.
Hypothesis rules_stay : leaves data_rules others.
Hypothesis disk_stays : leaves disk others.

Lemma evaluateLoopAmong_effect :
  ∀ rules k found w,
    (∀ r, In r rules → In (r_id r) (map r_id (data_rules w))) →
    ∃ res w', evaluateLoopAmong env others k event rules found w = (res, w') ∧
      ∀ ms, res = Ok ms → ∃ new,
         ms = found ++ new ∧
         (new = [] → data_rules w' = data_rules w ∧ disk w' = disk w) ∧
         (new ≠ [] → disk w' = Some (data_rules w')).
Proof.
  induction rules as [|rule rest IH]; intros k found w Hids; cbn [evaluateLoopAmong].
  { eexists _, _. split; [reflexivity|]. intros ms [= <-]. exists [].
    rewrite app_nil_r. split_and!; [reflexivity | auto | congruence]. }
  destruct (evaluateRule_returns env event rule w)
    as (r & w1 & E1 & _ & Hr1 & _ & Hd1 & _).
  unfold bind at 1. rewrite E1.
  assert (Hids1 : ∀ r, In r (rule :: rest) → In (r_id r) (map r_id (data_rules w1))).
  { intros r0 Hr0. rewrite Hr1. apply Hids, Hr0. }
  destruct r as [m|].
  2:{ destruct (IH (k + 3)%nat found w1) as (res & w' & E & Hok).
      { intros r0 Hr0. apply Hids1. right. exact Hr0. }
      exists res, w'. split; [exact E|]. rewrite <- Hr1, <- Hd1. exact Hok. }
  rewrite bind_modify. unfold bind at 1.
  rewrite storeRecordMatchAmong_stored by (apply Hids1; left; reflexivity).
  set (w2 := setRules _ _).
  destruct (saveAmong_effect env others k w2 rules_stay disk_stays)
    as (w3 & E3 & Hr3 & Hd3).
  rewrite E3. destruct (ioOk env (saves (others k w2))).
  2:{ eexists _, _. split; [reflexivity|]. intros ms [=]. }
  unfold recordMatch at 1. rewrite bind_modify.
  set (w4 := setRecentMatches _ w3).
  destruct (IH (k + 3)%nat (found ++ [m]) w4) as (res & w' & E & Hok).
  { intros r0 Hr0. subst w4. cbn [data_rules setRecentMatches].
    rewrite Hr3. subst w2. cbn [data_rules setRules]. rewrite updateFirst_ids.
    apply Hids1. right. exact Hr0. }
  exists res, w'. split; [exact E|].
  intros ms Hms. destruct (Hok ms Hms) as (new & -> & Hnil & Hne).
  exists (m :: new). rewrite <- app_assoc. split_and!; [reflexivity | discriminate|].
  intros _. destruct new as [|m' new'].
  - destruct (Hnil eq_refl) as [-> ->]. subst w4. cbn [data_rules disk setRecentMatches].
    rewrite Hd3, Hr3. reflexivity.
  - apply Hne. discriminate.
Qed.

Lemma evaluateEventAmong_effect (w w' : World) (ms : list RuleMatch) :
  evaluateEventAmong env others event w = (Ok ms, w') →
  (ms ≠ [] → disk w' = Some (data_rules w')) ∧
  (ms = [] → data_rules w' = data_rules w ∧ disk w' = disk w).
Proof.
  rewrite evaluateEventAmong_unfold. cbn zeta.
  set (w1 := others 0%nat (addObserved w)).
  assert (Hr1 : data_rules w1 = data_rules w) by (subst w1; rewrite rules_stay; reflexivity).
  assert (Hd1 : disk w1 = disk w) by (subst w1; rewrite disk_stays; reflexivity).
  destruct (negb _); [intros [= <- <-]; split; [congruence | auto]|].
  set (w2 := addEvaluated _ _).
  assert (Hr2 : data_rules w2 = data_rules w1) by (subst w2; cbn; apply rules_stay).
  assert (Hd2 : disk w2 = disk w1) by (subst w2; cbn; apply disk_stays).
  destruct (evaluateLoopAmong_effect (enabledRules w1) 2%nat [] w2) as (res & w3 & E & Hok).
  { intros r Hr. rewrite Hr2. apply enabledRules_stored, Hr. }
  rewrite E. intros [= -> ->].
  destruct (Hok ms eq_refl) as (new & -> & Hnil & Hne).
  cbn [app]. rewrite <- Hr1, <- Hd1, <- Hr2, <- Hd2. split; assumption.
Qed.

End WriteThrough.

(** X5. Let the other callers that run while [evaluateEvent] is suspended
    neither change the rules in memory nor the file of the store.  Then,
    when the call returns matches, the document on disk is the list of
    rules in memory; when it returns none, the rules and the file are as
    before.  Without the condition the file can lag behind the memory at
    the return: a second event counted while the save of the first writes
    its file is in memory only, until the next save. *)
Theorem evaluateEvent_write_through (env : Setup) (others : Others) (event : FileEvent)
    (w w' : World) (ms : list RuleMatch) :
  leaves data_rules others → leaves disk others →
  evaluateEventAmong env others event w = (Ok ms, w') →
  (ms ≠ [] → disk w' = Some (data_rules w')) ∧
  (ms = [] → data_rules w' = data_rules w ∧ disk w' = disk w).
Proof.
  intros Hrules Hdisk. exact (evaluateEventAmong_effect env others event Hrules Hdisk w w' ms).
Qed.

Lemma evaluateEvent_write_through_witness :
  leaves data_rules busy ∧ leaves disk busy ∧
  ∃ ms w', evaluateEventAmong sampleSetup busy sourceEvent mixedWorld = (Ok ms, w') ∧
    (ms ≠ [] → disk w' = Some (data_rules w')) ∧
    (ms = [] → data_rules w' = data_rules mixedWorld ∧ disk w' = disk mixedWorld).
Proof.
  assert (Hrules : leaves data_rules busy) by (intros k w; reflexivity).
  assert (Hdisk : leaves disk busy) by (intros k w; reflexivity).
  split_and!; [exact Hrules | exact Hdisk|].
  destruct (evaluateEventAmong sampleSetup busy sourceEvent mixedWorld) as [[ms|] w'] eqn:E;
    [|vm_compute in E; discriminate].
  exists ms, w'. split; [reflexivity|].
  exact (evaluateEvent_write_through sampleSetup busy sourceEvent mixedWorld w' ms
           Hrules Hdisk E).
Defined.

(** A second event counted while the first save writes its file: the call
    returns its match, and the file has the count of the first event
    only. *)
Lemma file_lags_behind_second_event :
  ∃ m w', evaluateEventAmong sampleSetup (secondEvent sampleSetup "rule_1")
            sourceEvent mixedWorld = (Ok [m], w') ∧
    (r_matchCount <$> find (hasId "rule_1") (data_rules w')) = Some 2 ∧
    (r_matchCount <$> (disk w' ≫= find (hasId "rule_1"))) = Some 1.
Proof. eexists _, _. vm_compute. auto. Qed.

(** X6. [evaluateEvent] returns a list of matches whenever no write
    of the store fails. *)
Theorem evaluateEvent_returns (env : Setup) (event : FileEvent) (w : World) :
  (∀ n, (saves w ≤ n)%nat → ioOk env n = true) →
  ∃ ms w', evaluateEvent env event w = (Ok ms, w').
Proof.
  intros Hio. rewrite evaluateEvent_unfold.
  destruct (negb _); [eauto|].
  set (w0 := addEvaluated _ _).
  destruct (evaluateLoop_effect env event (enabledRules w) [] w0)
    as (res & w1 & E & _ & _ & _ & _ & Ht & _).
  { intros r Hr. apply enabledRules_stored, Hr. }
  rewrite E. destruct res as [ms|]; [eauto|].
  destruct (Ht eq_refl) as (n & Hn & Hf). cbn in Hn.
  rewrite Hio in Hf by lia. discriminate.
Qed.

Lemma evaluateEvent_returns_witness :
  ∃ ms w', evaluateEvent sampleSetup sourceEvent mixedWorld = (Ok ms, w').
Proof.
  apply (evaluateEvent_returns sampleSetup sourceEvent mixedWorld). intros n _. reflexivity.
Defined.







(** X9. After the evaluation of an event that passes the filter of a
    threshold rule with count [N], the window of the rule holds fewer
    than [N] time stamps (none when [N] is below one). *)
Theorem threshold_window_below_count (env : Setup) (event : FileEvent) (rule : Rule)
    (w : World) (N : Z) :
  r_type rule = "threshold" → r_count rule = Some N →
  matchesFilter event (r_match rule) = true →
  Z.of_nat (length (default [] (thresholdWindows (snd (evaluateRule env event rule w))
                                 !! r_id rule))) < Z.max 1 N.
Proof.
  intros Hty Hc Hf. unfold evaluateRule. rewrite Hf, Hty, Hc. cbn [negb].
  change (String.eqb "threshold" "pattern") with false.
  change (String.eqb "threshold" "threshold") with true. cbv iota.
  unfold bind, dateNow, get, setWindow, modify, ret. cbn [fst snd].
  match goal with |- context [geOpt ?a ?b] => destruct (geOpt a b) eqn:Hge end;
    cbn [fst snd thresholdWindows setThresholdWindows setTicks].
  - rewrite lookup_insert_eq. cbn. lia.
  - rewrite lookup_insert_eq. cbn [default]. unfold geOpt in Hge.
    apply Z.leb_gt in Hge. cbn in Hge |- *. lia.
Qed.

Lemma threshold_window_below_count_witness :
  Z.of_nat (length (default [] (thresholdWindows
      (snd (evaluateRule sampleSetup sourceEvent burstRule emptyWorld)) !! "rule_2"))) < 3.
Proof.
  apply (threshold_window_below_count sampleSetup sourceEvent burstRule emptyWorld 3);
    vm_compute; reflexivity.
Defined.

(** ** RuleStore: deleting, updating, adding *)




Lemma deleteRuleAmong_alone (env : Setup) (id : string) (w : World) :
  deleteRuleAmong env nobody id w = deleteRule env id w.
Proof.
  unfold deleteRuleAmong, deleteRule.
  apply bind_ext; [reflexivity|]. intros w0 w1.
  destruct (negb _); [reflexivity|].
  apply bind_ext; [reflexivity|]. intros _ w2.
  apply bind_ext; [apply saveAmong_alone | reflexivity].
Qed.








Lemma updateRuleAmong_alone (env : Setup) (id : string) (updates : RuleUpdates)
    (w : World) :
  updateRuleAmong env nobody id updates w = updateRule env id updates w.
Proof.
  unfold updateRuleAmong, updateRule.
  apply bind_ext; [reflexivity|]. intros w0 w1.
  destruct (negb _); [reflexivity|].
  apply bind_ext; [reflexivity|]. intros _ w2.
  destruct (_ || _); [|reflexivity].
  apply bind_ext; [apply saveAmong_alone | reflexivity].
Qed.



Lemma find_is_Some {A} (p : A → bool) (l : list A) (x : A) :
  In x l → p x = true → is_Some (find p l).
Proof.
  intros Hin Hp. destruct (find p l) eqn:E; [eauto|].
  rewrite (find_none _ _ E x Hin) in Hp. discriminate.
Qed.

Lemma find_fresh (id : string) (l : list Rule) (r : Rule) :
  r_id r = id → ¬ In id (map r_id l) → find (hasId id) (l ++ [r]) = Some r.
Proof.
  intros Hr. induction l as [|x l IH]; cbn [app find map In]; unfold hasId at 1.
  - intros _. rewrite Hr, String.eqb_refl. reflexivity.
  - intros Hno. destruct (String.eqb_spec (r_id x) id) as [E|E]; [tauto|]. apply IH. tauto.
Qed.

Lemma find_stored (id : string) (l l' : list Rule) :
  In id (map r_id l) → find (hasId id) (l ++ l') = find (hasId id) l.
Proof.
  induction l as [|x l IH]; [intros []|]. cbn [app find map In]. unfold hasId at 1 3.
  destruct (String.eqb_spec (r_id x) id) as [E|E]; [reflexivity|].
  intros [H|H]; [contradiction | apply IH, H].
Qed.

Lemma addRule_unfold (env : Setup) (uuid : string) (params : RuleParams) (w : World) :
  let rule := newRule (generateId uuid) (clock env (ticks w)) params in
  data_rules (snd (addRule env uuid params w)) = data_rules w ++ [rule] ∧
  fst (addRule env uuid params w) = (if ioOk env (saves w) then Ok rule else Threw) ∧
  disk (snd (addRule env uuid params w)) =
    (if ioOk env (saves w) then Some (data_rules w ++ [rule])
     else match failedSave env (saves w) with
          | Untouched => disk w
          | Replaced => Some (data_rules w ++ [rule])
          end).
Proof.
  unfold addRule, bind, dateNow, modify, save, ret. cbn.
  destruct (ioOk env (saves w)); [|destruct (failedSave env (saves w))]; cbn; auto.
Qed.

(** X12. [addRule] returns the rule it built once the store is written
    and throws otherwise; in both cases the rule is in memory at the end
    of the list.  [getRule] then finds it under its id when no stored rule
    had this id, [getRule] on the ids stored before answers as before, and
    [getAllRules] lists the old rules followed by the new one. *)
Theorem addRule_then_getRule (env : Setup) (uuid : string) (params : RuleParams)
    (w : World) :
  let id := generateId uuid in
  let rule := newRule id (clock env (ticks w)) params in
  let w' := snd (addRule env uuid params w) in
  fst (addRule env uuid params w) = (if ioOk env (saves w) then Ok rule else Threw) ∧
  (¬ In id (map r_id (data_rules w)) → getRule id w' = (Ok (Some rule), w')) ∧
  (∀ id', In id' (map r_id (data_rules w)) → fst (getRule id' w') = fst (getRule id' w)) ∧
  fst (getAllRules w') = Ok (data_rules w ++ [rule]).
Proof.
  cbn zeta. destruct (addRule_unfold env uuid params w) as (Hr & Hres & _).
  unfold getRule, getAllRules, bind, get, ret. cbn [fst snd]. rewrite Hr.
  split_and!.
  - exact Hres.
  - intros Hfresh. rewrite find_fresh; [reflexivity | reflexivity | exact Hfresh].
  - intros id' Hin. rewrite find_stored by exact Hin. reflexivity.
  - reflexivity.
Qed.

Lemma addRule_then_getRule_witness :
  let w' := snd (addRule sampleSetup "0001" sampleParams mixedWorld) in
  getRule "rule_0001" w' = (Ok (Some (newRule "rule_0001" 0 sampleParams)), w').
Proof.
  apply (proj1 (proj2 (addRule_then_getRule sampleSetup "0001" sampleParams mixedWorld))).
  cbn. intros [H|[H|[H|[]]]]; discriminate.
Defined.

(** X13. After [addRule] with a condition that is not blank,
    [findDuplicateRule] reports a duplicate for every condition that
    equals it up to letter case and surrounding white space, whatever the
    compiled rule. *)
Theorem addRule_blocks_same_condition (cmp : string → string → comparison)
    (env : Setup) (uuid : string) (params : RuleParams) (w : World)
    (condition : string) (compiled : CompiledRule) :
  canon (p_condition params) ≠ EmptyString →
  canon condition = canon (p_condition params) →
  is_Some (findDuplicateRule cmp (data_rules (snd (addRule env uuid params w)))
             condition compiled).
Proof.
  intros Hne Heq. destruct (addRule_unfold env uuid params w) as (Hr & _).
  rewrite Hr. unfold findDuplicateRule.
  eapply find_is_Some; [apply in_or_app; right; left; reflexivity|].
  cbn [newRule r_originalCondition]. apply orb_true_iff. left.
  fold (canon (p_condition params)). fold (canon condition).
  apply andb_true_iff. split.
  - unfold nonEmptyString. apply negb_true_iff, String.eqb_neq, Hne.
  - apply String.eqb_eq. symmetry. exact Heq.
Qed.

Lemma addRule_blocks_same_condition_witness :
  is_Some (findDuplicateRule codeUnitOrder
             (data_rules (snd (addRule sampleSetup "0001" sampleParams emptyWorld)))
             "if 3 or more files under SRC/ change within 60 seconds" modelPattern).
Proof.
  apply addRule_blocks_same_condition.
  - vm_compute. discriminate.
  - vm_compute. reflexivity.
Defined.

Lemma newRule_signature (cmp : string → string → comparison) (id : string) (now : Z)
    (params : RuleParams) :
  numbersFit (p_compiled params) →
  ruleSignatureFromRule cmp (newRule id now params) =
  ruleSignatureFromCompiled cmp (p_compiled params).
Proof.
  unfold numbersFit, ruleSignatureFromRule, ruleSignatureFromCompiled, signatureObject.
  cbn [newRule r_type r_match r_windowSeconds r_count c_type c_match c_windowSeconds c_count].
  destruct (String.eqb (c_type (p_compiled params)) "threshold").
  - intros [[s ->] [n ->]]. reflexivity.
  - intros [-> ->]. reflexivity.
Qed.

(** X14. After [addRule] of a compiled rule whose numbers fit its type
    (window and count present for a threshold rule, absent otherwise),
    [findDuplicateRule] reports a duplicate for every compiled rule that
    differs from it at most in the order, letter case, surrounding white
    space and repetition of the filter entries, under any condition
    text.  The collation is assumed to be a total order. *)
Theorem addRule_blocks_variants (cmp : string → string → comparison)
    (env : Setup) (uuid : string) (params : RuleParams) (w : World)
    (condition : string) (Y : CompiledRule) :
  Collation cmp →
  numbersFit (p_compiled params) →
  variantOf (p_compiled params) Y →
  is_Some (findDuplicateRule cmp (data_rules (snd (addRule env uuid params w)))
             condition Y).
Proof.
  intros Hcol Hfit Hvar. destruct (addRule_unfold env uuid params w) as (Hr & _).
  rewrite Hr. unfold findDuplicateRule.
  eapply find_is_Some; [apply in_or_app; right; left; reflexivity|].
  apply orb_true_iff. right. apply String.eqb_eq.
  rewrite newRule_signature by exact Hfit. apply signature_variant; assumption.
Qed.

Lemma addRule_blocks_variants_witness :
  is_Some (findDuplicateRule codeUnitOrder
             (data_rules (snd (addRule sampleSetup "0001" sampleParams emptyWorld)))
             "another wording" ruleY).
Proof.
  apply addRule_blocks_variants.
  - exact codeUnitOrder_collation.
  - split; eauto.
  - unfold variantOf, sameEntries. repeat split; try reflexivity; vm_compute; tauto.
Defined.

(** ** Regular expressions: where a match ends and what it captures *)

Module RegexSpans.
Import Regex.

Lemma span_refl (st : Pos) : span st st [].
Proof. split; [reflexivity | cbn; lia]. Qed.

Lemma span_advance (st : Pos) (c : ascii) (r : list ascii) :
  rest st = c :: r → span st (advance c r st) [c].
Proof. intros H. split; [exact H | cbn; lia]. Qed.

Lemma span_trans (a b c : Pos) (cs ds : list ascii) :
  span a b cs → span b c ds → span a c (cs ++ ds).
Proof.
  intros [H1 H2] [H3 H4]. split.
  - rewrite H1, H3, app_assoc. reflexivity.
  - rewrite H4, H2, length_app. lia.
Qed.

Lemma span_capture (n : nat) (st st' : Pos) (cs : list ascii) :
  span st st' cs →
  groups (capture n st st') = (n, string_of_list_ascii cs) :: groups st'.
Proof.
  intros [H1 H2]. unfold capture. cbn. rewrite H1, H2.
  replace (index st + length cs - index st)%nat with (length cs) by lia.
  rewrite take_app_length. reflexivity.
Qed.

Section Spans.

Variable ignoreCase : bool.

Lemma literal_cont (l : list ascii) :
  ∀ st k e, literal ignoreCase l st k = Some e →
    ∃ st' cs, k st' = Some e ∧ span st st' cs ∧ groups st' = groups st ∧
              Forall2 (fun a c => chrMatch ignoreCase a c = true) l cs.
Proof.
  induction l as [|a l IH]; intros st k e H; cbn [literal] in H.
  - exists st, []. split_and!; [exact H | apply span_refl | reflexivity | constructor].
  - destruct (rest st) as [|c r] eqn:Hr; [discriminate|].
    destruct (chrMatch ignoreCase a c) eqn:Hac; [|discriminate].
    destruct (IH _ _ _ H) as (st' & cs & Hk & Hs & Hg & Hall).
    exists st', (c :: cs). split_and!.
    + exact Hk.
    + apply (span_trans _ _ _ [c] cs (span_advance st c r Hr) Hs).
    + rewrite Hg. reflexivity.
    + constructor; assumption.
Qed.

Lemma exactly_cont (p : ascii → bool) (n : nat) :
  ∀ st k e, exactly ignoreCase p n st k = Some e →
    ∃ st' cs, k st' = Some e ∧ span st st' cs ∧ groups st' = groups st ∧
              length cs = n ∧ Forall (fun c => clsMatch ignoreCase p c = true) cs.
Proof.
  induction n as [|n IH]; intros st k e H; cbn [exactly] in H.
  - exists st, []. split_and!; [exact H | apply span_refl | reflexivity | reflexivity | constructor].
  - destruct (rest st) as [|c r] eqn:Hr; [discriminate|].
    destruct (clsMatch ignoreCase p c) eqn:Hc; [|discriminate].
    destruct (IH _ _ _ H) as (st' & cs & Hk & Hs & Hg & Hlen & Hall).
    exists st', (c :: cs). split_and!.
    + exact Hk.
    + apply (span_trans _ _ _ [c] cs (span_advance st c r Hr) Hs).
    + rewrite Hg. reflexivity.
    + cbn. rewrite Hlen. reflexivity.
    + constructor; assumption.
Qed.

Lemma greedy_cont (p : ascii → bool) (n : nat) :
  ∀ st k e, greedy ignoreCase p n st k = Some e →
    ∃ st' cs, k st' = Some e ∧ span st st' cs ∧ groups st' = groups st ∧
              Forall (fun c => clsMatch ignoreCase p c = true) cs.
Proof.
  induction n as [|n IH]; intros st k e H; cbn [greedy] in H.
  - exists st, []. split_and!; [exact H | apply span_refl | reflexivity | constructor].
  - assert (Hstay : k st = Some e →
      ∃ st' cs, k st' = Some e ∧ span st st' cs ∧ groups st' = groups st ∧
                Forall (fun c => clsMatch ignoreCase p c = true) cs).
    { intros Hk. exists st, []. split_and!; [exact Hk | apply span_refl | reflexivity | constructor]. }
    destruct (rest st) as [|c r] eqn:Hr; [auto|].
    destruct (clsMatch ignoreCase p c) eqn:Hc; [|auto].
    destruct (greedy ignoreCase p n (advance c r st) k) as [e'|] eqn:Hg; [|auto].
    injection H as ->.
    destruct (IH _ _ _ Hg) as (st' & cs & Hk & Hs & Hgr & Hall).
    exists st', (c :: cs). split_and!.
    + exact Hk.
    + apply (span_trans _ _ _ [c] cs (span_advance st c r Hr) Hs).
    + rewrite Hgr. reflexivity.
    + constructor; assumption.
Qed.

(** [p]+ reads at least one character of the class. *)
Lemma plus_cont (p : ascii → bool) (st : Pos) (k : Pos → option Pos) (e : Pos) :
  run ignoreCase (plus p) st k = Some e →
  ∃ st' c cs, k st' = Some e ∧ span st st' (c :: cs) ∧ groups st' = groups st ∧
              Forall (fun c => clsMatch ignoreCase p c = true) (c :: cs).
Proof.
  unfold plus. cbn [run]. intros H.
  destruct (exactly_cont _ _ _ _ _ H) as (st1 & cs1 & H1 & Hs1 & Hg1 & Hlen & Hall1).
  destruct (greedy_cont _ _ _ _ _ H1) as (st2 & cs2 & H2 & Hs2 & Hg2 & Hall2).
  destruct cs1 as [|c [|]]; try discriminate.
  exists st2, c, cs2. split_and!.
  - exact H2.
  - apply (span_trans _ _ _ [c] cs2 Hs1 Hs2).
  - rewrite Hg2, Hg1. reflexivity.
  - constructor; [apply (Forall_inv Hall1) | exact Hall2].
Qed.

(** Whatever the pattern, a successful run has called its continuation
    at a position further on. *)
Lemma run_cont (r : Re) :
  ∀ st k e, run ignoreCase r st k = Some e →
    ∃ st' cs, k st' = Some e ∧ span st st' cs.
Proof.
  induction r as [s|p|a IHa b IHb|a IHa b IHb|a IHa|p lo hi| |n a IHa];
    intros st k e H; cbn [run] in H.
  - destruct (literal_cont _ _ _ _ H) as (st' & cs & Hk & Hs & _). eauto.
  - destruct (rest st) as [|c r'] eqn:Hr; [discriminate|].
    destruct (clsMatch ignoreCase p c); [|discriminate].
    exists (advance c r' st), [c]. split; [exact H | apply span_advance, Hr].
  - destruct (IHa _ _ _ H) as (st1 & cs1 & H1 & Hs1).
    destruct (IHb _ _ _ H1) as (st2 & cs2 & H2 & Hs2).
    exists st2, (cs1 ++ cs2). split; [exact H2 | eapply span_trans; eassumption].
  - destruct (run ignoreCase a st k) as [e'|] eqn:Ha.
    + injection H as ->. apply IHa, Ha.
    + apply IHb, H.
  - destruct (run ignoreCase a st k) as [e'|] eqn:Ha.
    + injection H as ->. apply IHa, Ha.
    + exists st, []. split; [exact H | apply span_refl].
  - destruct (exactly_cont _ _ _ _ _ H) as (st1 & cs1 & H1 & Hs1 & _).
    destruct (greedy_cont _ _ _ _ _ H1) as (st2 & cs2 & H2 & Hs2 & _).
    exists st2, (cs1 ++ cs2). split; [exact H2 | eapply span_trans; eassumption].
  - destruct (xorb _ _); [|discriminate].
    exists st, []. split; [exact H | apply span_refl].
  - destruct (IHa _ _ _ H) as (st1 & cs1 & H1 & Hs1).
    exists (capture n st st1), cs1. split; [exact H1|].
    destruct Hs1 as [Hr Hi]. split; [exact Hr | exact Hi].
Qed.

Lemma seq_cont (a b : Re) (st : Pos) (k : Pos → option Pos) (e : Pos) :
  run ignoreCase (Seq a b) st k = Some e →
  ∃ st' cs, run ignoreCase b st' k = Some e ∧ span st st' cs.
Proof. cbn [run]. apply run_cont. Qed.

(** Every match of [matchAll] is a successful run from a position of the
    text with no group captured yet. *)
Lemma searchAll_run (r : Re) :
  ∀ s prev i skip m, In m (searchAll ignoreCase r prev s i skip) →
    ∃ st, groups st = [] ∧ run ignoreCase r st Some = Some (stop m) ∧
          matched m = string_of_list_ascii (take (index (stop m) - index st) (rest st)).
Proof.
  induction s as [|c s IH]; intros prev i skip m; cbn [searchAll].
  - destruct skip; [|intros []].
    match goal with |- context [run ignoreCase r ?st Some] =>
      destruct (run ignoreCase r st Some) as [e|] eqn:Hr; [|intros []];
      intros [<-|[]]; exists st; cbn; auto end.
  - destruct skip as [|skip]; [|apply IH].
    match goal with |- context [run ignoreCase r ?st Some] =>
      destruct (run ignoreCase r st Some) as [e|] eqn:Hr; [|apply IH];
      intros [<-|Hin]; [exists st; cbn; auto | eapply IH, Hin] end.
Qed.

End Spans.

End RegexSpans.

(** ** The shape of an intent *)

Module IntentShape.
Import Regex Intent RegexSpans.

Lemma pathPattern_capture (st e : Pos) :
  run true pathPattern st Some = Some e →
  ∃ c cs, find (fun g => (fst g =? 1)%nat) (groups e)
            = Some (1%nat, string_of_list_ascii (c :: cs)) ∧
          clsMatch true pathChar c = true.
Proof.
  unfold pathPattern. cbn [run]. intros H.
  destruct (plus_cont _ _ _ _ _ H) as (st1 & c & cs & H1 & Hs1 & _ & Hall).
  destruct (rest st1) as [|c3 r] eqn:Hr; [discriminate|].
  destruct (clsMatch true separator c3); [|discriminate].
  injection H1 as <-.
  pose proof (span_trans _ _ _ _ _ Hs1 (span_advance st1 c3 r Hr)) as Hs.
  rewrite (span_capture _ _ _ _ Hs). cbn [find fst Nat.eqb].
  exists c, (cs ++ [c3]). split; [reflexivity | apply (Forall_inv Hall)].
Qed.

Lemma phrasePattern_capture (st e : Pos) :
  run true phrasePattern st Some = Some e →
  ∃ c cs, find (fun g => (fst g =? 2)%nat) (groups e)
            = Some (2%nat, string_of_list_ascii (c :: cs)) ∧
          clsMatch true pathChar c = true.
Proof.
  unfold phrasePattern.
  change (seqs ?l) with
    (Seq WordBoundary
      (Seq (Group 1 (words ["in"; "from"; "under"; "inside"; "within"]))
        (Seq (plus space)
          (Seq (Opt (words ["the"; "a"; "an"]))
            (Seq (star space) (Seq (Group 2 (plus pathChar)) WordBoundary)))))).
  intros H.
  apply seq_cont in H as (st1 & ? & H & _).
  apply seq_cont in H as (st2 & ? & H & _).
  apply seq_cont in H as (st3 & ? & H & _).
  apply seq_cont in H as (st4 & ? & H & _).
  apply seq_cont in H as (st5 & ? & H & _).
  cbn [run] in H.
  destruct (plus_cont _ _ _ _ _ H) as (st6 & c & cs & H6 & Hs6 & _ & Hall).
  destruct (xorb _ _); [|discriminate]. injection H6 as <-.
  rewrite (span_capture _ _ _ _ Hs6). cbn [find fst Nat.eqb].
  exists c, cs. split; [reflexivity | apply (Forall_inv Hall)].
Qed.

Lemma pathChar_not_space (c : ascii) :
  clsMatch true pathChar c = true → Text.isSpace c = false.
Proof.
  destruct c as [[] [] [] [] [] [] [] []]; vm_compute; intros H;
    reflexivity || discriminate.
Qed.

Lemma revString_involutive (s : string) : Text.revString (Text.revString s) = s.
Proof.
  unfold Text.revString.
  rewrite list_ascii_of_string_of_list_ascii, rev_involutive.
  apply string_of_list_ascii_of_string.
Qed.

Lemma revString_append (a b : string) :
  Text.revString (a +:+ b) = Text.revString b +:+ Text.revString a.
Proof.
  unfold Text.revString. rewrite RegexFacts.chars_append, rev_app_distr.
  rewrite <- (list_ascii_of_string_of_list_ascii (rev (list_ascii_of_string b))) at 1.
  rewrite <- (list_ascii_of_string_of_list_ascii (rev (list_ascii_of_string a))) at 1.
  rewrite <- RegexFacts.chars_append. apply string_of_list_ascii_of_string.
Qed.

Lemma endsWith_slash_appended (s : string) : Text.endsWith (s +:+ "/") "/" = true.
Proof.
  unfold Text.endsWith. rewrite revString_append.
  apply prefix_spec. eexists. reflexivity.
Qed.

(** A text that neither starts nor ends with white space is its own trim. *)
Lemma trim_fixed (c : ascii) (s : string) :
  Text.isSpace c = false → Text.endsWith (String c s) "/" = true →
  Text.trim (String c s) = String c s.
Proof.
  intros Hc Hend. unfold Text.trim. cbn [Text.dropWhile]. rewrite Hc.
  unfold Text.endsWith in Hend. apply prefix_spec in Hend as [post Hpost].
  rewrite Hpost. change (Text.revString "/" +:+ post) with (String "/" post).
  cbn [Text.dropWhile]. change (Text.isSpace "/") with false. cbv iota.
  change (String "/" post) with (Text.revString "/" +:+ post).
  rewrite <- Hpost. apply revString_involutive.
Qed.

Lemma noBackslash_slashes (s : string) : noBackslash (backslashesToSlashes s) = true.
Proof.
  unfold noBackslash. induction s as [|c s IH]; [reflexivity|].
  cbn [backslashesToSlashes list_ascii_of_string forallb]. rewrite IH, andb_true_r.
  destruct (Text.code c =? 92)%nat eqn:E; [reflexivity | rewrite E; reflexivity].
Qed.

Lemma noBackslash_append (a b : string) :
  noBackslash (a +:+ b) = noBackslash a && noBackslash b.
Proof. unfold noBackslash. rewrite RegexFacts.chars_append. apply forallb_app. Qed.

(** The normal form of a token that does not start with white space. *)
Lemma normalizePathToken_fragment (c : ascii) (s : string) :
  Text.isSpace c = false → pathFragment (normalizePathToken (String c s)).
Proof.
  intros Hc. unfold normalizePathToken. cbn [backslashesToSlashes].
  set (c' := if (Text.code c =? 92)%nat then "/"%char else c).
  assert (Hc' : Text.isSpace c' = false).
  { subst c'. destruct (Text.code c =? 92)%nat; [reflexivity | exact Hc]. }
  set (n := String c' (backslashesToSlashes s)).
  assert (Hn : noBackslash n = true) by apply (noBackslash_slashes (String c s)).
  destruct (Text.endsWith n "/") eqn:Hend; cbn [negb].
  - split_and!; [discriminate | exact Hend | exact Hn | apply trim_fixed; assumption].
  - assert (Hend' : Text.endsWith (n +:+ "/") "/" = true) by apply endsWith_slash_appended.
    split_and!.
    + discriminate.
    + exact Hend'.
    + rewrite noBackslash_append, Hn. reflexivity.
    + apply (trim_fixed c' (backslashesToSlashes s +:+ "/") Hc' Hend').
Qed.

Lemma addPathTokens_fragments (n : nat) (found : list Match) :
  (∀ m, In m found →
     group n m = None ∨
     ∃ c s, group n m = Some (String c s) ∧ Text.isSpace c = false) →
  ∀ acc, (Forall pathFragment acc ∧ List.NoDup acc) →
         Forall pathFragment (addPathTokens n found acc) ∧
         List.NoDup (addPathTokens n found acc).
Proof.
  unfold addPathTokens. induction found as [|m found IH]; intros Hm acc Hacc; [exact Hacc|].
  cbn [fold_left]. apply IH; [intros m' Hin; apply Hm; right; exact Hin|].
  destruct (isStopwordToken _) eqn:Hstop; cbn [negb]; [exact Hacc|].
  destruct Hacc as [Hall Hnd]. split; [|apply add_NoDup, Hnd].
  apply List.Forall_forall. intros p Hp. apply add_In in Hp as [->|Hp].
  - destruct (Hm m (or_introl eq_refl)) as [Hnone|(c & s & Hsome & Hc)].
    + rewrite Hnone in Hstop. discriminate.
    + rewrite Hsome. apply normalizePathToken_fragment, Hc.
  - apply (proj1 (List.Forall_forall _ _) Hall p Hp).
Qed.

Lemma matchAll_groups (n : nat) (r : Re) (text : string) :
  (n ≠ 0)%nat →
  (∀ st e, run true r st Some = Some e →
     ∃ c cs, find (fun g => (fst g =? n)%nat) (groups e)
               = Some (n, string_of_list_ascii (c :: cs)) ∧
             clsMatch true pathChar c = true) →
  ∀ m, In m (matchAll true r text) →
    group n m = None ∨
    ∃ c s, group n m = Some (String c s) ∧ Text.isSpace c = false.
Proof.
  intros Hn Hcap m Hin. unfold matchAll in Hin.
  apply searchAll_run in Hin as (st & _ & Hrun & _).
  destruct (Hcap _ _ Hrun) as (c & cs & Hfind & Hc).
  right. exists c, (string_of_list_ascii cs). split.
  - unfold group. destruct n; [contradiction|]. rewrite Hfind. reflexivity.
  - apply pathChar_not_space, Hc.
Qed.

Lemma pathIncludes_fragments (condition : string) :
  Forall pathFragment (i_pathIncludes (extractIntent condition)) ∧
  List.NoDup (i_pathIncludes (extractIntent condition)).
Proof.
  unfold extractIntent. cbn [i_pathIncludes].
  apply addPathTokens_fragments.
  { apply matchAll_groups; [discriminate | apply phrasePattern_capture]. }
  apply addPathTokens_fragments.
  { apply matchAll_groups; [discriminate | apply pathPattern_capture]. }
  split; constructor.
Qed.

Lemma span_take (st e : Pos) (cs : list ascii) :
  span st e cs → take (index e - index st) (rest st) = cs.
Proof.
  intros [Hr Hi]. rewrite Hr, Hi.
  replace (index st + length cs - index st)%nat with (length cs) by lia.
  apply take_app_length.
Qed.

Lemma extensionPattern_matched (st e : Pos) :
  run false extensionPattern st Some = Some e →
  ∃ cs, take (index e - index st) (rest st) = "."%char :: cs.
Proof.
  unfold extensionPattern.
  change (seqs ?l) with (Seq (Lit ".") (Seq (Many lowerOrDigit 1 (Some 6%nat)) WordBoundary)).
  cbn [run list_ascii_of_string]. intros H.
  destruct (literal_cont _ _ _ _ _ H) as (st1 & cs1 & H1 & Hs1 & _ & Hdot).
  apply (seq_cont false (Many lowerOrDigit 1 (Some 6%nat)) WordBoundary) in H1
    as (st2 & cs2 & H2 & Hs2).
  cbn [run] in H2. destruct (xorb _ _); [|discriminate]. injection H2 as <-.
  inversion Hdot as [|a c l l' Hac Hrest]; subst. inversion Hrest; subst.
  unfold chrMatch in Hac. apply Ascii.eqb_eq in Hac. subst c.
  exists cs2. apply span_take. apply (span_trans _ _ _ _ _ Hs1 Hs2).
Qed.

Lemma LANGUAGE_EXTENSIONS_dotted :
  Forall (fun kv => Forall dotted (snd kv)) LANGUAGE_EXTENSIONS.
Proof. repeat constructor. Qed.

Lemma languageExtensions_dotted (text : string) :
  Forall dotted (languageExtensions text) ∧ List.NoDup (languageExtensions text).
Proof.
  unfold languageExtensions.
  assert (H : ∀ matchers acc, Forall dotted acc ∧ List.NoDup acc →
    let step := fun exts matcher =>
       if test false (snd matcher) text then
         match find (fun kv => String.eqb (fst kv) (fst matcher)) LANGUAGE_EXTENSIONS with
         | Some kv => JsSet.addAll (snd kv) exts
         | None => exts
         end
       else exts in
    Forall dotted (fold_left step matchers acc) ∧ List.NoDup (fold_left step matchers acc)).
  { induction matchers as [|m ms IH]; intros acc Hacc; [exact Hacc|].
    cbn [fold_left]. apply IH.
    destruct (test false (snd m) text); [|exact Hacc].
    destruct (find _ LANGUAGE_EXTENSIONS) as [kv|] eqn:Hf; [|exact Hacc].
    apply find_some in Hf as [Hin _].
    pose proof (proj1 (List.Forall_forall _ _) LANGUAGE_EXTENSIONS_dotted kv Hin) as Hkv.
    destruct Hacc as [Hall Hnd]. split; [|apply addAll_NoDup, Hnd].
    apply List.Forall_forall. intros x Hx. apply addAll_In in Hx as [Hx|Hx].
    - apply (proj1 (List.Forall_forall _ _) Hkv x Hx).
    - apply (proj1 (List.Forall_forall _ _) Hall x Hx). }
  apply H. split; constructor.
Qed.

Lemma extensions_dotted (condition : string) :
  Forall dotted (i_extensions (extractIntent condition)) ∧
  List.NoDup (i_extensions (extractIntent condition)).
Proof.
  unfold extractIntent. cbn [i_extensions].
  destruct (length _ =? 0)%nat; [apply languageExtensions_dotted|].
  split; [|apply addAll_NoDup; constructor].
  apply List.Forall_forall. intros x Hx. apply addAll_In in Hx as [Hx|[]].
  apply in_map_iff in Hx as (m & <- & Hm). unfold matchAll in Hm.
  apply searchAll_run in Hm as (st & _ & Hrun & ->).
  destruct (extensionPattern_matched _ _ Hrun) as [cs ->].
  apply prefix_spec. eexists. reflexivity.
Qed.

(** X15. Every path fragment of an intent is not empty, ends with a
    slash, holds no backslash and has no white space around it; no
    fragment occurs twice. *)
Theorem intent_path_fragments (condition : string) :
  Forall pathFragment (i_pathIncludes (extractIntent condition)) ∧
  List.NoDup (i_pathIncludes (extractIntent condition)).
Proof. apply pathIncludes_fragments. Qed.

(** X16. Every extension of an intent starts with a dot, whether it was
    written in the condition or stands for a language named there; no
    extension occurs twice. *)
Theorem intent_extensions_dotted (condition : string) :
  Forall (fun e => Text.startsWith e "." = true) (i_extensions (extractIntent condition)) ∧
  List.NoDup (i_extensions (extractIntent condition)).
Proof. apply extensions_dotted. Qed.

End IntentShape.

(** ** Validation *)

Lemma length_zero_nil {A} (l : list A) : (length l =? 0)%nat = true ↔ l = [].
Proof. destruct l; cbn; split; congruence. Qed.

Lemma flat_map_nil {A B} (f : A → list B) (l : list A) :
  flat_map f l = [] ↔ ∀ x, In x l → f x = [].
Proof.
  induction l as [|x l IH]; cbn.
  - split; [intros _ y [] | reflexivity].
  - split.
    + intros H. apply app_eq_nil in H as [Hx Hl]. intros y [<-|Hy]; [exact Hx|].
      apply IH; assumption.
    + intros H. rewrite (H x (or_introl eq_refl)). cbn. apply IH. intros y Hy. apply H. right. exact Hy.
Qed.

Lemma validateMatchFilter_nil (m : MatchFilter) :
  validateMatchFilter m = [] ↔
  (∀ ext, In ext (entries (extensions m)) → dotted ext) ∧
  (∀ t, In t (entries (eventTypes m)) → In t allowedEventTypes).
Proof.
  unfold validateMatchFilter. split.
  - intros H. apply app_eq_nil in H as [He Ht]. split.
    + intros ext Hin. pose proof (proj1 (flat_map_nil _ _) He ext Hin) as Hx. cbv beta in Hx.
      unfold dotted. destruct (Text.startsWith ext "."); [reflexivity | discriminate].
    + intros t Hin. pose proof (proj1 (flat_map_nil _ _) Ht t Hin) as Hx. cbv beta in Hx.
      apply arrayIncludes_In.
      destruct (Text.arrayIncludes allowedEventTypes t); [reflexivity | discriminate].
  - intros [He Ht].
    assert (H1 : ∀ A (a b : list A), a = [] → b = [] → a ++ b = []) by (intros; subst; reflexivity).
    apply H1; apply flat_map_nil.
    + intros ext Hin. specialize (He ext Hin). unfold dotted in He. rewrite He. reflexivity.
    + intros t Hin. specialize (Ht t Hin). apply arrayIncludes_In in Ht. rewrite Ht. reflexivity.
Qed.

Lemma validateRange_nil (name : string) (lo hi : Z) (v : option Z) :
  validateRange name lo hi v = [] ↔ ∃ x, v = Some x ∧ lo ≤ x ≤ hi.
Proof.
  unfold validateRange. destruct v as [x|].
  - destruct (Z.ltb_spec x lo), (Z.ltb_spec hi x); cbn; split;
      try discriminate; try (intros (y & [= <-] & Hy); first [lia | reflexivity]);
      intros _; exists x; (split; [reflexivity | lia]).
  - split; [discriminate | intros (x & [=] & _)].
Qed.

Lemma validateCompiledRule_accepts (rule : CompiledRule) :
  valid (validateCompiledRule rule) = true ↔
  c_type rule ≠ EmptyString ∧
  (∀ ext, In ext (entries (extensions (c_match rule))) → Text.startsWith ext "." = true) ∧
  (∀ t, In t (entries (eventTypes (c_match rule))) → In t ["created"; "modified"; "deleted"]) ∧
  (c_type rule = "threshold" →
   (∃ s, c_windowSeconds rule = Some s ∧ 10 ≤ s ≤ 86400) ∧
   (∃ n, c_count rule = Some n ∧ 1 ≤ n ≤ 1000)) ∧
  (hasEntries (pathIncludes (c_match rule)) = true ∨
   hasEntries (extensions (c_match rule)) = true).
Proof.
  unfold validateCompiledRule. cbn [valid]. rewrite length_zero_nil.
  assert (Happ : ∀ A (a b : list A), a ++ b = [] ↔ a = [] ∧ b = []).
  { intros A a b. split; [apply app_eq_nil | intros [-> ->]; reflexivity]. }
  rewrite !Happ, validateMatchFilter_nil.
  destruct (String.eqb_spec (c_type rule) EmptyString) as [Ht|Ht];
    [split; [intros [[=] _] | intros [H _]; contradiction]|].
  destruct (String.eqb_spec (c_type rule) "threshold") as [Hth|Hth].
  - rewrite Happ, !validateRange_nil.
    destruct (hasEntries (pathIncludes (c_match rule)) || hasEntries (extensions (c_match rule)))
      eqn:Hb; cbn [negb].
    + apply orb_true_iff in Hb. unfold dotted, allowedEventTypes, MIN_WINDOW_SECONDS,
        MAX_WINDOW_SECONDS, MIN_THRESHOLD_COUNT, MAX_THRESHOLD_COUNT. tauto.
    + apply orb_false_iff in Hb as [-> ->].
      split; [intros (_ & _ & _ & [=]) | intros (_ & _ & _ & _ & [[=]|[=]])].
  - destruct (hasEntries (pathIncludes (c_match rule)) || hasEntries (extensions (c_match rule)))
      eqn:Hb; cbn [negb].
    + apply orb_true_iff in Hb. unfold dotted, allowedEventTypes. tauto.
    + apply orb_false_iff in Hb as [-> ->].
      split; [intros (_ & _ & _ & [=]) | intros (_ & _ & _ & _ & [[=]|[=]])].
Qed.

(** X17. [validateCompiledRule] accepts a rule exactly when its type is
    not empty, every extension starts with a dot, every event type is
    created, modified or deleted, a threshold rule has a window between 10
    and 86400 seconds and a count between 1 and 1000, and the filter has
    a path fragment or an extension. *)
Theorem validateCompiledRule_valid_iff (rule : CompiledRule) :
  valid (validateCompiledRule rule) = true ↔
  c_type rule ≠ EmptyString ∧
  (∀ ext, In ext (entries (extensions (c_match rule))) → Text.startsWith ext "." = true) ∧
  (∀ t, In t (entries (eventTypes (c_match rule))) → In t ["created"; "modified"; "deleted"]) ∧
  (c_type rule = "threshold" →
   (∃ s, c_windowSeconds rule = Some s ∧ 10 ≤ s ≤ 86400) ∧
   (∃ n, c_count rule = Some n ∧ 1 ≤ n ≤ 1000)) ∧
  (hasEntries (pathIncludes (c_match rule)) = true ∨
   hasEntries (extensions (c_match rule)) = true).
Proof. apply validateCompiledRule_accepts. Qed.

(** ** Alignment and validation together *)

Module AlignmentFacts.
Import Regex Intent Compiler IntentShape.

Lemma addAll_fresh (xs : list string) :
  ∀ acc, List.NoDup (acc ++ xs) → JsSet.addAll xs acc = acc ++ xs.
Proof.
  unfold JsSet.addAll. induction xs as [|x xs IH]; intros acc Hnd; cbn [fold_left].
  - rewrite app_nil_r. reflexivity.
  - assert (Hx : JsSet.has acc x = false).
    { destruct (JsSet.has acc x) eqn:E; [|reflexivity]. apply has_In in E.
      apply NoDup_remove_2 in Hnd. exfalso. apply Hnd. apply in_or_app. left. exact E. }
    unfold JsSet.add at 2. rewrite Hx. rewrite IH; rewrite <- app_assoc; [reflexivity | exact Hnd].
Qed.

Lemma fromList_fixed (l : list string) : List.NoDup l → JsSet.fromList l = l.
Proof. intros H. unfold JsSet.fromList. rewrite addAll_fresh; [reflexivity | exact H]. Qed.

Lemma fragments_trimmed (l : list string) :
  Forall pathFragment l → List.filter nonEmptyString (map Text.trim l) = l.
Proof.
  induction 1 as [|p l (Hne & _ & _ & Htrim) _ IH]; [reflexivity|].
  cbn [map List.filter]. rewrite Htrim, IH. unfold nonEmptyString.
  destruct (String.eqb_spec p EmptyString); [contradiction | reflexivity].
Qed.

Ltac aligned_cases condition rule :=
  unfold alignRuleToIntent;
  generalize (Regex.test true exclusionPattern condition);
  generalize (extractIntent condition); intros intent excluding;
  destruct (present (i_count intent) && present (i_windowSeconds intent));
  [|destruct (String.eqb (c_type rule) "threshold")].

Lemma aligned_extensions (condition : string) (rule : CompiledRule) :
  extensions (c_match (alignRuleToIntent condition rule)) =
  let found := i_extensions (extractIntent condition) in
  if (0 <? length found)%nat then Some found
  else if hasEntries (extensions (c_match rule)) then None
  else extensions (c_match rule).
Proof. aligned_cases condition rule; reflexivity. Qed.

Lemma aligned_pathIncludes (condition : string) (rule : CompiledRule) :
  pathIncludes (c_match (alignRuleToIntent condition rule)) =
  let found := i_pathIncludes (extractIntent condition) in
  if (0 <? length found)%nat then Some found
  else if hasEntries (pathIncludes (c_match rule)) then None
  else pathIncludes (c_match rule).
Proof.
  destruct (pathIncludes_fragments condition) as [Hfrag Hnd].
  assert (E : JsSet.fromList
                (List.filter nonEmptyString
                   (map Text.trim (i_pathIncludes (extractIntent condition))))
              = i_pathIncludes (extractIntent condition)).
  { rewrite fragments_trimmed by exact Hfrag. apply fromList_fixed, Hnd. }
  revert E. aligned_cases condition rule; intros ->; reflexivity.
Qed.

Lemma aligned_eventTypes (condition : string) (rule : CompiledRule) :
  eventTypes (c_match (alignRuleToIntent condition rule)) =
  let found := i_eventTypes (extractIntent condition) in
  if (0 <? length found)%nat then Some found else eventTypes (c_match rule).
Proof. aligned_cases condition rule; reflexivity. Qed.

Lemma aligned_pathExcludes (condition : string) (rule : CompiledRule) :
  pathExcludes (c_match (alignRuleToIntent condition rule)) =
  if negb (Regex.test true exclusionPattern condition) then
    if hasEntries (pathExcludes (c_match rule)) then None else pathExcludes (c_match rule)
  else pathExcludes (c_match rule).
Proof. aligned_cases condition rule; reflexivity. Qed.

Lemma aligned_numbers (condition : string) (rule : CompiledRule) :
  let intent := extractIntent condition in
  let a := alignRuleToIntent condition rule in
  (c_type a, c_count a, c_windowSeconds a) =
  if present (i_count intent) && present (i_windowSeconds intent)
  then ("threshold", i_count intent, i_windowSeconds intent)
  else if String.eqb (c_type rule) "threshold" then ("pattern", None, None)
  else (c_type rule, c_count rule, c_windowSeconds rule).
Proof. cbn zeta. aligned_cases condition rule; reflexivity. Qed.

Lemma entries_unless_hasEntries {A} (o : option (list A)) :
  hasEntries o = false → entries o = [].
Proof. destruct o as [[|]|]; cbn; congruence. Qed.

Lemma positive_length {A} (l : list A) : (0 <? length l)%nat = false ↔ l = [].
Proof. destruct l; cbn; split; congruence. Qed.

(** X18. After alignment the filter holds exactly the extensions and
    the path fragments read from the condition: what the model gave for
    them is discarded, also when the condition names none.  The event
    types are those of the condition when it names some and those of the
    model otherwise; the excluded paths of the model survive only when the
    condition has a word of exclusion. *)
Theorem aligned_filter_from_text (condition : string) (rule : CompiledRule) :
  let intent := extractIntent condition in
  let aligned := alignRuleToIntent condition rule in
  entries (extensions (c_match aligned)) = i_extensions intent ∧
  entries (pathIncludes (c_match aligned)) = i_pathIncludes intent ∧
  (i_eventTypes intent ≠ [] → eventTypes (c_match aligned) = Some (i_eventTypes intent)) ∧
  (i_eventTypes intent = [] → eventTypes (c_match aligned) = eventTypes (c_match rule)) ∧
  (Regex.test true exclusionPattern condition = false →
     entries (pathExcludes (c_match aligned)) = []) ∧
  (Regex.test true exclusionPattern condition = true →
     pathExcludes (c_match aligned) = pathExcludes (c_match rule)).
Proof.
  cbn zeta.
  rewrite aligned_extensions, aligned_pathIncludes, aligned_eventTypes, aligned_pathExcludes.
  cbn zeta. split_and!.
  - destruct (0 <? length _)%nat eqn:E; [reflexivity|]. apply positive_length in E. rewrite E.
    destruct (hasEntries _) eqn:H; [reflexivity | apply entries_unless_hasEntries, H].
  - destruct (0 <? length _)%nat eqn:E; [reflexivity|]. apply positive_length in E. rewrite E.
    destruct (hasEntries _) eqn:H; [reflexivity | apply entries_unless_hasEntries, H].
  - intros Hne. destruct (0 <? length _)%nat eqn:E; [reflexivity|].
    apply positive_length in E. contradiction.
  - intros ->. reflexivity.
  - intros ->. cbn [negb]. destruct (hasEntries _) eqn:H;
      [reflexivity | apply entries_unless_hasEntries, H].
  - intros ->. reflexivity.
Qed.

Lemma aligned_filter_from_text_witness :
  eventTypes (c_match (alignRuleToIntent burstCondition modelPattern)) =
    Some (i_eventTypes (extractIntent burstCondition)) ∧
  entries (pathExcludes (c_match (alignRuleToIntent burstCondition modelPattern))) = [].
Proof.
  destruct (aligned_filter_from_text burstCondition modelPattern)
    as (_ & _ & Hev & _ & Hexc & _).
  split; [apply Hev | apply Hexc]; vm_compute; congruence.
Defined.

Lemma filter_none {A} (p : A → bool) (l : list A) :
  (∀ x, In x l → p x = false) → List.filter p l = [].
Proof.
  induction l as [|x l IH]; intros H; [reflexivity|]. cbn.
  rewrite (H x (or_introl eq_refl)). apply IH. intros y Hy. apply H. right. exact Hy.
Qed.

Lemma includes_refl (s : string) : Text.includes s s = true.
Proof.
  apply includes_spec. exists EmptyString, EmptyString.
  change (s = s +:+ EmptyString).
  induction s as [|c s IH]; [reflexivity|].
  change (String c s = String c (s +:+ EmptyString)). f_equal. exact IH.
Qed.

Lemma strictEq_refl (a : option Z) : strictEq a a = true.
Proof. destruct a; cbn; [apply Z.eqb_refl | reflexivity]. Qed.

Lemma existsb_self {A} (p : A → A → bool) (l : list A) (x : A) :
  In x l → p x x = true → existsb (fun y => p y x) l = true.
Proof. intros Hin Hp. apply existsb_exists. exists x. auto. Qed.

(** The checks against the intent find nothing in a rule whose numbers,
    event types, extensions and paths are those of the intent. *)
Lemma intentErrors_of_aligned (a : CompiledRule) (intent : RuleIntent) :
  (present (i_count intent) && present (i_windowSeconds intent) = true →
   c_type a = "threshold" ∧ c_count a = i_count intent ∧
   c_windowSeconds a = i_windowSeconds intent) →
  ((0 <? length (i_eventTypes intent))%nat = true →
   eventTypes (c_match a) = Some (i_eventTypes intent)) →
  ((0 <? length (i_extensions intent))%nat = true →
   extensions (c_match a) = Some (i_extensions intent)) →
  ((0 <? length (i_pathIncludes intent))%nat = true →
   pathIncludes (c_match a) = Some (i_pathIncludes intent)) →
  intentErrors a intent = [].
Proof.
  intros Hnum Hev Hext Hpath. unfold intentErrors.
  assert (Hnil : ∀ A (x y : list A), x = [] → y = [] → x ++ y = [])
    by (intros; subst; reflexivity).
  repeat apply Hnil.
  - destruct (present _ && present _); [|reflexivity].
    destruct (Hnum eq_refl) as (-> & _). reflexivity.
  - destruct (present _ && present _); [|reflexivity].
    destruct (Hnum eq_refl) as (-> & -> & ->). cbn. rewrite !strictEq_refl. reflexivity.
  - destruct (0 <? length (i_eventTypes intent))%nat eqn:E; [|reflexivity].
    rewrite (Hev eq_refl). cbn [default].
    destruct (i_eventTypes intent) as [|t ts] eqn:Ets; [discriminate|].
    cbn [length Nat.eqb]. rewrite filter_none; [reflexivity|].
    intros x Hx. apply negb_false_iff, arrayIncludes_In, Hx.
  - destruct (0 <? length (i_extensions intent))%nat eqn:E; [|reflexivity].
    rewrite (Hext eq_refl). cbn [default].
    rewrite !filter_none; [reflexivity| |];
      intros x Hx; apply negb_false_iff;
      apply (existsb_self sameLower _ _ Hx); apply String.eqb_refl.
  - destruct (0 <? length (i_pathIncludes intent))%nat eqn:E; [|reflexivity].
    rewrite (Hpath eq_refl). cbn [default].
    rewrite !filter_none; [reflexivity| |];
      intros x Hx; apply negb_false_iff; apply existsb_exists; exists x;
      (split; [exact Hx | apply includes_refl]).
Qed.

Lemma aligned_intentErrors (condition : string) (rule : CompiledRule) :
  intentErrors (alignRuleToIntent condition rule) (extractIntent condition) = [].
Proof.
  pose proof (aligned_numbers condition rule) as Hnum.
  pose proof (aligned_extensions condition rule) as Hext.
  pose proof (aligned_pathIncludes condition rule) as Hpath.
  pose proof (aligned_eventTypes condition rule) as Hev.
  cbn zeta in Hnum, Hext, Hpath, Hev.
  revert Hnum Hext Hpath Hev.
  generalize (alignRuleToIntent condition rule).
  generalize (extractIntent condition). intros intent a Hnum Hext Hpath Hev.
  apply intentErrors_of_aligned.
  - intros Hreq. rewrite Hreq in Hnum. injection Hnum as -> -> ->. auto.
  - intros E. rewrite E in Hev. exact Hev.
  - intros E. rewrite E in Hext. exact Hext.
  - intros E. rewrite E in Hpath. exact Hpath.
Qed.

(** X19. [validateCompiledRuleWithIntent] finds nothing to add to the
    errors of [validateCompiledRule] in a rule that [alignRuleToIntent]
    returned for the same condition. *)
Theorem aligned_passes_intent_checks (condition : string) (rule : CompiledRule) :
  let aligned := alignRuleToIntent condition rule in
  errors (validateCompiledRuleWithIntent aligned condition) =
    errors (validateCompiledRule aligned) ∧
  valid (validateCompiledRuleWithIntent aligned condition) =
    valid (validateCompiledRule aligned).
Proof.
  cbn zeta. unfold validateCompiledRuleWithIntent. cbn [errors valid].
  rewrite aligned_intentErrors, app_nil_r. split; reflexivity.
Qed.

Lemma hasEntries_aligned {A} (found : list A) (o : option (list A)) :
  hasEntries (if (0 <? length found)%nat then Some found
              else if hasEntries o then None else o) = (0 <? length found)%nat.
Proof. destruct found; cbn; [|reflexivity]. destruct o as [[|]|]; reflexivity. Qed.

Lemma eventTypes_allowed (condition : string) (t : string) :
  In t (i_eventTypes (extractIntent condition)) → In t allowedEventTypes.
Proof. unfold extractIntent. cbn [i_eventTypes]. intros H. apply filter_In in H as [H _]. exact H. Qed.

(** X20. The rule aligned for a condition passes
    [validateCompiledRuleWithIntent] exactly when: the condition asks for
    a threshold or the model gave a type that is not empty; the event
    types of the model are valid in case the condition names none; the
    count and window of the condition, when both are there, lie within 1
    to 1000 and 10 to 86400; and the condition names a path fragment or
    an extension.  Nothing else of the model's answer matters. *)
Theorem aligned_rule_accepted_iff (condition : string) (rule : CompiledRule) :
  let intent := extractIntent condition in
  let aligned := alignRuleToIntent condition rule in
  valid (validateCompiledRuleWithIntent aligned condition) = true ↔
  ((is_Some (i_count intent) ∧ is_Some (i_windowSeconds intent)) ∨
   (c_type rule ≠ EmptyString)) ∧
  (i_eventTypes intent = [] →
   ∀ t, In t (entries (eventTypes (c_match rule))) → In t ["created"; "modified"; "deleted"]) ∧
  (∀ n s, i_count intent = Some n → i_windowSeconds intent = Some s →
          1 ≤ n ≤ 1000 ∧ 10 ≤ s ≤ 86400) ∧
  (i_pathIncludes intent ≠ [] ∨ i_extensions intent ≠ []).
Proof.
  cbn zeta. unfold validateCompiledRuleWithIntent. cbn [errors valid].
  rewrite aligned_intentErrors, app_nil_r.
  change (length (errors (validateCompiledRule ?a)) =? 0)%nat
    with (valid (validateCompiledRule a)).
  rewrite validateCompiledRule_accepts.
  pose proof (aligned_numbers condition rule) as Hnum.
  pose proof (aligned_extensions condition rule) as Hext.
  pose proof (aligned_pathIncludes condition rule) as Hpath.
  pose proof (aligned_eventTypes condition rule) as Hev.
  pose proof (proj1 (extensions_dotted condition)) as Hdot.
  pose proof (eventTypes_allowed condition) as Hallowed.
  cbn zeta in Hnum, Hext, Hpath, Hev.
  rewrite Hext, Hpath, Hev, !hasEntries_aligned.
  revert Hnum Hdot Hallowed. clear Hext Hpath Hev.
  generalize (alignRuleToIntent condition rule).
  generalize (extractIntent condition). intros intent a Hnum Hdot Hallowed.
  assert (Hlen : ∀ A (l : list A), (0 <? length l)%nat = true ↔ l ≠ []).
  { intros A [|x l]; cbn; split; congruence. }
  assert (Hexts : ∀ ext,
    In ext (entries (if (0 <? length (i_extensions intent))%nat
                     then Some (i_extensions intent)
                     else if hasEntries (extensions (c_match rule)) then None
                          else extensions (c_match rule))) → Text.startsWith ext "." = true).
  { intros ext. destruct (0 <? length _)%nat.
    - cbn. apply (proj1 (List.Forall_forall _ _) Hdot).
    - destruct (hasEntries _) eqn:H; [intros []|].
      rewrite (entries_unless_hasEntries _ H). intros []. }
  rewrite !Hlen.
  destruct (i_count intent) as [n|] eqn:Hn, (i_windowSeconds intent) as [s|] eqn:Hs;
    cbn [present andb] in Hnum.
  1: { injection Hnum as Ht Hc Hw. rewrite Ht, Hc, Hw. split.
       - intros (_ & _ & Hevs & Hrange & Hbroad). split_and!.
         + left. split; eauto.
         + intros Hnone. rewrite Hnone in Hevs. exact Hevs.
         + intros n' s' [= <-] [= <-].
           destruct (Hrange eq_refl) as [(s' & [= <-] & Hs') (n' & [= <-] & Hn')]. lia.
         + exact Hbroad.
       - intros (_ & Hevs & Hrange & Hbroad). split_and!.
         + discriminate.
         + exact Hexts.
         + destruct (i_eventTypes intent) as [|t ts] eqn:Ets; [apply Hevs; reflexivity|].
           cbn. intros t' Ht'. apply Hallowed. exact Ht'.
         + intros _. destruct (Hrange n s eq_refl eq_refl). split; eauto.
         + exact Hbroad. }
  all: destruct (String.eqb_spec (c_type rule) "threshold") as [Hth|Hth];
    injection Hnum as Ht Hc Hw; rewrite Ht;
    (split;
     [ intros (Hty & _ & Hevs & _ & Hbroad); split_and!;
       [ right; first [exact Hty | rewrite Hth; discriminate]
       | intros Hnone; rewrite Hnone in Hevs; exact Hevs
       | intros n' s'; congruence
       | exact Hbroad ]
     | intros (Hty & Hevs & _ & Hbroad); split_and!;
       [ first [discriminate | destruct Hty as [[[? [=]] _]|Hty]; exact Hty
               | destruct Hty as [[_ [? [=]]]|Hty]; exact Hty]
       | exact Hexts
       | destruct (i_eventTypes intent) as [|t ts] eqn:Ets;
         [apply Hevs; reflexivity | cbn; intros t' Ht'; apply Hallowed; exact Ht']
       | first [discriminate | intros E; contradiction]
       | exact Hbroad ] ]).
Qed.

(** X21. Aligning an aligned rule again, for the same condition,
    changes nothing. *)
Theorem alignRuleToIntent_idempotent (condition : string) (rule : CompiledRule) :
  alignRuleToIntent condition (alignRuleToIntent condition rule) =
  alignRuleToIntent condition rule.
Proof.
  unfold alignRuleToIntent.
  generalize (Regex.test true exclusionPattern condition).
  generalize (extractIntent condition). intros intent excluding.
  destruct rule as [type [incs excs exts evs] window count].
  cbn [c_type c_match c_windowSeconds c_count pathIncludes pathExcludes extensions eventTypes].
  destruct (present (i_count intent) && present (i_windowSeconds intent)) eqn:Hreq;
    [|destruct (String.eqb type "threshold") eqn:Hty];
    cbn [c_type c_match c_windowSeconds c_count pathIncludes pathExcludes extensions
         eventTypes];
    try rewrite Hty;
    try change (String.eqb "pattern" "threshold") with false; cbv iota;
    destruct (0 <? length (i_eventTypes intent))%nat,
             (0 <? length (i_extensions intent))%nat,
             (0 <? length (i_pathIncludes intent))%nat,
             excluding;
    cbn [negb];
    destruct incs as [[|]|], excs as [[|]|], exts as [[|]|]; reflexivity.
Qed.

Lemma firstCount_positive (text : string) :
  ∀ patterns n, firstCount patterns text = Some n → 0 < n.
Proof.
  induction patterns as [|p ps IH]; intros n; cbn [firstCount]; [discriminate|].
  destruct (exec true p text) as [m|]; [|apply IH].
  destruct (isFinite _ && (0 <? _)) eqn:E; [|apply IH].
  intros [= <-]. apply andb_true_iff in E as [_ E]. apply Z.ltb_lt, E.
Qed.

Lemma parseWindowSeconds_positive (text : string) (s : Z) :
  parseWindowSeconds text = Some s → 0 < s.
Proof.
  unfold parseWindowSeconds. destruct (exec true windowPattern text) as [m|]; [|discriminate].
  cbv zeta. destruct (negb _ || (_ <=? 0)) eqn:E; [discriminate|].
  apply orb_false_iff in E as [_ E]. apply Z.leb_gt in E.
  revert E. generalize (numberOfDigits (default EmptyString (group 1 m))). intros v E.
  destruct (_ || _); [intros [= <-]; lia|].
  destruct (Text.startsWith _ "min"); intros [= <-]; lia.
Qed.

(** X22. An aligned rule of type threshold has a count and a window,
    both positive, and they are those of the intent. *)
Theorem aligned_threshold_numbers (condition : string) (rule : CompiledRule) :
  let intent := extractIntent condition in
  let aligned := alignRuleToIntent condition rule in
  c_type aligned = "threshold" →
  ∃ n s, c_count aligned = Some n ∧ c_windowSeconds aligned = Some s ∧
         i_count intent = Some n ∧ i_windowSeconds intent = Some s ∧ 0 < n ∧ 0 < s.
Proof.
  cbn zeta. pose proof (aligned_numbers condition rule) as Hnum. cbn zeta in Hnum.
  assert (Hc : ∀ n, i_count (extractIntent condition) = Some n → 0 < n).
  { unfold extractIntent. cbn [i_count]. intros n. apply firstCount_positive. }
  assert (Hw : ∀ s, i_windowSeconds (extractIntent condition) = Some s → 0 < s).
  { unfold extractIntent. cbn [i_windowSeconds]. intros s. apply parseWindowSeconds_positive. }
  revert Hnum Hc Hw. generalize (alignRuleToIntent condition rule).
  generalize (extractIntent condition). intros intent a Hnum Hc Hw Hty.
  destruct (i_count intent) as [n|], (i_windowSeconds intent) as [s|];
    cbn [present andb] in Hnum.
  1: { injection Hnum as _ -> ->. exists n, s. split_and!; auto. }
  all: destruct (String.eqb_spec (c_type rule) "threshold") as [E|E];
    injection Hnum as Ht _ _; rewrite Ht in Hty; first [discriminate | contradiction].
Qed.

Lemma aligned_threshold_numbers_witness :
  ∃ n s, c_count (alignRuleToIntent burstCondition modelPattern) = Some n ∧
         c_windowSeconds (alignRuleToIntent burstCondition modelPattern) = Some s ∧
         i_count (extractIntent burstCondition) = Some n ∧
         i_windowSeconds (extractIntent burstCondition) = Some s ∧ 0 < n ∧ 0 < s.
Proof.
  apply (aligned_threshold_numbers burstCondition modelPattern). vm_compute. reflexivity.
Defined.

End AlignmentFacts.

(** ** Notifier: no repeated notification within the dedupe window *)

Module NotifierFacts.
Import Notifier.

Lemma settledAt_later (T T' : Z) (st : State) :
  T ≤ T' → settledAt T st → settledAt T' st.
Proof.
  intros HT (Ha & Hc & Hd). split_and!.
  - intros e He. specialize (Ha e He). lia.
  - intros e He. destruct (Hc e He) as [H|[H1 H2]]; [left; exact H|].
    right. split; [exact H1 | lia].
  - exact Hd.
Qed.

Lemma spaced_snoc (log : list Sent) (b : Sent) :
  spaced log →
  (∀ a, In a log → s_key a = s_key b → dedupeWindow ≤ s_time b - s_time a) →
  spaced (log ++ [b]).
Proof.
  intros Hlog Hnew i j x y Hij Hi Hj Hkey.
  assert (Hjlen : (j < length (log ++ [b]))%nat) by (apply lookup_lt_is_Some; eauto).
  rewrite length_app in Hjlen. cbn in Hjlen.
  destruct (decide (j < length log)%nat) as [Hlt|Hge].
  - rewrite lookup_app_l in Hi, Hj by lia. exact (Hlog i j x y Hij Hi Hj Hkey).
  - assert (j = length log) by lia. subst j.
    rewrite lookup_app_l in Hi by lia.
    rewrite lookup_app_r in Hj by lia. rewrite Nat.sub_diag in Hj. injection Hj as <-.
    apply Hnew; [|exact Hkey]. apply list_elem_of_In. eapply list_elem_of_lookup_2, Hi.
Qed.

Lemma conditionalCleanup_lookup (now : Z) (st : State) (k : string) :
  sent (conditionalCleanup now st) = sent st ∧
  enabled (conditionalCleanup now st) = enabled st ∧
  (∀ t, recentNotifications st !! k = Some t →
     recentNotifications (conditionalCleanup now st) !! k = Some t ∨
     (recentNotifications (conditionalCleanup now st) !! k = None ∧
      t < now - 2 * dedupeWindow)) ∧
  (recentNotifications st !! k = None →
   recentNotifications (conditionalCleanup now st) !! k = None).
Proof.
  unfold conditionalCleanup. destruct (cleanupInterval <? now - lastCleanup st).
  2:{ split_and!; auto. }
  cbn. split_and!; try reflexivity.
  - intros t Ht. destruct (decide (t < now - dedupeWindow * 2)) as [Hold|Hnew].
    + right. split; [|lia]. apply map_lookup_filter_None. right.
      intros x Hx. rewrite Ht in Hx. injection Hx as <-. cbn. tauto.
    + left. apply map_lookup_filter_Some. split; [exact Ht | exact Hnew].
  - intros Hnone. apply map_lookup_filter_None. left. exact Hnone.
Qed.

Lemma notifyMatch_settled (m : RuleMatch) (now T : Z) (st : State) :
  T ≤ now → 0 < now → settledAt T st → settledAt now (notifyMatch m now st).
Proof.
  intros HT Hpos Hst. unfold notifyMatch.
  destruct (negb (enabled st)); [apply (settledAt_later T); assumption|].
  destruct (suppressed _ now) eqn:Hsup; [apply (settledAt_later T); assumption|].
  destruct Hst as (Ha & Hc & Hd).
  set (key := keyOf m) in *.
  match goal with |- settledAt now (conditionalCleanup now ?s) => set (st1 := s) end.
  assert (Hfar : ∀ a, In a (sent st) → s_key a = key → dedupeWindow ≤ now - s_time a).
  { intros a Hin Hk. specialize (Ha a Hin).
    destruct (Hc a Hin) as [(t & Hlook & Hle)|[_ Hold]]; [|unfold dedupeWindow in *; lia].
    rewrite Hk in Hlook. rewrite Hlook in Hsup. cbn in Hsup.
    apply andb_false_iff in Hsup as [Hz|Hw].
    - apply negb_false_iff, Z.eqb_eq in Hz. lia.
    - apply Z.ltb_ge in Hw. lia. }
  split_and!.
  - intros e He. rewrite (proj1 (conditionalCleanup_lookup now st1 key)) in He.
    cbn in He. apply in_app_or in He as [He|[<-|[]]]; [specialize (Ha e He); lia | cbn; lia].
  - intros e He. rewrite (proj1 (conditionalCleanup_lookup now st1 key)) in He.
    destruct (conditionalCleanup_lookup now st1 (s_key e)) as (_ & _ & Hsome & Hnone).
    assert (Hnew : ∀ k, k = key →
      (∃ t, recentNotifications (conditionalCleanup now st1) !! k = Some t ∧ now ≤ t)).
    { intros k ->. destruct (conditionalCleanup_lookup now st1 key) as (_ & _ & Hs & _).
      destruct (Hs now) as [H|[_ H]].
      - subst st1. cbn. apply lookup_insert_eq.
      - exists now. split; [exact H | lia].
      - unfold dedupeWindow in H. lia. }
    cbn in He. apply in_app_or in He as [He|[<-|[]]].
    + specialize (Ha e He).
      destruct (decide (s_key e = key)) as [Hk|Hk].
      * left. destruct (Hnew _ Hk) as (t & Ht & Hle). exists t. split; [exact Ht | lia].
      * assert (Hsame : recentNotifications st1 !! s_key e = recentNotifications st !! s_key e).
        { subst st1. cbn. apply lookup_insert_ne. congruence. }
        destruct (Hc e He) as [(t & Hlook & Hle)|[Hlook Hold]].
        -- rewrite <- Hsame in Hlook. destruct (Hsome t Hlook) as [H|[H1 H2]].
           ++ left. eauto.
           ++ right. split; [exact H1 | lia].
        -- rewrite <- Hsame in Hlook. right. split; [apply Hnone, Hlook | lia].
    + left. cbn. destruct (Hnew key eq_refl) as (t & Ht & Hle). eauto.
  - rewrite (proj1 (conditionalCleanup_lookup now st1 key)). subst st1. cbn.
    apply spaced_snoc; [exact Hd|]. intros a Hin Hk. cbn in *. apply Hfar; assumption.
Qed.

Lemma notifyAll_settled (calls : list (RuleMatch * Z)) :
  ∀ T st, clockLike T calls → settledAt T st →
          ∃ T', settledAt T' (notifyAll calls st).
Proof.
  unfold notifyAll. induction calls as [|[m now] calls IH]; intros T st Hclock Hst.
  - exists T. exact Hst.
  - cbn in Hclock. destruct Hclock as (HT & Hpos & Hrest). cbn [fold_left fst snd].
    apply (IH now); [exact Hrest|]. apply (notifyMatch_settled m now T); assumption.
Qed.

(** X23. With a clock that never goes back and reads positive times, any
    two notifications that the notifier sends for one key (rule id and
    path) lie at least 30 seconds apart, also across the clean-ups of its
    table. *)
Theorem notifications_are_spaced (isEnabled : bool) (start : Z)
    (calls : list (RuleMatch * Z)) :
  clockLike start calls →
  spaced (sent (notifyAll calls (create isEnabled start))).
Proof.
  intros Hclock.
  destruct (notifyAll_settled calls start (create isEnabled start) Hclock) as (T & _ & _ & H).
  - split_and!; [intros e [] | intros e [] |].
    intros i j a b _ Hi. cbn in Hi. rewrite lookup_nil in Hi. discriminate.
  - exact H.
Qed.

Lemma notifications_are_spaced_witness :
  spaced (sent (notifyAll sampleCalls (create true 500))) ∧
  map s_time (sent (notifyAll sampleCalls (create true 500))) = [1000; 2500; 31000; 400000].
Proof.
  split; [|vm_compute; reflexivity].
  apply (notifications_are_spaced true 500 sampleCalls). cbn. lia.
Defined.

End NotifierFacts.

(** ** SecurityValidator *)

Module SecurityFacts.
Import Security.

(** X24. [validateFilePath] accepts a path exactly when its resolved
    form lies within an allowed base path, its extension in lower case is
    not blocked, it is no symbolic link (unless links are allowed) and
    its size does not exceed the limit; a missing file passes the last two
    checks and any other failure of the file system rejects the path. *)
Theorem validateFilePath_accepts_iff (os : Platform) (config : Config) (filePath : string) :
  let absolutePath := pathResolve os filePath in
  validateFilePath os config filePath = true ↔
  (∃ base, In base (allowedBasePaths config) ∧
           isPathWithinBase os absolutePath base = true) ∧
  ¬ In (Text.toLowerCase (pathExtname os absolutePath)) (blockedExtensions config) ∧
  (allowSymlinks config = false →
   lstat os absolutePath = Missing ∨ ∃ size, lstat os absolutePath = Info false size) ∧
  (stat os absolutePath = Missing ∨
   ∃ link size, stat os absolutePath = Info link size ∧ size ≤ maxFileSize config).
Proof.
  cbn zeta. unfold validateFilePath.
  set (absolutePath := pathResolve os filePath).
  rewrite <- existsb_exists, <- arrayIncludes_In.
  destruct (existsb _ (allowedBasePaths config)); cbn [negb];
    [|split; [discriminate | intros [[=] _]]].
  destruct (Text.arrayIncludes _ _); [split; [discriminate | intros (_ & H & _); tauto]|].
  assert (Hsize :
    match stat os absolutePath with
    | Info _ size => negb (maxFileSize config <? size)
    | Missing => true
    | Failed => false
    end = true ↔
    (stat os absolutePath = Missing ∨
     ∃ link size, stat os absolutePath = Info link size ∧ size ≤ maxFileSize config)).
  { destruct (stat os absolutePath) as [| |link size].
    - split; auto.
    - split; [discriminate | intros [[=]|(? & ? & [=] & _)]].
    - rewrite negb_true_iff, Z.ltb_ge. split.
      + intros H. right. eauto.
      + intros [[=]|(? & ? & [= <- <-] & H)]. exact H. }
  destruct (allowSymlinks config); cbn [negb].
  - rewrite Hsize. split; [intros H; split_and!; auto; discriminate | tauto].
  - destruct (lstat os absolutePath) as [| |[] size].
    + rewrite Hsize. split; [intros H; split_and!; auto | tauto].
    + split; [discriminate|]. intros (_ & _ & H & _).
      destruct (H eq_refl) as [[=]|[? [=]]].
    + split; [discriminate|]. intros (_ & _ & H & _).
      destruct (H eq_refl) as [[=]|[? [=]]].
    + rewrite Hsize. split; [intros H; split_and!; eauto | tauto].
Qed.

Lemma blocked_extension_rejected (os : Platform) (config : Config) (filePath : string) :
  In (Text.toLowerCase (pathExtname os (pathResolve os filePath)))
     (blockedExtensions config) →
  validateFilePath os config filePath = false.
Proof.
  intros H. apply arrayIncludes_In in H. unfold validateFilePath. rewrite H.
  destruct (negb _); reflexivity.
Qed.

Lemma isAtOrBelow_spec (separator p blocked : string) :
  isAtOrBelow separator p blocked = true ↔
  p = blocked ∨ ∃ rest, p = blocked +:+ separator +:+ rest.
Proof.
  unfold isAtOrBelow, Text.startsWith. rewrite orb_true_iff, String.eqb_eq, prefix_spec.
  assert (Hassoc : ∀ a b c : string, (a +:+ b) +:+ c = a +:+ b +:+ c).
  { intros a b c. induction a as [|x a IH]; [reflexivity|].
    change (String x ((a +:+ b) +:+ c) = String x (a +:+ b +:+ c)). f_equal. exact IH. }
  split; (intros [H|[rest H]]; [left; exact H | right; exists rest]).
  - rewrite <- Hassoc. exact H.
  - rewrite Hassoc. exact H.
Qed.

Lemma driveMatch_spec (p drive : string) :
  driveMatch p = Some drive ↔
  ∃ letter separator rest,
    p = String letter (String ":" (String separator rest)) ∧
    isLetter letter = true ∧ Regex.separator separator = true ∧
    drive = String letter ":".
Proof.
  unfold driveMatch, drivePattern.
  destruct p as [|c1 [|c2 [|c3 rest]]]; cbn -[Ascii.eqb isLetter Regex.separator].
  - split; [discriminate|]. intros (l & s & r & H & _). discriminate.
  - destruct (isLetter c1); cbn;
      (split; [discriminate|]; intros (l & s & r & H & _); discriminate).
  - destruct (isLetter c1); [destruct (Ascii.eqb ":" c2)|]; cbn;
      (split; [discriminate|]; intros (l & s & r & H & _); discriminate).
  - destruct (isLetter c1) eqn:H1.
    + destruct (Ascii.eqb_spec ":" c2) as [<-|Hne].
      * destruct (Regex.separator c3) eqn:H3; cbn.
        -- split.
           ++ intros H. injection H as <-. exists c1, c3, rest. auto.
           ++ intros (l & s & r & H & _ & _ & ->). injection H as <- _ _.
              reflexivity.
        -- split; [discriminate|].
           intros (l & s & r & H & _ & Hs & _). injection H as _ <- _.
           congruence.
      * split; [discriminate|].
        intros (l & s & r & H & _). injection H as _ H _. congruence.
    + split; [discriminate|].
      intros (l & s & r & H & Hl & _). injection H as <- _ _. congruence.
Qed.

Lemma none_at_or_below (separator p : string) (dirs : list string) :
  existsb (isAtOrBelow separator p) dirs = false ↔
  ∀ dir, In dir dirs → ¬ atOrBelow separator p dir.
Proof.
  rewrite <- not_true_iff_false, existsb_exists. unfold atOrBelow. split.
  - intros H dir Hin Hat. apply H. exists dir. split; [exact Hin|].
    apply isAtOrBelow_spec. exact Hat.
  - intros H (dir & Hin & Hat). apply (H dir Hin). apply isAtOrBelow_spec. exact Hat.
Qed.

(** X26. [validateWatchDirectory] accepts a directory exactly when its
    resolved path (in lower case on Windows) is none of the ten system
    directories of the POSIX list nor below one of them; when moreover, on
    Windows, for a path that starts with a drive letter, a colon and a
    separator, it is none of the six system folders of that drive (the
    drive in lower case) nor below one of them; and when it lies within an
    allowed base path. Off Windows the drive folders are not looked at. *)
Theorem validateWatchDirectory_accepts_iff (os : Platform) (config : Config)
    (watchDir : string) :
  validateWatchDirectory os config watchDir = true ↔
  (∀ dir, In dir blockedPaths →
     ¬ atOrBelow "/" (forPlatform os (pathResolve os watchDir)) dir) ∧
  (win32 os = true →
   ∀ letter separator rest,
     pathResolve os watchDir = String letter (String ":" (String separator rest)) →
     isLetter letter = true → Regex.separator separator = true →
     ∀ folder,
       In folder ["windows"; "program files"; "program files (x86)"; "programdata";
                  "$recycle.bin"; "system volume information"] →
       ¬ atOrBelow Json.backslash (Text.toLowerCase (pathResolve os watchDir))
           (Text.toLowerCase (String letter ":") +:+ Json.backslash +:+ folder)) ∧
  (∃ base, In base (allowedBasePaths config) ∧
           isPathWithinBase os (pathResolve os watchDir) base = true).
Proof.
  unfold validateWatchDirectory.
  rewrite <- (none_at_or_below "/"), <- existsb_exists.
  destruct (existsb (isAtOrBelow "/" _) blockedPaths); [intuition congruence|].
  unfold forPlatform.
  destruct (win32 os); cbn [andb].
  - destruct (driveMatch (pathResolve os watchDir)) as [drive|] eqn:Hdrive.
    + apply driveMatch_spec in Hdrive as (letter & separator & rest & Hp & Hl & Hs & ->).
      destruct (existsb _ (windowsBlocked _)) eqn:Hblocked.
      * split; [discriminate|]. intros (_ & Hwin & _). exfalso.
        apply existsb_exists in Hblocked as (dir & Hin & Hat).
        unfold windowsBlocked in Hin. apply in_map_iff in Hin as (folder & <- & Hin).
        apply (Hwin eq_refl letter separator rest Hp Hl Hs folder Hin).
        apply isAtOrBelow_spec. exact Hat.
      * split; [|tauto]. intros H. split_and!; [reflexivity| |exact H].
        intros _ letter' separator' rest' Hp' _ _ folder Hin.
        rewrite Hp in Hp'. injection Hp' as <- _ _.
        apply (proj1 (none_at_or_below _ _ _) Hblocked).
        unfold windowsBlocked. apply in_map_iff. exists folder. auto.
    + split; [|tauto]. intros H. split_and!; [reflexivity| |exact H].
      intros _ letter separator rest Hp Hl Hs. exfalso.
      assert (Hsome : driveMatch (pathResolve os watchDir) = Some (String letter ":")).
      { apply driveMatch_spec. exists letter, separator, rest. auto. }
      congruence.
  - split; [|tauto]. intros H. split_and!; [reflexivity|discriminate|exact H].
Qed.

Lemma validateWatchDirectory_accepts_iff_witness :
  validateWatchDirectory posix sampleConfig "/home/user/watched/src" = true ∧
  validateWatchDirectory posix sampleConfig "/etc/nginx" = false ∧
  validateWatchDirectory windows windowsConfig "C:\Users\me\notes" = true ∧
  validateWatchDirectory windows windowsConfig "C:\Windows\System32" = false ∧
  validateWatchDirectory posix windowsConfig "C:\Windows" = true.
Proof.
  split_and!.
  - reflexivity.
  - apply not_true_iff_false. intros H.
    apply (validateWatchDirectory_accepts_iff posix sampleConfig "/etc/nginx") in H
      as (Hposix & _).
    apply (Hposix "/etc"); [left; reflexivity|]. right. exists "nginx". reflexivity.
  - reflexivity.
  - apply not_true_iff_false. intros H.
    apply (validateWatchDirectory_accepts_iff windows windowsConfig "C:\Windows\System32")
      in H as (_ & Hwin & _).
    apply (Hwin eq_refl "C"%char "\"%char "Windows\System32" eq_refl eq_refl eq_refl
             "windows"); [left; reflexivity|].
    right. exists "system32". reflexivity.
  - reflexivity.
Defined.

Lemma no_leading_dots (s : string) :
  (∀ post, s ≠ String "." (String "." post)) → Text.startsWith s ".." = false.
Proof.
  intros H. destruct (Text.startsWith s "..") eqn:E; [|reflexivity].
  apply prefix_spec in E as [post ->]. exfalso. apply (H post). reflexivity.
Qed.

Lemma dropLeadingDots_spec (n : nat) :
  ∀ s, (String.length s ≤ n)%nat →
    Text.startsWith (dropLeadingDots s) ".." = false ∧
    ∃ dropped, s = dropped +:+ dropLeadingDots s.
Proof.
  induction n as [|n IH]; intros s Hlen.
  - destruct s; [|cbn in Hlen; lia]. split; [reflexivity | exists EmptyString; reflexivity].
  - destruct s as [|c1 [|c2 r]].
    + split; [reflexivity | exists EmptyString; reflexivity].
    + split; [|exists EmptyString; reflexivity].
      apply no_leading_dots. intros post. discriminate.
    + cbn [dropLeadingDots].
      destruct (Ascii.eqb_spec c1 ".") as [->|H1]; cbn [andb].
      2:{ split; [|exists EmptyString; reflexivity].
          apply no_leading_dots. intros post [= E _]. contradiction. }
      destruct (Ascii.eqb_spec c2 "." ) as [->|H2].
      2:{ split; [|exists EmptyString; reflexivity].
          apply no_leading_dots. intros post [= E _]. contradiction. }
      destruct r as [|c3 r'].
      * split; [reflexivity | exists ".."; reflexivity].
      * cbn in Hlen. destruct (Regex.separator c3).
        -- destruct (IH r' ltac:(lia)) as [Hno [dropped Hd]]. split; [exact Hno|].
           exists (String "." (String "." (String c3 dropped))).
           change (String "." (String "." (String c3 r')) =
                   String "." (String "." (String c3 (dropped +:+ dropLeadingDots r')))).
           rewrite <- Hd. reflexivity.
        -- destruct (IH (String c3 r') ltac:(cbn; lia)) as [Hno [dropped Hd]].
           split; [exact Hno|].
           exists (String "." (String "." dropped)).
           change (String "." (String "." (String c3 r')) =
                   String "." (String "." (dropped +:+ dropLeadingDots (String c3 r')))).
           rewrite <- Hd. reflexivity.
Qed.

(** X27. The result of [sanitizePath] never starts with two dots, and
    it is what is left of the normalized path after a prefix is
    dropped. *)
Theorem sanitizePath_has_no_leading_dots (os : Platform) (inputPath : string) :
  Text.startsWith (sanitizePath os inputPath) ".." = false ∧
  ∃ dropped, pathNormalize os (removeNulls inputPath) = dropped +:+ sanitizePath os inputPath.
Proof. unfold sanitizePath. eapply dropLeadingDots_spec. reflexivity. Qed.

End SecurityFacts.

(** X25. With the [SecurityValidator] as the validator of the engine, an
    event on a file whose extension, in any letter case, is blocked is
    counted as observed and nothing else happens: no rule is evaluated. *)
Theorem blocked_extension_is_never_evaluated (os : Security.Platform)
    (config : Security.Config) (env : Setup) (event : FileEvent) (w : World) :
  validateFilePath env = Security.validateFilePath os config →
  In (Text.toLowerCase
        (Security.pathExtname os
           (Security.pathResolve os (resolve env (watchDir env) (ev_path event)))))
     (Security.blockedExtensions config) →
  evaluateEvent env event w = (Ok [], addObserved w).
Proof.
  intros Henv Hblocked. rewrite evaluateEvent_unfold, Henv.
  rewrite SecurityFacts.blocked_extension_rejected by exact Hblocked. reflexivity.
Qed.

Lemma blocked_extension_is_never_evaluated_witness :
  evaluateEvent guardedSetup upperCaseEvent mixedWorld = (Ok [], addObserved mixedWorld).
Proof.
  apply (blocked_extension_is_never_evaluated Security.posix Security.sampleConfig).
  - reflexivity.
  - vm_compute. auto.
Defined.

(** ** FileWatcher: a burst of raw events becomes one event *)

Module WatcherFacts.
Import Watcher.

Lemma flagsAfter_flags (burst : list Raw) :
  ∀ state,
    deleted (flagsAfter burst state) = deleted state || existsb isUnlink burst ∧
    added (flagsAfter burst state) = added state || existsb isAdd burst.
Proof.
  unfold flagsAfter. induction burst as [|t burst IH]; intros state; cbn [fold_left existsb].
  - rewrite !orb_false_r. auto.
  - destruct (IH (mark t state)) as [-> ->].
    destruct t, state as [a c d]; cbn; destruct a, d; cbn; auto.
Qed.

Lemma normalizeType_burst (burst : list Raw) :
  normalizeType (flagsAfter burst noFlags) = burstType burst.
Proof.
  unfold normalizeType, burstType. destruct (flagsAfter_flags burst noFlags) as [-> ->].
  reflexivity.
Qed.

Lemma fire_other (os : Paths) (p q : string) (st : State) :
  q ≠ p → debounceMap (fire os q st) !! p = debounceMap st !! p.
Proof.
  intros Hne. unfold fire. destruct (debounceMap st !! q); [|reflexivity].
  destruct (normalizePath os q) as [r|]; [destruct (String.eqb r EmptyString)|];
    cbn; apply lookup_delete_ne; exact Hne.
Qed.

(** The entry of a path after steps during which its timer does not
    fire. *)
Lemma run_pending (os : Paths) (p : string) (steps : list Step) :
  ∀ st, quiet p steps →
    debounceMap (run os steps st) !! p =
    match arrivalsOf p steps with
    | [] => debounceMap st !! p
    | t :: more =>
        Some (flagsAfter (t :: more) (default noFlags (debounceMap st !! p)))
    end.
Proof.
  unfold run. induction steps as [|s steps IH]; intros st Hq; [reflexivity|].
  pose proof (Forall_inv Hq) as Hs. pose proof (Forall_inv_tail Hq) as Hq'.
  cbn [fold_left]. rewrite (IH _ Hq'). clear IH.
  destruct s as [t q|q]; cbn [step arrivalsOf flat_map].
  - fold (arrivalsOf p steps). destruct (String.eqb_spec q p) as [->|Hne].
    + cbn [app enqueue debounceMap]. rewrite lookup_insert_eq. cbn [default].
      destruct (arrivalsOf p steps); reflexivity.
    + cbn [app enqueue debounceMap]. rewrite lookup_insert_ne by exact Hne. reflexivity.
  - fold (arrivalsOf p steps). cbn [app]. rewrite (fire_other os p q st Hs). reflexivity.
Qed.

(** X28. The raw events that arrive for a path while its timer is
    pending are reported as one event when the timer fires: deleted when
    a deletion is among them, otherwise created when an addition is among
    them, otherwise modified, in whatever order they came and whatever
    happened to other paths meanwhile.  The entry of the path is then
    gone.  A path outside the watched directory is reported not at all. *)
Theorem burst_becomes_one_event (os : Paths) (filePath : string) (steps : list Step)
    (st : State) :
  debounceMap st !! filePath = None →
  quiet filePath steps →
  arrivalsOf filePath steps ≠ [] →
  let before := run os steps st in
  let after := fire os filePath before in
  debounceMap after !! filePath = None ∧
  emitted after =
    emitted before ++
    match normalizePath os filePath with
    | Some p =>
        if String.eqb p EmptyString then []
        else [(burstType (arrivalsOf filePath steps), p)]
    | None => []
    end.
Proof.
  intros Hnone Hq Hne. cbn zeta.
  pose proof (run_pending os filePath steps st Hq) as Hp. rewrite Hnone in Hp.
  destruct (arrivalsOf filePath steps) as [|t more] eqn:Harr; [contradiction|].
  cbn [default] in Hp. unfold fire. rewrite Hp.
  destruct (normalizePath os filePath) as [p|]; [destruct (String.eqb p EmptyString)|];
    cbn [debounceMap emitted]; rewrite ?app_nil_r, ?normalizeType_burst;
    (split; [apply lookup_delete_eq | reflexivity]).
Qed.

Lemma burst_becomes_one_event_witness :
  emitted (run posixPaths
             [Arrive Unlink "src/a.ts"; Arrive Change "src/b.ts"; Arrive Add "src/a.ts";
              Fire "src/a.ts"] initial)
  = [("deleted", "src/a.ts")].
Proof.
  apply (proj2 (burst_becomes_one_event posixPaths "src/a.ts"
                  [Arrive Unlink "src/a.ts"; Arrive Change "src/b.ts"; Arrive Add "src/a.ts"]
                  initial eq_refl ltac:(repeat constructor; discriminate)
                  ltac:(discriminate))).
Defined.

End WatcherFacts.

(** ** LLMQueue *)

Module QueueFacts.
Import Queue.

Section Sorting.

Variable compare : Item → Item → Z.

Lemma insertBy_length (x : Item) (l : list Item) :
  length (insertBy compare x l) = S (length l).
Proof.
  induction l as [|y l IH]; [reflexivity|]. cbn.
  destruct (0 <? compare x y); cbn; [rewrite IH|]; reflexivity.
Qed.

Lemma sortBy_length (l : list Item) : length (sortBy compare l) = length l.
Proof.
  induction l as [|x l IH]; [reflexivity|].
  change (sortBy compare (x :: l)) with (insertBy compare x (sortBy compare l)).
  rewrite insertBy_length, IH. reflexivity.
Qed.

Lemma insertBy_In (x y : Item) (l : list Item) :
  In y (insertBy compare x l) ↔ y = x ∨ In y l.
Proof.
  induction l as [|z l IH]; cbn; [intuition|].
  destruct (0 <? compare x z); cbn; [rewrite IH|]; intuition.
Qed.

Lemma sortBy_In (y : Item) (l : list Item) : In y (sortBy compare l) ↔ In y l.
Proof.
  induction l as [|x l IH]; [reflexivity|].
  change (sortBy compare (x :: l)) with (insertBy compare x (sortBy compare l)).
  rewrite insertBy_In, IH. cbn. intuition.
Qed.

Hypothesis compare_total : ∀ a b, 0 < compare a b → compare b a ≤ 0.
Hypothesis compare_trans : ∀ a b c, compare a b ≤ 0 → compare b c ≤ 0 → compare a c ≤ 0.

Lemma insertBy_sorted (x : Item) (l : list Item) :
  StronglySorted (fun a b => compare a b ≤ 0) l →
  StronglySorted (fun a b => compare a b ≤ 0) (insertBy compare x l).
Proof.
  induction 1 as [|y l Hl IH Hy]; cbn; [repeat constructor|].
  destruct (Z.ltb_spec 0 (compare x y)) as [Hgt|Hle].
  - constructor; [exact IH|]. apply List.Forall_forall. intros z Hz.
    apply insertBy_In in Hz as [->|Hz]; [apply compare_total, Hgt|].
    apply (proj1 (List.Forall_forall _ _) Hy z Hz).
  - constructor; [constructor; assumption|]. constructor; [exact Hle|].
    apply List.Forall_forall. intros z Hz.
    apply (compare_trans x y z Hle). apply (proj1 (List.Forall_forall _ _) Hy z Hz).
Qed.

Lemma sortBy_sorted (l : list Item) :
  StronglySorted (fun a b => compare a b ≤ 0) (sortBy compare l).
Proof.
  induction l as [|x l IH]; [constructor|].
  change (sortBy compare (x :: l)) with (insertBy compare x (sortBy compare l)).
  apply insertBy_sorted, IH.
Qed.

Lemma sorted_last (l : list Item) (d : Item) :
  StronglySorted (fun a b => compare a b ≤ 0) l → last l = Some d →
  ∀ x, In x l → x = d ∨ compare x d ≤ 0.
Proof.
  induction 1 as [|y l Hl IH Hy]; [discriminate|].
  intros Hlast x Hx. destruct l as [|z l].
  - cbn in Hlast. injection Hlast as <-. destruct Hx as [->|[]]. left. reflexivity.
  - rewrite last_cons_cons in Hlast. destruct Hx as [<-|Hx]; [|apply IH; assumption].
    right. apply (proj1 (List.Forall_forall _ _) Hy d).
    apply list_elem_of_In. apply last_Some_elem_of. exact Hlast.
Qed.

End Sorting.

Lemma byPriority_order :
  (∀ a b, 0 < byPriority a b → byPriority b a ≤ 0) ∧
  (∀ a b c, byPriority a b ≤ 0 → byPriority b c ≤ 0 → byPriority a c ≤ 0).
Proof. unfold byPriority. split; intros; lia. Qed.

Lemma byPriorityThenTime_order :
  (∀ a b, 0 < byPriorityThenTime a b → byPriorityThenTime b a ≤ 0) ∧
  (∀ a b c, byPriorityThenTime a b ≤ 0 → byPriorityThenTime b c ≤ 0 →
            byPriorityThenTime a c ≤ 0).
Proof.
  unfold byPriorityThenTime. split.
  - intros a b. destruct (Z.eqb_spec (priority a - priority b) 0),
      (Z.eqb_spec (priority b - priority a) 0); lia.
  - intros a b c. destruct (Z.eqb_spec (priority a - priority b) 0),
      (Z.eqb_spec (priority b - priority c) 0), (Z.eqb_spec (priority a - priority c) 0); lia.
Qed.

Lemma sortQueue_length (now : Z) (q : list Item) : length (sortQueue now q) = length q.
Proof. unfold sortQueue. rewrite sortBy_length, length_map. reflexivity. Qed.

Lemma removelast_length {A} (l : list A) : length (removelast l) = (length l - 1)%nat.
Proof.
  induction l as [|x [|y l] IH]; [reflexivity | reflexivity|].
  change (removelast (x :: y :: l)) with (x :: removelast (y :: l)).
  cbn [length] in *. rewrite IH. lia.
Qed.

Lemma processQueue_same (st : State) :
  queue (processQueue st) = queue st ∧ active (processQueue st) = active st ∧
  log (processQueue st) = log st ∧ shuttingDown (processQueue st) = shuttingDown st.
Proof. unfold processQueue. destruct (processing st || shuttingDown st); auto. Qed.

Lemma enqueue_bounded (limits : Limits) (prio now later : Z) (st : State) :
  1 ≤ maxQueueSize limits → bounded limits st →
  bounded limits (enqueue limits prio now later st).
Proof.
  intros Hmax [Hq Ha]. unfold enqueue, bounded.
  destruct (shuttingDown st); [cbn; auto|].
  destruct (processQueue_same
    {| queue := sortQueue later
                  ((if maxQueueSize limits <=? Z.of_nat (length (queue st))
                    then removelast (if maxQueueSize limits <=? Z.of_nat (length (queue st))
                                     then sortBy byPriority (queue st) else queue st)
                    else if maxQueueSize limits <=? Z.of_nat (length (queue st))
                         then sortBy byPriority (queue st) else queue st) ++
                   [{| taskId := nextId st; priority := prio; timestamp := now;
                       enqueueTime := now |}]);
       active := active st; processing := processing st; shuttingDown := false;
       scheduled := scheduled st; nextId := S (nextId st);
       log := log st ++
              (if maxQueueSize limits <=? Z.of_nat (length (queue st))
               then match last (if maxQueueSize limits <=? Z.of_nat (length (queue st))
                                then sortBy byPriority (queue st) else queue st) with
                    | Some d => [(taskId d, Dropped)]
                    | None => []
                    end
               else []) |}) as (-> & -> & _).
  cbn [queue active]. split; [|exact Ha].
  rewrite sortQueue_length, length_app. cbn [length].
  destruct (Z.leb_spec (maxQueueSize limits) (Z.of_nat (length (queue st)))).
  - rewrite removelast_length, sortBy_length. lia.
  - lia.
Qed.

Lemma pump_bounded (limits : Limits) (times : list Z) :
  ∀ st, bounded limits st → bounded limits (pump limits times st).
Proof.
  induction times as [|now times IH]; intros st Hst; [exact Hst|].
  cbn [pump]. destruct (_ && _ && _) eqn:Hgo; [|exact Hst].
  apply andb_true_iff in Hgo as [Hgo _]. apply andb_true_iff in Hgo as [Hact _].
  apply Z.ltb_lt in Hact.
  destruct (sortQueue now (queue st)) as [|item rest] eqn:Hsort; [exact Hst|].
  apply IH. destruct Hst as [Hq Ha]. split; cbn [queue active]; [|lia].
  pose proof (sortQueue_length now (queue st)) as Hlen. rewrite Hsort in Hlen.
  cbn [length] in Hlen. lia.
Qed.

Lemma step_bounded (limits : Limits) (st : State) (l : Label) :
  1 ≤ maxQueueSize limits → bounded limits st → bounded limits (step limits st l).
Proof.
  intros Hmax Hst. destruct l as [prio now later|clock| |]; cbn [step].
  - apply enqueue_bounded; assumption.
  - unfold runScheduled. destruct (scheduled st); [exact Hst|].
    apply (pump_bounded limits (map clock (seq 0 (length (queue st))))) in Hst.
    exact Hst.
  - destruct (Z.ltb_spec 0 (active st)); [|exact Hst]. unfold finish, bounded.
    match goal with |- context [processQueue ?s] =>
      destruct (processQueue_same s) as (-> & -> & _) end.
    destruct Hst as [Hq Ha]. cbn. split; [exact Hq | lia].
  - destruct Hst as [Hq Ha]. split; cbn; [lia | exact Ha].
Qed.

(** X29. With a queue size of at least one and a concurrency limit that
    is not negative, the queue never holds more than [maxQueueSize] tasks
    and the number of running tasks stays between zero and
    [maxConcurrent], whatever sequence of arrivals, scheduled runs,
    completions and drains takes place. *)
Theorem queue_stays_bounded (limits : Limits) (labels : list Label) :
  1 ≤ maxQueueSize limits → 0 ≤ maxConcurrent limits →
  bounded limits (run limits labels initial).
Proof.
  intros Hmax Hcon. unfold run.
  assert (H : ∀ st, bounded limits st → bounded limits (fold_left (step limits) labels st)).
  { induction labels as [|l labels IH]; intros st Hst; [exact Hst|].
    cbn [fold_left]. apply IH, step_bounded; assumption. }
  apply H. split; cbn; lia.
Qed.

Lemma queue_stays_bounded_witness :
  bounded sampleLimits
    (run sampleLimits
       [Enqueue 1 100 100; Enqueue 3 200 200; Enqueue 2 300 300;
        RunScheduled (fun n => 400 + Z.of_nat n); Finish] initial).
Proof. apply queue_stays_bounded; cbn; lia. Defined.

(** X30. [enqueue] on a queue that is not shutting down always admits
    the new task, whatever its priority, and leaves the queue ordered by
    priority and then by time stamp.  When the queue is full, the task it
    drops instead is one of the queue that no other task of the queue
    exceeds in priority number. *)
Theorem enqueue_on_a_full_queue (limits : Limits) (prio now later : Z) (st : State) :
  shuttingDown st = false →
  let st' := enqueue limits prio now later st in
  (∃ item, In item (queue st') ∧ taskId item = nextId st) ∧
  StronglySorted (fun a b => byPriorityThenTime a b ≤ 0) (queue st') ∧
  (maxQueueSize limits ≤ Z.of_nat (length (queue st)) →
   ∀ d, last (sortBy byPriority (queue st)) = Some d →
        log st' = log st ++ [(taskId d, Dropped)] ∧
        In d (queue st) ∧
        ∀ x, In x (queue st) → priority x ≤ priority d).
Proof.
  intros Hup. cbn zeta. unfold enqueue. rewrite Hup.
  match goal with |- context [processQueue ?s] =>
    destruct (processQueue_same s) as (-> & _ & -> & _) end.
  cbn [queue log]. split_and!.
  - unfold sortQueue.
    exists (age later {| taskId := nextId st; priority := prio; timestamp := now;
                         enqueueTime := now |}).
    split.
    + apply sortBy_In, in_map, in_or_app. right. left. reflexivity.
    + unfold age. destruct (AGING_THRESHOLD <? _); reflexivity.
  - apply sortBy_sorted; apply byPriorityThenTime_order.
  - intros Hfull d Hlast. apply Z.leb_le in Hfull. rewrite Hfull, Hlast.
    split; [reflexivity|].
    assert (Hd : In d (queue st)).
    { apply (sortBy_In byPriority). apply list_elem_of_In, last_Some_elem_of, Hlast. }
    split; [exact Hd|]. intros x Hx.
    destruct (sorted_last byPriority (sortBy byPriority (queue st)) d) with (x := x)
      as [->|Hle].
    + apply sortBy_sorted; apply byPriority_order.
    + exact Hlast.
    + apply sortBy_In, Hx.
    + lia.
    + unfold byPriority in Hle. lia.
Qed.

Lemma enqueue_on_a_full_queue_witness :
  let st := run sampleLimits [Enqueue 1 100 100; Enqueue 3 200 200] initial in
  log (enqueue sampleLimits 5 300 300 st) = [(1%nat, Dropped)] ∧
  map taskId (queue (enqueue sampleLimits 5 300 300 st)) = [0%nat; 2%nat].
Proof.
  cbn zeta. split; [|vm_compute; reflexivity].
  destruct (enqueue_on_a_full_queue sampleLimits 5 300 300
              (run sampleLimits [Enqueue 1 100 100; Enqueue 3 200 200] initial) eq_refl)
    as (_ & _ & H).
  apply (H ltac:(apply Z.leb_le; vm_compute; reflexivity)
           {| taskId := 1; priority := 3; timestamp := 200; enqueueTime := 200 |}).
  vm_compute. reflexivity.
Defined.

End QueueFacts.
